(** * vswitch: a VLAN-aware learning Ethernet switch

    Shallow embedding of [src/VSwitch/vswitch.c] and verification of the
    properties stated for it: the learning table ([lookup_table_init],
    [search_lookup_table], [save_to_table]), the forwarding engine
    ([forward_to], [parse_tagged_frame], [parse_untagged_frame],
    [parse_frame], [handle_frame]), the port specification parser
    ([parse_tagged], [parse_untagged], [parse_vlan_args], [main]) and the
    driver protocol: the bytes that [forward_to] writes, [write_all],
    [handle_mac], [handle_control] and the [loop] of
    [src/VSwitch/loop.c] that reads them.

    Conventions of the embedding.
    - A C integer ([int], [uint16_t], [int16_t], [uint8_t]) is a [Z]; the
      only arithmetic the switch does on them is comparison, [& 1],
      [+ 1] and [%], none of which leaves the range of its type here.
    - A byte buffer is a [list Z]; [buf[i] = v] is stdpp's [<[i:=v]>] and
      [buf[i]] is [cell_at buf i].
    - A function that mutates the global learning table takes the table
      and returns the new one; a function that writes frames to the driver
      returns the list of its emissions, in the order of the writes. *)

From Stdlib Require Import Ascii.
From stdpp Require Import base numbers list strings.

Local Open Scope Z_scope.

(** ** Constants of vswitch.c *)

Definition MAX_VLANS : Z := 4092.
Definition NO_VLAN : Z := -1.
Definition DEFAULT_VLAN : Z := 0.
Definition ETH_802_1Q_TAG : Z := 0x8100.
Definition NBR_ENTRIES : Z := 8.
Definition IF_NO_INIT : Z := 65535.

(** ** Data model *)

(** [struct MacAddress { uint8_t mac[6]; }]: the six bytes. *)
Definition MacAddress : Type := list Z.

(** Reading a cell of a C array.  A cell that the list does not hold reads
    as 0: the arrays of the switch live in memory that starts zeroed
    ([memset] in [main], the global [lookupTable]). *)
Definition cell_at (buf : list Z) (i : nat) : Z := default 0 (buf !! i).

(** The loop [for (j = 0; j < 6; j++) d.mac[j] = s.mac[j]]. *)
Definition mac_copy (s : MacAddress) : MacAddress :=
  (λ j, cell_at s j) <$> seq 0 6.

(** The loop of [search_lookup_table] that compares two addresses byte by
    byte and clears [match] at the first difference. *)
Definition mac_match (a b : MacAddress) : bool :=
  forallb (λ j, cell_at a j =? cell_at b j) (seq 0 6).

Definition empty_mac : MacAddress := [0; 0; 0; 0; 0; 0].

(** A C string, without its terminating NUL. *)
Abbreviation cstring := (list ascii).

Definition cstr (s : string) : cstring := String.list_ascii_of_string s.

(** [struct Interface].  [tagged_vlans] holds the cells of the array that
    were written, terminator included; the cells after them are 0.
    [ifc_name] is the string pointed to ([[]] for [NULL]). *)
Record Interface : Type := mkInterface {
  mac : MacAddress;
  ifc_num : Z;
  ifc_name : cstring;
  tagged_vlans : list Z;
  untagged_vlan : Z
}.

Definition set_mac (m : MacAddress) (ifc : Interface) : Interface :=
  mkInterface m (ifc_num ifc) (ifc_name ifc) (tagged_vlans ifc)
              (untagged_vlan ifc).

Definition set_ifc_num (n : Z) (ifc : Interface) : Interface :=
  mkInterface (mac ifc) n (ifc_name ifc) (tagged_vlans ifc)
              (untagged_vlan ifc).

(** A zeroed [struct Interface]: what the global table holds at start-up
    and what a brace initialiser leaves in the members it does not name. *)
Definition zero_Interface : Interface :=
  mkInterface empty_mac 0 [] [] 0.

(** [struct LookupTable]. *)
Record LookupTable : Type := mkLookupTable {
  table : list Interface;
  nbr_position : Z;
  current_position : Z
}.

(** The global [lookupTable] before the first frame: zeroed storage. *)
Definition lookupTable0 : LookupTable :=
  mkLookupTable (replicate (Z.to_nat NBR_ENTRIES) zero_Interface) 0 0.

(** [lookupTable->table[i]]. *)
Definition slot (tbl : list Interface) (i : nat) : Interface :=
  default zero_Interface (tbl !! i).

(** ** The learning table *)

(** [lookup_table_init]: every slot gets the all-zero address and the
    sentinel [IF_NO_INIT]; the other members of a slot are left alone. *)
Definition lookup_table_init (lt : LookupTable) : LookupTable :=
  mkLookupTable
    ((λ e, set_ifc_num IF_NO_INIT (set_mac (mac_copy empty_mac) e))
       <$> table lt)
    NBR_ENTRIES
    0.

(** The body of the [for] loop of [search_lookup_table], from index [i]
    with [n] iterations left.  The result is the returned position (or -1)
    and the value of [*found_interface] on return. *)
Fixpoint search_loop (tbl : list Interface) (targetMac : MacAddress)
    (found_interface : Interface) (i n : nat) : Z * Interface :=
  match n with
  | O => (-1, found_interface)
  | S n' =>
      let e := slot tbl i in
      if mac_match (mac e) targetMac && negb (ifc_num e =? IF_NO_INIT)
      then (Z.of_nat i,
            set_mac (mac_copy (mac e)) (set_ifc_num (ifc_num e) found_interface))
      else search_loop tbl targetMac found_interface (S i) n'
  end.

Definition search_lookup_table (lt : LookupTable) (targetMac : MacAddress)
    (found_interface : Interface) : Z * Interface :=
  search_loop (table lt) targetMac found_interface 0
              (Z.to_nat (nbr_position lt)).

(** [save_to_table]: the returned code and the table after the call.
    [tmp_if] is a local that [search_lookup_table] fills when it finds the
    address; it is read in that case only.  The last line of the source,
    [current_position = (current_position + 1) % nbr_position], divides by
    zero when an address is stored as new in a table with
    [nbr_position = 0]: the embedding is that of the source on an
    initialised table only, which is the table [parse_frame] calls it
    with (after [table_ready]); what is stated about [save_to_table] is
    stated for such tables. *)
Definition save_to_table (lt : LookupTable) (new_if : Interface)
    : Z * LookupTable :=
  let noMac := -1 in
  let '(table_pos, tmp_if) :=
    search_lookup_table lt (mac new_if) zero_Interface in
  if negb (noMac =? table_pos) then
    if ifc_num tmp_if =? ifc_num new_if then (-1, lt)
    else
      let i := Z.to_nat table_pos in
      (0, mkLookupTable
            (<[i := set_ifc_num (ifc_num new_if) (slot (table lt) i)]> (table lt))
            (nbr_position lt) (current_position lt))
  else
    let current_position := current_position lt in
    let i := Z.to_nat current_position in
    (0, mkLookupTable
          (<[i := set_mac (mac_copy (mac new_if))
                    (set_ifc_num (ifc_num new_if) (slot (table lt) i))]>
             (table lt))
          (nbr_position lt)
          ((current_position + 1) `rem` nbr_position lt)).

(** ** Frames and emissions *)

(** [struct EthernetHeader], packed: 14 bytes.  [tag] is the [uint16_t] as
    it lies in the frame, first byte and second byte. *)
Record EthernetHeader : Type := mkEthernetHeader {
  dst : MacAddress;
  src : MacAddress;
  tag : Z * Z
}.

(** [ntohs] of a 16-bit field given by its two bytes in frame order: the
    value read big-endian, whatever the byte order of the host. *)
Definition ntohs (t : Z * Z) : Z := Z.lor (Z.shiftl (fst t) 8) (snd t).

(** What [forward_to] hands to [write_all]: the driver envelope carries
    [dst->ifc_num] in its type field and the [frame_size] bytes of the
    frame behind it. *)
Record Emission : Type := mkEmission {
  em_port : Z;
  em_frame : list Z
}.

Definition forward_to (dst : Interface) (frame : list Z) (frame_size : nat)
    : Emission :=
  mkEmission (ifc_num dst) (take frame_size frame).

(** The three loops of [parse_tagged_frame] that fill
    [untagged_frame[frame_size - 4]]: addresses from the header, then
    [untagged_frame[i] = byte_frame[i + 4]] for [12 <= i < frame_size].
    The last four iterations read behind [byte_frame] and store behind
    [untagged_frame]; the frame that is sent is the array, which those
    stores do not reach, and under the layout of [vla_block] they fall
    into the padding of the block or into [byte_frame[0..3]], which no
    later iteration reads. *)
Definition untagged_frame (header : EthernetHeader) (byte_frame : list Z)
    (frame_size : nat) : list Z :=
  let buf := replicate (frame_size - 4) 0 in
  let buf :=
    foldl (λ b i, <[(6 + i)%nat := cell_at (src header) i]>
                    (<[i := cell_at (dst header) i]> b))
          buf (seq 0 6) in
  foldl (λ b i, <[i := cell_at byte_frame (i + 4)]> b)
        buf (seq 12 (frame_size - 12)).

(** [struct Q tag] of [parse_untagged_frame] as its four bytes:
    [tpid = htons(0x8100)], [tci = htons(0x001)]. *)
Definition Q_tag_bytes : list Z := [0x81; 0x00; 0x00; 0x01].

(** The stack of [parse_untagged_frame].  The function declares
    [uint8_t byte_frame[frame_size]] and, in the loop,
    [uint8_t tagged_frame[frame_size - 12]], and then stores
    [frame_size + 4] bytes through [tagged_frame]: sixteen more than it
    has.  C leaves such stores undefined; what they do is fixed by where
    the compiler puts the two arrays.  The embedding takes the layout of
    gcc at [-O0] on x86-64, the compiler and flags of the Makefile: a
    variable-length array gets a block of the next multiple of 16 bytes,
    and the array declared later lies directly below the earlier one.  So
    [byte_frame] starts [vla_block (frame_size - 12)] bytes behind
    [tagged_frame], and the stores past the end of [tagged_frame] fall
    into the padding of its block and then into the first bytes of
    [byte_frame]. *)
Definition vla_block (n : nat) : nat := 16 * ((n + 15) / 16).

(** The loops of [parse_untagged_frame] that fill [tagged_frame]:
    addresses, the four tag bytes at 12..15, then
    [tagged_frame[i + 4] = byte_frame[i]] for [12 <= i < frame_size].
    [mem] is the memory from the address of [tagged_frame] on, that is
    the block of [tagged_frame] followed by [byte_frame]; the result is
    that memory after the stores.  A store at [tagged_frame + k] is a
    store at offset [k] of [mem], whether or not [k] is within the
    [frame_size - 12] bytes of the declaration, and [byte_frame[i]] is
    read at offset [vla_block (frame_size - 12) + i], with what earlier
    stores left there. *)
Definition tagged_frame (header : EthernetHeader) (mem : list Z)
    (frame_size : nat) : list Z :=
  let byte_frame := vla_block (frame_size - 12) in
  let mem :=
    foldl (λ b i, <[(6 + i)%nat := cell_at (src header) i]>
                    (<[i := cell_at (dst header) i]> b))
          mem (seq 0 6) in
  let mem :=
    foldl (λ b i, <[(12 + i)%nat := cell_at Q_tag_bytes i]> b)
          mem (seq 0 4) in
  foldl (λ b i, <[(i + 4)%nat := cell_at b (byte_frame + i)]> b)
        mem (seq 12 (frame_size - 12)).

(** The frame sizes for which the stores past the end of [tagged_frame]
    stay below [byte_frame[12]]: what the later iterations read of
    [byte_frame] is then what [memcpy] put there.  These are the sizes
    with [(frame_size - 12) mod 16] from 1 to 12. *)
Definition tag_safe (frame_size : nat) : Prop :=
  (frame_size + 4 ≤ vla_block (frame_size - 12) + 12)%nat.

(** The memory of the two arrays in which [byte_frame] holds the bytes of
    [frame] from offset 12 on. *)
Definition byte_frame_intact (mem frame : list Z) : Prop :=
  length mem = (vla_block (length frame - 12) + length frame)%nat
  ∧ ∀ i, (12 ≤ i < length frame)%nat →
         cell_at mem (vla_block (length frame - 12) + i) = cell_at frame i.

(** ** The forwarding engine *)

Section Engine.

(** [gifc], the interfaces of the switch ([num_ifc] is its length). *)
Variable gifc : list Interface.

(** [ifc->tagged_vlans[0]]. *)
Definition tagged_vlans_0 (ifc : Interface) : Z :=
  cell_at (tagged_vlans ifc) 0.

(** One iteration of the [for] loop of [parse_tagged_frame] on
    [gifc[i] = g]. *)
Definition parse_tagged_frame_step (ifc : Interface) (frame : list Z)
    (frame_size : nat) (header : EthernetHeader) (g : Interface)
    : list Emission :=
  if ifc_num g =? ifc_num ifc then []
  else if tagged_vlans_0 g =? tagged_vlans_0 ifc
  then [forward_to g frame frame_size]
  else if untagged_vlan g =? tagged_vlans_0 ifc
  then [forward_to g
          (untagged_frame header (take frame_size frame) frame_size)
          (frame_size - 4)]
  else [].

Definition parse_tagged_frame (ifc : Interface) (frame : list Z)
    (frame_size : nat) (header : EthernetHeader) : list Emission :=
  if negb (untagged_vlan ifc =? NO_VLAN) then []
  else gifc ≫= parse_tagged_frame_step ifc frame frame_size header.

(** One iteration of the [for] loop of [parse_untagged_frame] on
    [gifc[i] = g]: the memory of the two arrays after it, and what it
    sends.  [forward_to] reads the [frame_size + 4] bytes from the address
    of [tagged_frame] on. *)
Definition parse_untagged_frame_step (ifc : Interface) (frame : list Z)
    (frame_size : nat) (header : EthernetHeader) (mem : list Z)
    (g : Interface) : list Z * list Emission :=
  if ifc_num g =? ifc_num ifc then (mem, [])
  else if untagged_vlan g =? untagged_vlan ifc
  then (mem, [forward_to g frame frame_size])
  else if (tagged_vlans_0 g =? untagged_vlan ifc)
          && negb (ifc_num g =? ifc_num ifc)
  then
    let mem' := tagged_frame header mem frame_size in
    (mem', [forward_to g mem' (frame_size + 4)])
  else (mem, []).

(** The [for] loop of [parse_untagged_frame] over the interfaces [l],
    with the memory of the two arrays as it stands. *)
Fixpoint parse_untagged_frame_loop (ifc : Interface) (frame : list Z)
    (frame_size : nat) (header : EthernetHeader) (mem : list Z)
    (l : list Interface) : list Emission :=
  match l with
  | [] => []
  | g :: l' =>
      let '(mem', out) :=
        parse_untagged_frame_step ifc frame frame_size header mem g in
      out ++ parse_untagged_frame_loop ifc frame frame_size header mem' l'
  end.

(** [parse_untagged_frame]: [byte_frame] is filled by
    [memcpy (byte_frame, frame, frame_size)]; the block of [tagged_frame]
    holds what the stack held, of which no byte is sent before it is
    stored. *)
Definition parse_untagged_frame (ifc : Interface) (frame : list Z)
    (frame_size : nat) (header : EthernetHeader) : list Emission :=
  parse_untagged_frame_loop ifc frame frame_size header
    (replicate (vla_block (frame_size - 12)) 0 ++ take frame_size frame)
    gifc.

(** The lazy initialisation at the head of [parse_frame]. *)
Definition table_ready (lt : LookupTable) : LookupTable :=
  if nbr_position lt =? 0 then lookup_table_init lt else lt.

(** [parse_frame]: the learning table after the call and the frames
    written, for a frame of [frame_size = length frame] bytes received on
    [ifc].  [found_interface] is a local that is read only after
    [search_lookup_table] has filled it. *)
Definition parse_frame (lt : LookupTable) (ifc : Interface)
    (frame : list Z) : LookupTable * list Emission :=
  let frame_size := length frame in
  let lt := table_ready lt in
  if (frame_size <? 14)%nat then (lt, [])
  else
    let header :=
      mkEthernetHeader (mac_copy frame) (mac_copy (drop 6 frame))
                       (cell_at frame 12, cell_at frame 13) in
    let src_addr := mac_copy (src header) in
    let dst_addr := mac_copy (dst header) in
    if negb (Z.land (cell_at src_addr 0) 1 =? 0) then (lt, [])
    else
      let lkp_entry :=
        mkInterface src_addr (ifc_num ifc) [] [] 0 in
      let lt := snd (save_to_table lt lkp_entry) in
      let '(noMacFound, found_interface) :=
        if Z.land (cell_at dst_addr 0) 1 =? 0
        then search_lookup_table lt dst_addr zero_Interface
        else (-1, zero_Interface) in
      let ethertype := Z.land (ntohs (tag header)) 0xFFFF in
      if noMacFound =? -1 then
        if ethertype =? ETH_802_1Q_TAG
        then (lt, parse_tagged_frame ifc frame frame_size header)
        else if negb (untagged_vlan ifc =? NO_VLAN)
        then (lt, parse_untagged_frame ifc frame frame_size header)
        else (lt, [])
      else (lt, [forward_to found_interface frame frame_size]).

(** [handle_frame]: [None] says that the call has no result.  For
    [interface > num_ifc] that is the [abort ()] of the source.  For
    [interface = 0] the source has no test and reads [gifc[-1]], which is
    outside the array: the embedding gives no result there either, and
    the theorems about runs are stated for runs that have a result, so
    none says what the switch does in that case.  The driver loop never
    passes interface 0 (type 0 is the control channel), and [interface]
    is a [uint16_t], so never negative. *)
Definition handle_frame (lt : LookupTable) (interface : Z)
    (frame : list Z) : option (LookupTable * list Emission) :=
  if (interface >? Z.of_nat (length gifc)) || (interface <=? 0) then None
  else Some (parse_frame lt (slot gifc (Z.to_nat (interface - 1))) frame).

(** The driver loop on a sequence of received frames
    [(interface, frame)]: the table at the end and every emission, in
    order. *)
Fixpoint handle_frames (lt : LookupTable) (inputs : list (Z * list Z))
    : option (LookupTable * list Emission) :=
  match inputs with
  | [] => Some (lt, [])
  | (interface, frame) :: rest =>
      match handle_frame lt interface frame with
      | None => None
      | Some (lt', out) =>
          match handle_frames lt' rest with
          | None => None
          | Some (lt'', out') => Some (lt'', out ++ out')
          end
      end
  end.

End Engine.

(** ** The port specification parser *)

Definition set_ifc_name (n : cstring) (ifc : Interface) : Interface :=
  mkInterface (mac ifc) (ifc_num ifc) n (tagged_vlans ifc)
              (untagged_vlan ifc).

Definition set_tagged_vlans (l : list Z) (ifc : Interface) : Interface :=
  mkInterface (mac ifc) (ifc_num ifc) (ifc_name ifc) l (untagged_vlan ifc).

Definition set_untagged_vlan (v : Z) (ifc : Interface) : Interface :=
  mkInterface (mac ifc) (ifc_num ifc) (ifc_name ifc) (tagged_vlans ifc) v.

(** [arr[i] = v] on an array kept as its written prefix: a store behind
    the prefix lengthens it, the skipped cells being the zeroes they are in
    memory. *)
Definition array_store (arr : list Z) (i : nat) (v : Z) : list Z :=
  if (i <? length arr)%nat then <[i := v]> arr
  else arr ++ replicate (i - length arr) 0 ++ [v].

(** *** The C library functions the parser calls *)

(** [*s] for a [char *] into a string: the character [s] points to, NUL
    at the end of the string. *)
Definition deref (s : cstring) : ascii := default "000"%char (head s).

(** [strchr (s, c)] for [c] other than NUL: the offset of the first [c] in
    [s], [None] for [NULL]. *)
Fixpoint strchr (s : cstring) (c : ascii) : option nat :=
  match s with
  | [] => None
  | x :: s' => if decide (x = c) then Some O else S <$> strchr s' c
  end.

(** [strndup (s, n)]. *)
Definition strndup (s : cstring) (n : nat) : cstring := take n s.

(** The tokens that [strtok (spec, d)] and the following [strtok (NULL, d)]
    calls return, in order, for a one-character delimiter: the maximal
    non-empty runs of other characters.  [tok] is the token being read,
    last character first. *)
Fixpoint strtok_all (d : ascii) (s : cstring) (tok : cstring)
    : list cstring :=
  match s with
  | [] => match tok with [] => [] | _ => [reverse tok] end
  | c :: s' =>
      if decide (c = d)
      then match tok with
           | [] => strtok_all d s' []
           | _ => reverse tok :: strtok_all d s' []
           end
      else strtok_all d s' (c :: tok)
  end.

(** [isspace] in the C locale. *)
Definition isspace (c : ascii) : bool :=
  let n := nat_of_ascii c in
  (n =? 32)%nat || ((9 <=? n)%nat && (n <=? 13)%nat).

Definition digit_of (c : ascii) : option Z :=
  let n := nat_of_ascii c in
  if (48 <=? n)%nat && (n <=? 57)%nat then Some (Z.of_nat n - 48) else None.

(** The decimal digits at the head of [s]: [None] when there is none. *)
Fixpoint scan_digits (s : cstring) (acc : Z) (seen : bool) : option Z :=
  match s with
  | c :: s' =>
      match digit_of c with
      | Some d => scan_digits s' (acc * 10 + d) true
      | None => if seen then Some acc else None
      end
  | [] => if seen then Some acc else None
  end.

Fixpoint skip_space (s : cstring) : cstring :=
  match s with
  | c :: s' => if isspace c then skip_space s' else s
  | [] => []
  end.

(** [sscanf (s, "%u", &tag)]: [Some tag] when it returns 1.  White space is
    skipped, a sign is accepted, the digits are read as [strtoul] reads
    them and the result is stored in an [unsigned int]: above
    [ULONG_MAX = 2^64 - 1] the value saturates, a minus sign negates
    modulo [2^64], and the store keeps the low 32 bits (glibc, LP64; ISO C
    leaves the conversion of a number that does not fit undefined). *)
Definition sscanf_u (s : cstring) : option Z :=
  let store (neg : bool) (v : Z) : Z :=
    if v >? 2 ^ 64 - 1 then 2 ^ 32 - 1
    else (if neg then - v else v) `mod` 2 ^ 32 in
  let s := skip_space s in
  if decide (deref s = "+"%char)
  then store false <$> scan_digits (drop 1 s) 0 false
  else if decide (deref s = "-"%char)
  then store true <$> scan_digits (drop 1 s) 0 false
  else store false <$> scan_digits s 0 false.

(** *** The parser *)

(** The [for] loop of [parse_tagged] over the tokens, with [pos] and the
    interface as they stand: the return code if the loop returns, and
    [pos] and the interface at that point. *)
Fixpoint parse_tagged_loop (toks : list cstring) (pos : nat)
    (ifc : Interface) : option Z * nat * Interface :=
  match toks with
  | [] => (None, pos, ifc)
  | tok :: toks' =>
      if Z.of_nat pos =? MAX_VLANS then (Some 1, pos, ifc)
      else
        match sscanf_u tok with
        | None => (Some 1, pos, ifc)
        | Some tag =>
            if tag >? MAX_VLANS then (Some 1, pos, ifc)
            else parse_tagged_loop toks' (S pos)
                   (set_tagged_vlans
                      (array_store (tagged_vlans ifc) pos tag) ifc)
        end
  end.

(** [parse_tagged (start, end, off, ifc)]: [start] is the text from the
    pointer [start] on, [end_] the offset of [end] from [start].  The
    result is the return code and [*ifc] on return. *)
Definition parse_tagged (start : cstring) (end_ : nat) (ifc : Interface)
    : Z * Interface :=
  if decide (":"%char ≠ deref start) then (1, ifc)
  else
    let start' := drop 1 start in
    let spec := strndup start' (end_ - 1) in
    match parse_tagged_loop (strtok_all ","%char spec []) 0 ifc with
    | (Some r, _, ifc') => (r, ifc')
    | (None, pos, ifc') =>
        (0, set_tagged_vlans
              (array_store (tagged_vlans ifc') pos NO_VLAN) ifc')
    end.

(** [parse_untagged (start, end, off, ifc)], with the same conventions. *)
Definition parse_untagged (start : cstring) (end_ : nat) (ifc : Interface)
    : Z * Interface :=
  if decide (":"%char ≠ deref start) then (1, ifc)
  else
    let start' := drop 1 start in
    let spec := strndup start' (end_ - 1) in
    match sscanf_u spec with
    | None => (1, ifc)
    | Some tag =>
        if tag >? MAX_VLANS then (1, ifc)
        else (0, set_untagged_vlan tag ifc)
    end.

(** [parse_vlan_args (arg, off, ifc)]: the return code and [*ifc] on
    return.  [openbracket] is the text behind the ['['] and [closebracket]
    the offset of the [']'] in it.  ([strdup] and [strndup] are taken to
    succeed.) *)
Definition parse_vlan_args (arg : cstring) (ifc : Interface)
    : Z * Interface :=
  let ifc :=
    set_untagged_vlan NO_VLAN
      (set_tagged_vlans (array_store (tagged_vlans ifc) 0 NO_VLAN) ifc) in
  match strchr arg "["%char with
  | None => (0, set_untagged_vlan DEFAULT_VLAN (set_ifc_name arg ifc))
  | Some k =>
      let ifc := set_ifc_name (strndup arg k) ifc in
      let openbracket := drop (S k) arg in
      match strchr openbracket "]"%char with
      | None => (1, ifc)
      | Some closebracket =>
          if decide (deref openbracket = "T"%char)
          then parse_tagged (drop 1 openbracket) (closebracket - 1) ifc
          else if decide (deref openbracket = "U"%char)
          then parse_untagged (drop 1 openbracket) (closebracket - 1) ifc
          else (1, ifc)
      end
  end.

(** The configuration loop of [main] on [argv[1..]]: [inl 1] when a
    specification is refused ([return 1], the exit code), else the
    interfaces handed to the driver loop.  [i] is the index of the first
    argument of [args]; [ifc_num] is a [uint16_t]. *)
Fixpoint main_ifcs (args : list cstring) (i : Z) : Z + list Interface :=
  match args with
  | [] => inr []
  | arg :: args' =>
      match parse_vlan_args arg (set_ifc_num (i `mod` 65536) zero_Interface) with
      | (0, ifc) =>
          match main_ifcs args' (i + 1) with
          | inl r => inl r
          | inr l => inr (ifc :: l)
          end
      | _ => inl 1
      end
  end.

Definition main (args : list cstring) : Z + list Interface :=
  main_ifcs args 1.

(** ** Vocabulary of the specification, in terms of the code *)

(** The learning table whose storage is complete and initialised: what
    [lookup_table_init] establishes and [save_to_table] keeps. *)
Definition lt_wf (lt : LookupTable) : Prop :=
  length (table lt) = Z.to_nat NBR_ENTRIES
  ∧ nbr_position lt = NBR_ENTRIES
  ∧ 0 ≤ current_position lt < NBR_ENTRIES.

(** [learn (mac, port)]: [save_to_table] on the entry that [parse_frame]
    builds, [struct Interface lkp_entry = {src_addr, ifc->ifc_num}]. *)
Definition learn (lt : LookupTable) (M : MacAddress) (p : Z) : LookupTable :=
  snd (save_to_table lt (mkInterface M p [] [] 0)).

(** [lookup (mac)] of the specification: the port that
    [search_lookup_table] reports, if any. *)
Definition lookup_mac (lt : LookupTable) (M : MacAddress) : option Z :=
  let '(pos, found) := search_lookup_table lt M zero_Interface in
  if pos =? -1 then None else Some (ifc_num found).

(** The slot [e] stores the address [M]: its six address bytes are the
    bytes of [M], and its port is not [IF_NO_INIT], the mark of a slot
    that [lookup_table_init] has emptied. *)
Definition stores (e : Interface) (M : MacAddress) : Prop :=
  (∀ j, (j < 6)%nat → cell_at (mac e) j = cell_at M j)
  ∧ ifc_num e ≠ IF_NO_INIT.

(** Fields of a frame on the wire. *)
Definition frame_dst (frame : list Z) : MacAddress := mac_copy frame.
Definition frame_src (frame : list Z) : MacAddress := mac_copy (drop 6 frame).

(** The 2-byte field at offset 12 equals 0x8100. *)
Definition has_qtag (frame : list Z) : bool :=
  Z.land (ntohs (cell_at frame 12, cell_at frame 13)) 0xFFFF
  =? ETH_802_1Q_TAG.

(** The VLAN ID of the TCI at offset 14: its low 12 bits. *)
Definition tci_vid (frame : list Z) : Z :=
  Z.land (ntohs (cell_at frame 14, cell_at frame 15)) 0xFFF.

(** The multicast bit: low bit of the first byte of the address. *)
Definition multicast_bit (m : MacAddress) : Z := Z.land (cell_at m 0) 1.

(** The VLANs of [tagged_vlans], up to the [NO_VLAN] terminator. *)
Fixpoint vlans_upto_terminator (l : list Z) : list Z :=
  match l with
  | [] => []
  | v :: l' => if v =? NO_VLAN then [] else v :: vlans_upto_terminator l'
  end.

Definition tagged_member (ifc : Interface) (v : Z) : bool :=
  bool_decide (v ∈ vlans_upto_terminator (tagged_vlans ifc)).

Definition untagged_member (ifc : Interface) (v : Z) : bool :=
  negb (untagged_vlan ifc =? NO_VLAN) && (untagged_vlan ifc =? v).

(** The egress set of VLAN [v] for ingress port [p_in]: the other ports
    that participate in [v]. *)
Definition egress_set (gifc : list Interface) (p_in : Interface) (v : Z)
    : list Z :=
  ifc_num <$>
    filter (λ g, ifc_num g ≠ ifc_num p_in
                 ∧ (tagged_member g v || untagged_member g v) = true) gifc.

(** An interface as [main] configures it from its specification, with the
    number [n]. *)
Definition port (n : Z) (spec : string) : Interface :=
  snd (parse_vlan_args (cstr spec) (set_ifc_num n zero_Interface)).

(** *** The PORTSPEC grammar *)

(** The fields of [s] between the separators [d], empty ones included. *)
Fixpoint fields (d : ascii) (s : cstring) : list cstring :=
  match s with
  | [] => [[]]
  | c :: s' =>
      if decide (c = d) then [] :: fields d s'
      else match fields d s' with
           | f :: fs => (c :: f) :: fs
           | [] => [[c]]
           end
  end.

(** Modelled from the spec: [VID := decimal integer in 0..4092]. *)
Definition is_digit (c : ascii) : bool := bool_decide (is_Some (digit_of c)).

Definition spec_VID (s : cstring) : bool :=
  match s with
  | [] => false
  | _ => forallb is_digit s
         && bool_decide (default 0 (scan_digits s 0 false) ≤ 4092)
  end.

(** Modelled from the spec: [MEMBERSHIP := 'T' ':' VIDLIST | 'U' ':' VID]
    with [VIDLIST := VID (',' VID)*]. *)
Definition spec_MEMBERSHIP (s : cstring) : bool :=
  match s with
  | l :: c :: rest =>
      if decide (l = "T"%char ∧ c = ":"%char)
      then forallb spec_VID (fields ","%char rest)
      else if decide (l = "U"%char ∧ c = ":"%char)
      then spec_VID rest
      else false
  | _ => false
  end.

(** Modelled from the spec: [PORTSPEC := NAME | NAME '[' MEMBERSHIP ']']
    with [NAME] a non-empty string that has no ['[']. *)
Definition spec_PORTSPEC (s : cstring) : bool :=
  match strchr s "["%char with
  | None => bool_decide (s ≠ [])
  | Some k =>
      bool_decide (k ≠ O)
      && match reverse (drop (S k) s) with
         | c :: m => bool_decide (c = "]"%char) && spec_MEMBERSHIP (reverse m)
         | [] => false
         end
  end.

(** *** The text of a VID, as the specification reads it *)

(** The value of a decimal numeral. *)
Definition digit_value (c : ascii) : Z := Z.of_nat (nat_of_ascii c) - 48.

Definition decimal (ds : cstring) : Z :=
  foldl (λ acc c, acc * 10 + digit_value c) 0 ds.

(** A numeral: one decimal digit or more. *)
Definition numeral (ds : cstring) : Prop :=
  ds ≠ [] ∧ Forall (λ c, is_digit c = true) ds.

Definition blank (ws : cstring) : Prop := Forall (λ c, isspace c = true) ws.

Definition digit_first (s : cstring) : Prop :=
  ∃ c s', s = c :: s' ∧ is_digit c = true.

(** The sign in front of a number: none, ['+'] or ['-']. *)
Inductive vid_sign : cstring → Prop :=
  | sign_none : vid_sign []
  | sign_plus : vid_sign ["+"%char]
  | sign_minus : vid_sign ["-"%char].

(** The text begins with a number: white space, a sign, a numeral, and
    whatever follows. *)
Definition has_number (tok : cstring) : Prop :=
  ∃ ws sign ds rest,
    tok = ws ++ sign ++ ds ++ rest ∧ blank ws ∧ vid_sign sign ∧ numeral ds.

(** The number that the text begins with: its sign and all its digits. *)
Definition vid_number (tok sign ds : cstring) : Prop :=
  ∃ ws rest,
    tok = ws ++ sign ++ ds ++ rest ∧ blank ws ∧ vid_sign sign ∧ numeral ds
    ∧ ¬ digit_first rest.

(** The VID texts of a list: its non-empty fields between commas. *)
Definition vid_fields (vids : cstring) : list cstring :=
  filter (λ f, f ≠ []) (fields ","%char vids).

(** The causes of refusal that lie in the text of one VID: it does not
    begin with a number, or the number has no minus sign and is greater
    than 4092 and less than [2^32]. *)
Inductive vid_cause (tok : cstring) : Prop :=
  | vid_not_a_number : ¬ has_number tok → vid_cause tok
  | vid_too_large sign ds :
      vid_number tok sign ds → sign ≠ ["-"%char] →
      MAX_VLANS < decimal ds < 2 ^ 32 → vid_cause tok.

(** The VID texts about which nothing is stated: a number with a minus
    sign, or a number of [2^32] or more. *)
Definition vid_open (tok : cstring) : Prop :=
  ∃ sign ds, vid_number tok sign ds
             ∧ (sign = ["-"%char] ∨ 2 ^ 32 ≤ decimal ds).

(** The causes of refusal of a port specification. *)
Inductive listed_cause : cstring → Prop :=
  | cause_unclosed name rest :
      "["%char ∉ name → "]"%char ∉ rest →
      listed_cause (name ++ "["%char :: rest)
  | cause_letter name body tail :
      "["%char ∉ name → "]"%char ∉ body →
      (∀ b, body ≠ "T"%char :: b) → (∀ b, body ≠ "U"%char :: b) →
      listed_cause (name ++ "["%char :: body ++ "]"%char :: tail)
  | cause_colon name l body tail :
      "["%char ∉ name → "]"%char ∉ body →
      l = "T"%char ∨ l = "U"%char → (∀ b, body ≠ ":"%char :: b) →
      listed_cause (name ++ "["%char :: l :: body ++ "]"%char :: tail)
  | cause_untagged name vid tail :
      "["%char ∉ name → "]"%char ∉ vid →
      vid_cause vid →
      listed_cause
        (name ++ "["%char :: "U"%char :: ":"%char :: vid ++ "]"%char :: tail)
  | cause_tagged name vids tail tok :
      "["%char ∉ name → "]"%char ∉ vids →
      tok ∈ vid_fields vids → vid_cause tok →
      listed_cause
        (name ++ "["%char :: "T"%char :: ":"%char :: vids ++ "]"%char :: tail)
  | cause_too_many name vids tail :
      "["%char ∉ name → "]"%char ∉ vids →
      Z.of_nat (length (vid_fields vids)) > MAX_VLANS →
      listed_cause
        (name ++ "["%char :: "T"%char :: ":"%char :: vids ++ "]"%char :: tail).

(** The specifications with a VID text of [vid_open]. *)
Inductive left_open : cstring → Prop :=
  | open_untagged name vid tail :
      "["%char ∉ name → "]"%char ∉ vid →
      vid_open vid →
      left_open
        (name ++ "["%char :: "U"%char :: ":"%char :: vid ++ "]"%char :: tail)
  | open_tagged name vids tail tok :
      "["%char ∉ name → "]"%char ∉ vids →
      tok ∈ vid_fields vids → vid_open tok →
      left_open
        (name ++ "["%char :: "T"%char :: ":"%char :: vids ++ "]"%char :: tail).

(** *** The refusals through what [sscanf] returns, for the proofs *)

Definition vid_refused (tok : cstring) : Prop :=
  sscanf_u tok = None ∨ ∃ v, sscanf_u tok = Some v ∧ v > MAX_VLANS.

Inductive spec_refused : cstring → Prop :=
  | refused_unclosed name rest :
      "["%char ∉ name → "]"%char ∉ rest →
      spec_refused (name ++ "["%char :: rest)
  | refused_letter name body tail :
      "["%char ∉ name → "]"%char ∉ body →
      (∀ b, body ≠ "T"%char :: b) → (∀ b, body ≠ "U"%char :: b) →
      spec_refused (name ++ "["%char :: body ++ "]"%char :: tail)
  | refused_colon name l body tail :
      "["%char ∉ name → "]"%char ∉ body →
      l = "T"%char ∨ l = "U"%char → (∀ b, body ≠ ":"%char :: b) →
      spec_refused (name ++ "["%char :: l :: body ++ "]"%char :: tail)
  | refused_untagged name vid tail :
      "["%char ∉ name → "]"%char ∉ vid →
      vid_refused vid →
      spec_refused
        (name ++ "["%char :: "U"%char :: ":"%char :: vid ++ "]"%char :: tail)
  | refused_tagged name vids tail tok :
      "["%char ∉ name → "]"%char ∉ vids →
      tok ∈ strtok_all ","%char vids [] → vid_refused tok →
      spec_refused
        (name ++ "["%char :: "T"%char :: ":"%char :: vids ++ "]"%char :: tail)
  | refused_too_many name vids tail :
      "["%char ∉ name → "]"%char ∉ vids →
      (Z.of_nat (length (strtok_all ","%char vids [])) > MAX_VLANS) →
      spec_refused
        (name ++ "["%char :: "T"%char :: ":"%char :: vids ++ "]"%char :: tail).

(** ** Auxiliary notions of the proofs *)

(** A slot that [search_lookup_table] reports for [M]: the address
    compares equal and the port is not the sentinel. *)
Definition hit (M : MacAddress) (e : Interface) : bool :=
  mac_match (mac e) M && negb (ifc_num e =? IF_NO_INIT).

(** The two outcomes of the search loop run from index [i] for [n]
    iterations: no slot in range is a hit, or [k] is the first one. *)
Inductive search_result (tbl : list Interface) (M : MacAddress)
    (f : Interface) (i n : nat) : Z * Interface → Prop :=
  | search_miss :
      (∀ k, (i ≤ k < i + n)%nat → hit M (slot tbl k) = false) →
      search_result tbl M f i n (-1, f)
  | search_hit k :
      (i ≤ k < i + n)%nat →
      hit M (slot tbl k) = true →
      (∀ j, (i ≤ j < k)%nat → hit M (slot tbl j) = false) →
      search_result tbl M f i n
        (Z.of_nat k,
         set_mac (mac_copy (mac (slot tbl k)))
                 (set_ifc_num (ifc_num (slot tbl k)) f)).

(** Storage of the table is complete, and the table is either untouched
    since start-up or initialised. *)
Definition lt_boot_or_wf (lt : LookupTable) : Prop :=
  length (table lt) = Z.to_nat NBR_ENTRIES ∧ (nbr_position lt = 0 ∨ lt_wf lt).

(** Every slot that a search can report holds an address of [S]. *)
Definition slots_from (S : list MacAddress) (lt : LookupTable) : Prop :=
  ∀ k, (k < Z.to_nat (nbr_position lt))%nat →
       ifc_num (slot (table lt) k) ≠ IF_NO_INIT →
       mac (slot (table lt) k) ∈ S.

(** The frame passes the length check and the source check of
    [parse_frame]. *)
Definition learns (frame : list Z) : bool :=
  (14 <=? length frame)%nat && (multicast_bit (frame_src frame) =? 0).

(** The [header] that [parse_frame] copies out of the frame. *)
Definition header_of (frame : list Z) : EthernetHeader :=
  mkEthernetHeader (mac_copy frame) (mac_copy (drop 6 frame))
                   (cell_at frame 12, cell_at frame 13).

(** The destination lookup of [parse_frame]: made for a unicast
    destination only. *)
Definition dst_lookup (lt : LookupTable) (frame : list Z) : option Z :=
  if multicast_bit (frame_dst frame) =? 0 then lookup_mac lt (frame_dst frame)
  else None.

(** The source addresses that a sequence of received frames makes the
    switch learn. *)
Fixpoint learnt_srcs (inputs : list (Z * list Z)) : list MacAddress :=
  match inputs with
  | [] => []
  | (_, frame) :: rest =>
      if learns frame then frame_src frame :: learnt_srcs rest
      else learnt_srcs rest
  end.

(** [*ifc] after the first two stores of [parse_vlan_args]. *)
Definition reset_vlans (ifc : Interface) : Interface :=
  set_untagged_vlan NO_VLAN
    (set_tagged_vlans (array_store (tagged_vlans ifc) 0 NO_VLAN) ifc).

(** The results of [parse_tagged] and [parse_untagged] on the text between
    the colon and the closing bracket. *)
Definition tagged_result (vids : cstring) (ifc : Interface) : Z * Interface :=
  match parse_tagged_loop (strtok_all ","%char vids []) 0 ifc with
  | (Some r, _, ifc') => (r, ifc')
  | (None, pos, ifc') =>
      (0, set_tagged_vlans
            (array_store (tagged_vlans ifc') pos NO_VLAN) ifc')
  end.

Definition untagged_result (vid : cstring) (ifc : Interface) : Z * Interface :=
  match sscanf_u vid with
  | None => (1, ifc)
  | Some tag =>
      if tag >? MAX_VLANS then (1, ifc) else (0, set_untagged_vlan tag ifc)
  end.

(** ** Example configurations and frames *)

Module Examples.
Definition mac_A : MacAddress := [0x00; 0x11; 0x22; 0xAA; 0xBB; 0xCC].
Definition mac_B : MacAddress := [0x00; 0xAA; 0x88; 0x66; 0x44; 0x22].

(** Untagged frames: addresses, EtherType 0x0800, four payload bytes. *)
Definition untagged_A_to_B : list Z :=
  mac_B ++ mac_A ++ [0x08; 0x00; 1; 2; 3; 4].
Definition untagged_B_to_A : list Z :=
  mac_A ++ mac_B ++ [0x08; 0x00; 5; 6; 7; 8].
Definition untagged_A_to_A : list Z :=
  mac_A ++ mac_A ++ [0x08; 0x00; 1; 2; 3; 4].

(** An untagged frame of 60 bytes, the least that Ethernet sends:
    addresses, EtherType 0x0800 and the payload bytes 1, 2, ..., 46. *)
Definition untagged_A_to_B_60 : list Z :=
  mac_B ++ mac_A ++ [0x08; 0x00] ++ (Z.of_nat <$> seq 1 46).

(** Tagged frames with TCI [0x00 vid]. *)
Definition tagged_A_to_B (vid : Z) : list Z :=
  mac_B ++ mac_A ++ [0x81; 0x00; 0x00; vid; 0x08; 0x00; 1; 2; 3; 4].
Definition tagged_B_to_A (vid : Z) : list Z :=
  mac_A ++ mac_B ++ [0x81; 0x00; 0x00; vid; 0x08; 0x00; 5; 6; 7; 8].

(** A frame of 14 bytes whose field at offset 12 is 0x8100. *)
Definition short_tagged_A_to_B : list Z := mac_B ++ mac_A ++ [0x81; 0x00].

(** A frame of 13 bytes. *)
Definition runt_A_to_B : list Z := mac_B ++ mac_A ++ [0x08].

(** A frame whose source address has the multicast bit set. *)
Definition from_multicast : list Z :=
  mac_B ++ [0x01; 0x00; 0x5E; 0x00; 0x00; 0x01] ++ [0x08; 0x00; 1; 2; 3; 4].

Definition ports_U2_T2 : list Interface :=
  [port 1 "p1[U:2]"; port 2 "p2[T:2]"].
Definition ports_U1_T1 : list Interface :=
  [port 1 "p1[U:1]"; port 2 "p2[T:1]"].
Definition ports_U1_U2 : list Interface :=
  [port 1 "p1[U:1]"; port 2 "p2[U:2]"].
Definition ports_T1_T1 : list Interface :=
  [port 1 "p1[T:1]"; port 2 "p2[T:1]"].
Definition ports_T1_U1 : list Interface :=
  [port 1 "p1[T:1]"; port 2 "p2[U:1]"].
Definition ports_default : list Interface := [port 1 "p1"; port 2 "p2"].
Definition ports_U1_T1_T1 : list Interface :=
  [port 1 "p1[U:1]"; port 2 "p2[T:1]"; port 3 "p3[T:1]"].
Definition ports_T12_T1_T2_U2 : list Interface :=
  [port 1 "p1[T:1,2]"; port 2 "p2[T:1]"; port 3 "p3[T:2]"; port 4 "p4[U:2]"].
Definition ports_T_U1_T1_U0 : list Interface :=
  [port 1 "p1[T:]"; port 2 "p2[U:1]"; port 3 "p3[T:1]"; port 4 "p4"].

(** The table after a first frame from A on interface 1. *)
Definition table_A_at_1 : LookupTable :=
  learn (lookup_table_init lookupTable0) mac_A 1.

(** The frames of [generate_frames] in [test-vswitch.c]: twelve address
    bytes, the tag 81 00 00 01 in the tagged one, and 512 payload bytes
    (here the bytes 0, 1, ..., 255, 0, ...). *)
Definition test_payload : list Z := (λ i, Z.of_nat i `mod` 256) <$> seq 0 512.
Definition test_UTFrame : list Z := mac_A ++ mac_B ++ test_payload.
Definition test_TFrame : list Z :=
  mac_A ++ mac_B ++ [0x81; 0x00; 0x00; 0x01] ++ test_payload.

(** The interfaces of the tests [remove_tag] and of [add_tag],
    [send_incorrect]. *)
Definition test_ports_remove : list Interface :=
  [port 1 "eth0[T:1]"; port 2 "eth1[U:1]"; port 3 "eth2[U:2]";
   port 4 "eth3[U:3]"].
Definition test_ports_add : list Interface :=
  [port 1 "eth0[U:1]"; port 2 "eth1[T:1]"; port 3 "eth2[U:2]";
   port 4 "eth3[U:3]"].

(** A specification with [n] tagged VLANs, all 1. *)
Definition spec_with_vlans (n : nat) : cstring :=
  cstr "p1[T:" ++ concat (replicate n (cstr "1,")) ++ cstr "]".
End Examples.

(** ** The learning table over a run *)

(** No two slots that a search can report hold the same address. *)
Definition slots_unique (lt : LookupTable) : Prop :=
  ∀ M i j, (i < Z.to_nat (nbr_position lt))%nat →
           (j < Z.to_nat (nbr_position lt))%nat →
           hit M (slot (table lt) i) = true →
           hit M (slot (table lt) j) = true → i = j.

(** Every slot that a search can report holds the port that [a] gives for
    its address. *)
Definition slots_fresh (a : MacAddress → option Z) (lt : LookupTable) : Prop :=
  ∀ k, (k < Z.to_nat (nbr_position lt))%nat →
       ifc_num (slot (table lt) k) ≠ IF_NO_INIT →
       a (mac (slot (table lt) k)) = Some (ifc_num (slot (table lt) k)).

(** Every port that a search can report is the number of an interface. *)
Definition slots_ports (gifc : list Interface) (lt : LookupTable) : Prop :=
  ∀ k, (k < Z.to_nat (nbr_position lt))%nat →
       ifc_num (slot (table lt) k) ≠ IF_NO_INIT →
       ifc_num (slot (table lt) k) ∈ ifc_num <$> gifc.

(** The interface number on which the last frame of [inputs] that was
    learnt with a source address equal to [M] arrived; [acc] stands for the
    frames before [inputs]. *)
Fixpoint last_seen (gifc : list Interface) (inputs : list (Z * list Z))
    (M : MacAddress) (acc : option Z) : option Z :=
  match inputs with
  | [] => acc
  | (interface, frame) :: rest =>
      last_seen gifc rest M
        (if learns frame && mac_match (frame_src frame) M
         then Some (ifc_num (slot gifc (Z.to_nat (interface - 1))))
         else acc)
  end.

(** [learn] on a sequence of addresses and ports, in order. *)
Definition learn_all (lt : LookupTable) (l : list (MacAddress * Z))
    : LookupTable :=
  foldl (λ t Mp, learn t Mp.1 Mp.2) lt l.

(** ** Interfaces compared *)

(** The fields that the parser never stores to. *)
Definition same_port (a b : Interface) : Prop :=
  mac a = mac b ∧ ifc_num a = ifc_num b.

(** Interfaces that differ in their [mac] and [ifc_name] at most. *)
Definition same_vlans (g g' : Interface) : Prop :=
  ifc_num g' = ifc_num g
  ∧ tagged_vlans g' = tagged_vlans g
  ∧ untagged_vlan g' = untagged_vlan g.

(** ** The driver protocol: [forward_to], [loop], [write_all] *)

(** [UINT16_MAX], the size of the buffer of [loop]. *)
Definition UINT16_MAX : Z := 65535.

(** [htons] of a value converted to [uint16_t]: its two bytes in network
    order. *)
Definition htons (v : Z) : list Z := [(v `mod` 65536) / 256; v `mod` 256].

(** A [uint16_t] field of a [struct GLAB_MessageHeader] that lies at offset
    [i] of [buf], after [ntohs]. *)
Definition header_field (buf : list Z) (i : nat) : Z :=
  Z.land (ntohs (cell_at buf i, cell_at buf (S i))) 0xFFFF.

(** The array [iob] that [forward_to] passes to [write_all]: the header
    with [size = htons (sizeof (iob))] and [type = htons (dst->ifc_num)],
    then [frame_size] bytes of the frame. *)
Definition forward_to_iob (dst : Interface) (frame : list Z)
    (frame_size : nat) : list Z :=
  htons (Z.of_nat (frame_size + 4)) ++ htons (ifc_num dst)
  ++ take frame_size frame.

(** The bytes on the wire of an emission. *)
Definition wire (e : Emission) : list Z :=
  htons (Z.of_nat (length (em_frame e) + 4)) ++ htons (em_port e)
  ++ em_frame e.

(** [handle_mac]: [gifc[ifc_num - 1].mac = *mac], [None] is [abort ()].
    [loop] calls it with numbers from 1 on. *)
Definition handle_mac (gifc : list Interface) (n : Z) (m : MacAddress)
    : option (list Interface) :=
  if n >? Z.of_nat (length gifc) then None
  else Some (<[Z.to_nat (n - 1) :=
                 set_mac (mac_copy m) (slot gifc (Z.to_nat (n - 1)))]> gifc).

(** The [for] loop of [loop] on the first control message: [mh (i + 1,
    &mac)] with the six bytes at offset [6 * i] of the payload, for [n]
    iterations from [i]. *)
Fixpoint handle_macs (gifc : list Interface) (payload : list Z) (i n : nat)
    : option (list Interface) :=
  match n with
  | O => Some gifc
  | S n' =>
      match handle_mac gifc (Z.of_nat i + 1) (drop (6 * i) payload) with
      | None => None
      | Some gifc' => handle_macs gifc' payload (S i) n'
      end
  end.

(** What [loop] and the handlers keep between two messages: [gifc], the
    global [lookupTable] and [have_mac]. *)
Record LoopState : Type := mkLoopState {
  ls_gifc : list Interface;
  ls_table : LookupTable;
  have_mac : bool
}.

(** The [switch] of [loop] on a complete message: [None] is [abort ()].
    [handle_control] stores a NUL in the last byte of the message, which
    is dropped from the buffer next, and prints to [stderr]. *)
Definition dispatch (st : LoopState) (type : Z) (payload : list Z)
    : option (LoopState * list Emission) :=
  if type =? 0 then
    if have_mac st then Some (st, [])
    else
      match handle_macs (ls_gifc st) payload 0 (length payload / 6)%nat with
      | None => None
      | Some gifc' => Some (mkLoopState gifc' (ls_table st) true, [])
      end
  else
    match handle_frame (ls_gifc st) (ls_table st) type payload with
    | None => None
    | Some (lt', out) => Some (mkLoopState (ls_gifc st) lt' (have_mac st), out)
    end.

(** The inner [while] of [loop] on the [off = length buf] bytes of [buf]:
    the state, the bytes left in [buf] and the emissions when it is left;
    [None] is [abort ()].  Every iteration drops at least four bytes, so
    [length buf] iterations are enough. *)
Fixpoint drain (fuel : nat) (st : LoopState) (buf : list Z)
    : option (LoopState * list Z * list Emission) :=
  match fuel with
  | O => Some (st, buf, [])
  | S fuel' =>
      if (length buf <=? 4)%nat then Some (st, buf, [])
      else
        let size := Z.to_nat (header_field buf 0) in
        if (length buf <? size)%nat then Some (st, buf, [])
        else if (size <? 4)%nat then None
        else
          match dispatch st (header_field buf 2)
                  (take (size - 4) (drop 4 buf)) with
          | None => None
          | Some (st', out) =>
              match drain fuel' st' (drop size buf) with
              | None => None
              | Some (st'', buf', out') => Some (st'', buf', out ++ out')
              end
          end
  end.

Definition drain_all (st : LoopState) (buf : list Z)
    : option (LoopState * list Z * list Emission) :=
  drain (length buf) st buf.

(** The outer [while] of [loop].  [input] is what the driver sends and
    [sched] says how many bytes each call of [read] finds: the call
    returns that many, but no more than asked for and no more than are
    left; 0 stands for the end of the input or an error, where [loop]
    returns. *)
Fixpoint loop_from (sched : list nat) (st : LoopState) (buf input : list Z)
    : option (LoopState * list Emission) :=
  match sched with
  | [] => Some (st, [])
  | k :: sched' =>
      let ret :=
        (k `min` ((Z.to_nat UINT16_MAX - length buf) `min` length input))%nat
      in
      if (ret =? 0)%nat then Some (st, [])
      else
        match drain_all st (buf ++ take ret input) with
        | None => None
        | Some (st', buf', out) =>
            match loop_from sched' st' buf' (drop ret input) with
            | None => None
            | Some (st'', out') => Some (st'', out ++ out')
            end
        end
  end.

(** [loop (&handle_frame, &handle_control, &handle_mac)] as [main] calls
    it. *)
Definition loop (gifc : list Interface) (sched : list nat) (input : list Z)
    : option (LoopState * list Emission) :=
  loop_from sched (mkLoopState gifc lookupTable0 false) [] input.

(** The buffer holds no complete message. *)
Definition waiting (buf : list Z) : Prop :=
  (length buf ≤ 4)%nat ∨ (length buf < Z.to_nat (header_field buf 0))%nat.

(** An emission that the envelope of the driver protocol can carry and
    that [loop] hands to [handle_frame]. *)
Definition deliverable (e : Emission) : Prop :=
  0 < em_port e < 65536
  ∧ em_frame e ≠ []
  ∧ Z.of_nat (length (em_frame e)) + 4 ≤ UINT16_MAX.

(** The received frame [(interface, frame)] that an emission on the wire
    is for the switch that reads it. *)
Definition received (e : Emission) : Z * list Z := (em_port e, em_frame e).

(** How a call of [write_all] ends: everything written, [exit (1)], or the
    calls of [write] that the model was given are used up. *)
Inductive WriteEnd : Type := Written | Exited | Pending.

(** [write_all (fd, buf, buf_size)] from offset [off], for
    [buf_size = length cbuf]: the bytes that reach [fd] and how the call
    ends.  [rets] are the values that the calls of [write] return, each
    for the first [ret] bytes it was given; [write] returns no more than
    the count it was asked for. *)
Fixpoint write_all (rets : list Z) (cbuf : list Z) (off : nat)
    : list Z * WriteEnd :=
  if (off <? length cbuf)%nat then
    match rets with
    | [] => ([], Pending)
    | r :: rets' =>
        let ret := Z.min r (Z.of_nat (length cbuf - off)) in
        if ret <=? 0 then ([], Exited)
        else
          let '(written, e) := write_all rets' cbuf (off + Z.to_nat ret) in
          (take (Z.to_nat ret) (drop off cbuf) ++ written, e)
    end
  else ([], Written).

(** ** Further example data *)

Module Scenarios.
Import Examples.
(** Eight stations, all heard on interface 1, and the table that has learnt
    them in order: it is full and its cursor is back on the first. *)
Definition station (n : Z) : MacAddress := [0x02; 0; 0; 0; 0; n].
Definition eight_stations : list (MacAddress * Z) :=
  (λ n, (station (Z.of_nat n), 1)) <$> seq 1 8.
Definition full_table : LookupTable :=
  learn_all (table_ready lookupTable0) eight_stations.

(** A broadcast from A. *)
Definition broadcast_from_A : list Z :=
  [0xFF; 0xFF; 0xFF; 0xFF; 0xFF; 0xFF] ++ mac_A ++ [0x08; 0x00; 1; 2; 3; 4].

(** The frame from A to B as the driver sends it for interface 1. *)
Definition A_to_B_on_1 : Emission := mkEmission 1 untagged_A_to_B.

(** The driver loop before the first message, for two default ports. *)
Definition loop_start : LoopState :=
  mkLoopState ports_default lookupTable0 false.
End Scenarios.

(** * Verification *)

Import Examples.

Lemma search_loop_spec tbl M f n : ∀ i,
  search_result tbl M f i n (search_loop tbl M f i n).
Proof.
  induction n as [|n IH]; intros i; simpl.
  - apply search_miss. intros k Hk. lia.
  - fold (hit M (slot tbl i)).
    destruct (hit M (slot tbl i)) eqn:Hi.
    + apply search_hit; [lia | done | intros j Hj; lia].
    + destruct (IH (S i)) as [Hmiss | k Hk Hhit Hfirst].
      * apply search_miss. intros k Hk.
        destruct (decide (k = i)) as [-> | Hne]; [done | apply Hmiss; lia].
      * apply search_hit; [lia | done |].
        intros j Hj. destruct (decide (j = i)) as [-> | Hne]; [done | apply Hfirst; lia].
Qed.

Lemma cell_at_mac_copy M j : (j < 6)%nat → cell_at (mac_copy M) j = cell_at M j.
Proof.
  intros Hj. unfold mac_copy, cell_at at 1.
  rewrite list_lookup_fmap, lookup_seq_lt by lia. done.
Qed.

Lemma mac_match_spec a b :
  mac_match a b = true ↔ mac_copy a = mac_copy b.
Proof.
  unfold mac_match, mac_copy. simpl. rewrite !andb_true_iff, !Z.eqb_eq.
  split; [intros (-> & -> & -> & -> & -> & -> & _); done|].
  intros H; injection H; auto 10.
Qed.

Lemma mac_copy_idemp M : mac_copy (mac_copy M) = mac_copy M.
Proof. reflexivity. Qed.

Lemma mac_copy_length M : length (mac_copy M) = 6%nat.
Proof. reflexivity. Qed.

Lemma mac_copy_id M : length M = 6%nat → mac_copy M = M.
Proof.
  intros H. do 7 (destruct M as [|? M]; try discriminate). reflexivity.
Qed.

Lemma slot_lookup tbl i e : tbl !! i = Some e → slot tbl i = e.
Proof. unfold slot. by intros ->. Qed.

Lemma slot_lt tbl i : (i < length tbl)%nat → tbl !! i = Some (slot tbl i).
Proof.
  intros H. destruct (lookup_lt_is_Some_2 tbl i H) as [e He].
  by rewrite (slot_lookup _ _ _ He).
Qed.

(** What [lookup_mac] answers, read off the slots. *)
Lemma lookup_mac_None lt M :
  lookup_mac lt M = None ↔
  ∀ k, (k < Z.to_nat (nbr_position lt))%nat → hit M (slot (table lt) k) = false.
Proof.
  unfold lookup_mac, search_lookup_table.
  destruct (search_loop_spec (table lt) M zero_Interface
              (Z.to_nat (nbr_position lt)) 0) as [Hmiss | k Hk Hhit Hfirst].
  - simpl. split; [intros _ k Hk; apply Hmiss; lia | done].
  - destruct (Z.eqb_spec (Z.of_nat k) (-1)); [lia|].
    split; [done|]. intros H. rewrite H in Hhit by lia. done.
Qed.

Lemma lookup_mac_Some lt M p :
  lookup_mac lt M = Some p ↔
  ∃ k, (k < Z.to_nat (nbr_position lt))%nat
       ∧ hit M (slot (table lt) k) = true
       ∧ (∀ j, (j < k)%nat → hit M (slot (table lt) j) = false)
       ∧ ifc_num (slot (table lt) k) = p.
Proof.
  unfold lookup_mac, search_lookup_table.
  destruct (search_loop_spec (table lt) M zero_Interface
              (Z.to_nat (nbr_position lt)) 0) as [Hmiss | k Hk Hhit Hfirst].
  - simpl. split; [done|]. intros (k & Hk & Hhit & _).
    rewrite Hmiss in Hhit by lia. done.
  - destruct (Z.eqb_spec (Z.of_nat k) (-1)); [lia|]. simpl. split.
    + intros [= <-]. exists k. split_and!; [lia | done | | done].
      intros j Hj. apply Hfirst. lia.
    + intros (k' & Hk' & Hhit' & Hfirst' & <-).
      destruct (Nat.lt_trichotomy k k') as [Hlt | [-> | Hgt]]; [| done |].
      * rewrite Hfirst' in Hhit by done. done.
      * rewrite Hfirst in Hhit' by lia. done.
Qed.

Lemma save_to_table_found lt new_if k :
  (k < Z.to_nat (nbr_position lt))%nat →
  hit (mac new_if) (slot (table lt) k) = true →
  (∀ j, (j < k)%nat → hit (mac new_if) (slot (table lt) j) = false) →
  save_to_table lt new_if =
    if ifc_num (slot (table lt) k) =? ifc_num new_if then (-1, lt)
    else (0, mkLookupTable
               (<[k := set_ifc_num (ifc_num new_if) (slot (table lt) k)]> (table lt))
               (nbr_position lt) (current_position lt)).
Proof.
  intros Hk Hhit Hfirst. unfold save_to_table, search_lookup_table.
  destruct (search_loop_spec (table lt) (mac new_if) zero_Interface
              (Z.to_nat (nbr_position lt)) 0) as [Hmiss | k' Hk' Hhit' Hfirst'].
  - rewrite Hmiss in Hhit by lia. done.
  - assert (k' = k) as ->.
    { destruct (Nat.lt_trichotomy k k') as [Hlt | [-> | Hgt]]; [| done |].
      - rewrite Hfirst' in Hhit by lia. done.
      - rewrite Hfirst in Hhit' by lia. done. }
    destruct (Z.eqb_spec (-1) (Z.of_nat k)); [lia|]. simpl.
    by rewrite Nat2Z.id.
Qed.

Lemma save_to_table_not_found lt new_if :
  (∀ k, (k < Z.to_nat (nbr_position lt))%nat →
        hit (mac new_if) (slot (table lt) k) = false) →
  save_to_table lt new_if =
    (0, mkLookupTable
          (<[Z.to_nat (current_position lt) :=
               set_mac (mac_copy (mac new_if))
                 (set_ifc_num (ifc_num new_if)
                    (slot (table lt) (Z.to_nat (current_position lt))))]>
             (table lt))
          (nbr_position lt)
          ((current_position lt + 1) `rem` nbr_position lt)).
Proof.
  intros Hall. unfold save_to_table, search_lookup_table.
  destruct (search_loop_spec (table lt) (mac new_if) zero_Interface
              (Z.to_nat (nbr_position lt)) 0) as [Hmiss | k' Hk' Hhit' Hfirst'].
  - done.
  - rewrite Hall in Hhit' by lia. done.
Qed.

(** The three cases on a table that holds A at port 1. *)
Example learn_move_on_change_cases :
  learn table_A_at_1 mac_A 1 = table_A_at_1
  ∧ lookup_mac (learn table_A_at_1 mac_A 2) mac_A = Some 2
  ∧ current_position (learn table_A_at_1 mac_A 2) = 1
  ∧ lookup_mac (learn table_A_at_1 mac_B 2) mac_B = Some 2
  ∧ current_position (learn table_A_at_1 mac_B 2) = 2.
Proof. vm_compute. done. Qed.

Lemma lookup_table_init_slot lt k e :
  table (lookup_table_init lt) !! k = Some e →
  mac e = empty_mac ∧ ifc_num e = IF_NO_INIT.
Proof.
  unfold lookup_table_init. simpl. rewrite list_lookup_fmap.
  destruct (table lt !! k); [|done]. by intros [= <-].
Qed.

Lemma lookup_table_init_wf lt :
  length (table lt) = Z.to_nat NBR_ENTRIES → lt_wf (lookup_table_init lt).
Proof.
  intros H. unfold lt_wf, lookup_table_init. simpl.
  rewrite length_fmap. unfold NBR_ENTRIES in *. lia.
Qed.

Lemma table_ready_wf lt : lt_boot_or_wf lt → lt_wf (table_ready lt).
Proof.
  intros [Hlen [H0 | Hwf]]; unfold table_ready.
  - rewrite H0. simpl. by apply lookup_table_init_wf.
  - destruct Hwf as (? & Hn & ?). rewrite Hn. done.
Qed.

Lemma table_ready_id lt : nbr_position lt ≠ 0 → table_ready lt = lt.
Proof. unfold table_ready. by destruct (Z.eqb_spec (nbr_position lt) 0). Qed.

Lemma save_to_table_wf lt new_if : lt_wf lt → lt_wf (snd (save_to_table lt new_if)).
Proof.
  intros (Hlen & Hnbr & Hcur). unfold save_to_table.
  destruct (search_lookup_table _ _ _) as [pos f].
  destruct (negb _); [destruct (_ =? _)|]; simpl;
    unfold lt_wf; simpl; rewrite ?length_insert; split_and?; try done; try lia.
  - rewrite Hnbr. apply Z.rem_nonneg; unfold NBR_ENTRIES; lia.
  - rewrite Hnbr. rewrite Z.rem_mod_nonneg by (unfold NBR_ENTRIES; lia).
    apply Z.mod_pos_bound. done.
Qed.

Lemma hit_true M e :
  hit M e = true ↔ mac_copy (mac e) = mac_copy M ∧ ifc_num e ≠ IF_NO_INIT.
Proof.
  unfold hit. rewrite andb_true_iff, mac_match_spec, negb_true_iff, Z.eqb_neq.
  done.
Qed.

(** What [search_lookup_table] reports, in terms of the bytes. *)
Lemma mac_copy_eq a b :
  mac_copy a = mac_copy b ↔ ∀ j, (j < 6)%nat → cell_at a j = cell_at b j.
Proof.
  unfold mac_copy. simpl. split.
  - intros [= H0 H1 H2 H3 H4 H5] j Hj.
    do 6 (destruct j as [|j]; [done|]). lia.
  - intros H. by rewrite !H by lia.
Qed.

Lemma hit_stores M e : hit M e = true ↔ stores e M.
Proof. unfold stores. by rewrite hit_true, mac_copy_eq. Qed.

Lemma not_hit_stores M e : hit M e = false ↔ ¬ stores e M.
Proof. by rewrite <- hit_stores, not_true_iff_false. Qed.

(** C6 (move-on-change).  For every initialised table and every address
    [M] (unicast or not), by what the slots hold.  If slot [k] stores [M]
    and no slot before it does (in a run no two slots store the same
    address): with the port [p] in that slot, [learn (M, p)] leaves the
    whole table as it is, slots and cursor; with another port in it,
    [learn (M, p)] rewrites the port of slot [k] and nothing else: the
    address and the other members of that slot, every other slot and the
    cursor stay.  If no slot stores [M], [learn (M, p)] writes [(M, p)]
    into the slot under the cursor, leaves every other slot and moves the
    cursor one on, modulo the capacity. *)
Theorem learn_move_on_change (lt : LookupTable) (M : MacAddress) (p : Z) :
  lt_wf lt → length M = 6%nat →
  (∀ k e,
     table lt !! k = Some e → stores e M →
     (∀ j e', (j < k)%nat → table lt !! j = Some e' → ¬ stores e' M) →
     (ifc_num e = p → learn lt M p = lt)
     ∧ (ifc_num e ≠ p →
        learn lt M p =
          mkLookupTable (<[k := set_ifc_num p e]> (table lt))
                        (nbr_position lt) (current_position lt)
        ∧ table (learn lt M p) !! k
          = Some (mkInterface (mac e) p (ifc_name e) (tagged_vlans e)
                              (untagged_vlan e))
        ∧ (∀ j, j ≠ k → table (learn lt M p) !! j = table lt !! j)
        ∧ current_position (learn lt M p) = current_position lt))
  ∧ ((∀ k e, table lt !! k = Some e → ¬ stores e M) →
     ∃ e, table lt !! Z.to_nat (current_position lt) = Some e
       ∧ learn lt M p =
           mkLookupTable
             (<[Z.to_nat (current_position lt) :=
                  set_mac M (set_ifc_num p e)]> (table lt))
             (nbr_position lt)
             ((current_position lt + 1) `mod` NBR_ENTRIES)
       ∧ table (learn lt M p) !! Z.to_nat (current_position lt)
         = Some (mkInterface M p (ifc_name e) (tagged_vlans e)
                             (untagged_vlan e))
       ∧ (∀ j, j ≠ Z.to_nat (current_position lt) →
               table (learn lt M p) !! j = table lt !! j)
       ∧ current_position (learn lt M p)
         = (current_position lt + 1) `mod` NBR_ENTRIES).
Proof.
  intros (Hlen & Hnbr & Hcur) HM. split.
  - intros k e Hk He Hfirst.
    assert (k < Z.to_nat (nbr_position lt))%nat as Hlt.
    { apply lookup_lt_Some in Hk. rewrite Hnbr. lia. }
    pose proof (slot_lookup _ _ _ Hk) as Hslot.
    assert (learn lt M p =
      if ifc_num e =? p then lt
      else mkLookupTable (<[k := set_ifc_num p e]> (table lt))
                         (nbr_position lt) (current_position lt)) as Heq.
    { unfold learn. rewrite (save_to_table_found _ _ k); simpl.
      - rewrite Hslot. by destruct (_ =? _).
      - done.
      - rewrite Hslot. by apply hit_stores.
      - intros j Hj. apply not_hit_stores.
        apply (Hfirst j); [done|]. apply slot_lt.
        apply lookup_lt_Some in Hk. lia. }
    split; intros Hp.
    + rewrite Heq. by destruct (Z.eqb_spec (ifc_num e) p).
    + rewrite Heq. destruct (Z.eqb_spec (ifc_num e) p); [done|]. simpl.
      split_and!; [done | | | done].
      * rewrite list_lookup_insert_eq; [done|]. by apply lookup_lt_Some in Hk.
      * intros j Hj. by rewrite list_lookup_insert_ne.
  - intros Hnone.
    assert (lookup_mac lt M = None) as Hl.
    { apply lookup_mac_None. intros k Hk. apply not_hit_stores.
      apply (Hnone k). apply slot_lt. rewrite Hnbr in Hk. lia. }
    pose proof (proj1 (lookup_mac_None _ _) Hl) as Hmiss.
    exists (slot (table lt) (Z.to_nat (current_position lt))).
    assert (Z.to_nat (current_position lt) < length (table lt))%nat as Hc by lia.
    split; [by apply slot_lt|].
    unfold learn. rewrite save_to_table_not_found by done. simpl.
    rewrite (mac_copy_id M HM), Hnbr.
    rewrite Z.rem_mod_nonneg by (unfold NBR_ENTRIES; lia).
    split_and!; [done | | | done].
    + by rewrite list_lookup_insert_eq.
    + intros j Hj. by rewrite list_lookup_insert_ne.
Qed.

Lemma table_A_at_1_wf : lt_wf table_A_at_1.
Proof.
  split; [reflexivity|]. split; [reflexivity|]. vm_compute.
  split; [discriminate | reflexivity].
Qed.

Lemma learn_move_on_change_witness :
  learn table_A_at_1 mac_A 1 = table_A_at_1
  ∧ table (learn table_A_at_1 mac_A 2) !! 0%nat
    = Some (mkInterface mac_A 2 [] [] 0)
  ∧ current_position (learn table_A_at_1 mac_A 2) = 1
  ∧ table (learn table_A_at_1 mac_B 2) !! 1%nat
    = Some (mkInterface mac_B 2 [] [] 0)
  ∧ current_position (learn table_A_at_1 mac_B 2) = 2.
Proof.
  assert (table table_A_at_1 !! 0%nat = Some (mkInterface mac_A 1 [] [] 0))
    as H0 by reflexivity.
  assert (stores (mkInterface mac_A 1 [] [] 0) mac_A) as HA
    by (split; [done | discriminate]).
  assert (∀ j e', (j < 0)%nat → table table_A_at_1 !! j = Some e' →
                  ¬ stores e' mac_A) as Hfirst by (intros j e' Hj; lia).
  assert (∀ k e, table table_A_at_1 !! k = Some e → ¬ stores e mac_B) as HB.
  { intros k e Hk [Hb Hp].
    destruct k as [|k].
    - injection Hk as <-. specialize (Hb 1%nat ltac:(lia)). discriminate.
    - do 7 (destruct k as [|k]; [injection Hk as <-; by apply Hp|]).
      discriminate. }
  destruct (learn_move_on_change table_A_at_1 mac_A 1 table_A_at_1_wf eq_refl)
    as [Hsame _].
  destruct (learn_move_on_change table_A_at_1 mac_A 2 table_A_at_1_wf eq_refl)
    as [Hmove _].
  destruct (learn_move_on_change table_A_at_1 mac_B 2 table_A_at_1_wf eq_refl)
    as [_ Hnew].
  destruct (Hsame _ _ H0 HA Hfirst) as [Hs _].
  destruct (Hmove _ _ H0 HA Hfirst) as [_ Hm].
  destruct (Hm ltac:(discriminate)) as (_ & Hm1 & _ & Hm2).
  destruct (Hnew HB) as (e & He & _ & Hn1 & _ & Hn2).
  injection He as <-.
  split; [by apply Hs|]. split; [exact Hm1|]. split; [exact Hm2|].
  split; [exact Hn1 | exact Hn2].
Defined.

Lemma slot_insert tbl i j e :
  (i < length tbl)%nat →
  slot (<[i := e]> tbl) j = if decide (i = j) then e else slot tbl j.
Proof.
  intros Hi. unfold slot. destruct (decide (i = j)) as [-> | Hne].
  - by rewrite list_lookup_insert_eq.
  - by rewrite list_lookup_insert_ne.
Qed.

(** After [learn (M, p)] the table answers [p] for [M]. *)
Lemma lookup_mac_learn lt M p :
  lt_wf lt → p ≠ IF_NO_INIT → lookup_mac (learn lt M p) M = Some p.
Proof.
  intros (Hlen & Hnbr & Hcur) Hp. unfold learn.
  destruct (lookup_mac lt M) as [p'|] eqn:Hl.
  - apply lookup_mac_Some in Hl as (k & Hk & Hhit & Hfirst & Hp').
    rewrite (save_to_table_found _ _ k) by done. simpl.
    assert (k < length (table lt))%nat by (rewrite Hnbr in Hk; lia).
    destruct (Z.eqb_spec (ifc_num (slot (table lt) k)) p) as [Heq | Hne]; simpl.
    + apply lookup_mac_Some. exists k. done.
    + apply lookup_mac_Some. exists k. simpl. split_and!; [done | | | ].
      * rewrite slot_insert, decide_True by done.
        apply hit_true in Hhit as [Hm _]. apply hit_true. done.
      * intros j Hj. rewrite slot_insert, decide_False by lia. by apply Hfirst.
      * rewrite slot_insert, decide_True by done. done.
  - pose proof (proj1 (lookup_mac_None _ _) Hl) as Hmiss.
    rewrite save_to_table_not_found by done. simpl.
    assert (Z.to_nat (current_position lt) < length (table lt))%nat by lia.
    apply lookup_mac_Some. exists (Z.to_nat (current_position lt)). simpl.
    split_and!.
    + rewrite Hnbr. lia.
    + rewrite slot_insert, decide_True by done. apply hit_true. done.
    + intros j Hj. rewrite slot_insert, decide_False by lia.
      apply Hmiss. rewrite Hnbr. lia.
    + rewrite slot_insert, decide_True by done. done.
Qed.

Lemma learn_slots_from S lt M p :
  lt_wf lt → slots_from S lt → slots_from (mac_copy M :: S) (learn lt M p).
Proof.
  intros (Hlen & Hnbr & Hcur) HS. unfold learn.
  destruct (lookup_mac lt M) as [p'|] eqn:Hl.
  - apply lookup_mac_Some in Hl as (k & Hk & Hhit & Hfirst & Hp').
    rewrite (save_to_table_found _ _ k) by done. simpl.
    assert (k < length (table lt))%nat by (rewrite Hnbr in Hk; lia).
    destruct (_ =? _); simpl.
    + intros j Hj Hne. right. by apply HS.
    + intros j Hj. simpl in *. rewrite slot_insert by done.
      destruct (decide (k = j)) as [<- | Hkj]; simpl; intros Hne; right.
      * apply HS; [done|]. by apply hit_true in Hhit as [_ ?].
      * by apply HS.
  - pose proof (proj1 (lookup_mac_None _ _) Hl) as Hmiss.
    rewrite save_to_table_not_found by done. simpl.
    assert (Z.to_nat (current_position lt) < length (table lt))%nat by lia.
    intros j Hj. simpl in *. rewrite slot_insert by done.
    destruct (decide _) as [<- | Hkj]; simpl; intros Hne.
    + left.
    + right. by apply HS.
Qed.

Lemma table_ready_slots_from S lt :
  lt_boot_or_wf lt → slots_from S lt → slots_from S (table_ready lt).
Proof.
  intros [Hlen [H0 | Hwf]] HS; unfold table_ready.
  - rewrite H0. simpl. intros k Hk Hne. exfalso. apply Hne.
    simpl in Hk.
    assert (k < length (table (lookup_table_init lt)))%nat as Hlt.
    { unfold lookup_table_init. simpl. rewrite length_fmap. lia. }
    apply slot_lt in Hlt. by apply lookup_table_init_slot in Hlt as [_ ?].
  - destruct Hwf as (? & Hn & ?). rewrite Hn. done.
Qed.

Section EngineFacts.
Variable gifc : list Interface.

(** [parse_frame] in the vocabulary of the specification. *)
Lemma parse_frame_eq lt ifc frame :
  parse_frame gifc lt ifc frame =
    if negb (learns frame) then (table_ready lt, [])
    else
      let lt' := learn (table_ready lt) (frame_src frame) (ifc_num ifc) in
      match dst_lookup lt' frame with
      | Some q => (lt', [mkEmission q frame])
      | None =>
          if has_qtag frame
          then (lt', parse_tagged_frame gifc ifc frame (length frame)
                       (header_of frame))
          else if negb (untagged_vlan ifc =? NO_VLAN)
          then (lt', parse_untagged_frame gifc ifc frame (length frame)
                       (header_of frame))
          else (lt', [])
      end.
Proof.
  unfold parse_frame, learns, dst_lookup, lookup_mac.
  destruct (Nat.ltb_spec (length frame) 14) as [Hlt | Hge].
  { destruct (Nat.leb_spec 14 (length frame)); [lia | done]. }
  destruct (Nat.leb_spec 14 (length frame)); [|lia].
  cbv zeta. fold (header_of frame). simpl andb.
  change (cell_at (mac_copy (src (header_of frame))) 0)
    with (cell_at (frame_src frame) 0).
  change (cell_at (mac_copy (dst (header_of frame))) 0)
    with (cell_at (frame_dst frame) 0).
  change (mac_copy (src (header_of frame))) with (frame_src frame).
  change (mac_copy (dst (header_of frame))) with (frame_dst frame).
  fold (multicast_bit (frame_src frame)).
  fold (multicast_bit (frame_dst frame)).
  destruct (multicast_bit (frame_src frame) =? 0); [|done]. simpl negb.
  fold (learn (table_ready lt) (frame_src frame) (ifc_num ifc)).
  change (Z.land (ntohs (tag (header_of frame))) 65535 =? ETH_802_1Q_TAG)
    with (has_qtag frame).
  destruct (multicast_bit (frame_dst frame) =? 0).
  - destruct (search_lookup_table _ _ _) as [pos found].
    destruct (pos =? -1); [done|].
    unfold forward_to. by rewrite firstn_all.
  - done.
Qed.

Lemma parse_frame_table lt ifc frame :
  fst (parse_frame gifc lt ifc frame) =
    if learns frame
    then learn (table_ready lt) (frame_src frame) (ifc_num ifc)
    else table_ready lt.
Proof.
  rewrite parse_frame_eq. destruct (learns frame); [|done]. simpl.
  destruct (dst_lookup _ _); [done|].
  destruct (has_qtag frame); [done|]. by destruct (negb _).
Qed.

Lemma parse_frame_boot_or_wf lt ifc frame :
  lt_boot_or_wf lt → lt_wf (fst (parse_frame gifc lt ifc frame)).
Proof.
  intros H. rewrite parse_frame_table. destruct (learns frame).
  - apply save_to_table_wf. by apply table_ready_wf.
  - by apply table_ready_wf.
Qed.

Lemma lt_wf_boot_or_wf lt : lt_wf lt → lt_boot_or_wf lt.
Proof. intros H. split; [apply H | by right]. Qed.

Lemma slots_from_mono S S' lt : S ⊆ S' → slots_from S lt → slots_from S' lt.
Proof. intros HS H k Hk Hne. apply HS. by apply H. Qed.

(** Every slot that a search can report after a run of the switch holds
    a source address that the run learnt. *)
Lemma parse_frame_slots_from S lt ifc frame :
  lt_boot_or_wf lt → slots_from S lt →
  slots_from (S ++ learnt_srcs [(0, frame)])
             (fst (parse_frame gifc lt ifc frame)).
Proof.
  intros Hwf HS. rewrite parse_frame_table. cbn [learnt_srcs].
  destruct (learns frame).
  - eapply slots_from_mono;
      [| apply (learn_slots_from S); [by apply table_ready_wf|
           by apply table_ready_slots_from]].
    unfold frame_src at 1. rewrite mac_copy_idemp. fold (frame_src frame).
    intros x. rewrite elem_of_cons, elem_of_app, list_elem_of_singleton.
    tauto.
  - rewrite app_nil_r. by apply table_ready_slots_from.
Qed.

(** Every slot that a search can report after a run of the switch holds
    a source address that the run learnt. *)
Lemma handle_frames_slots_from inputs : ∀ lt lt' out S,
  lt_boot_or_wf lt → slots_from S lt →
  handle_frames gifc lt inputs = Some (lt', out) →
  lt_boot_or_wf lt' ∧ slots_from (S ++ learnt_srcs inputs) lt'.
Proof.
  induction inputs as [|[q fr] inputs IH]; intros lt lt' out S Hwf HS.
  - intros [= <- <-]. split; [done|]. simpl. by rewrite app_nil_r.
  - cbn [handle_frames]. unfold handle_frame. destruct (_ || _); [done|].
    set (ifc := slot gifc _).
    pose proof (parse_frame_boot_or_wf lt ifc fr Hwf) as Hwf1.
    pose proof (parse_frame_slots_from S lt ifc fr Hwf HS) as HS1.
    destruct (parse_frame gifc lt ifc fr) as [lt1 out1].
    destruct (handle_frames gifc lt1 inputs) as [[lt2 out2]|] eqn:Hrest;
      [|done].
    intros [= <- <-]. cbn [fst] in *.
    destruct (IH lt1 lt2 out2 _ (lt_wf_boot_or_wf _ Hwf1) HS1 Hrest)
      as [Hwf2 HS2].
    split; [done|].
    eapply slots_from_mono; [|exact HS2].
    cbn [learnt_srcs]. intros x.
    destruct (learns fr); rewrite !elem_of_app; [|rewrite elem_of_nil; tauto].
    rewrite list_elem_of_singleton, elem_of_cons. tauto.
Qed.

Lemma elem_of_learnt_srcs M inputs :
  M ∈ learnt_srcs inputs →
  ∃ q frame, (q, frame) ∈ inputs ∧ learns frame = true ∧ M = frame_src frame.
Proof.
  induction inputs as [|[q fr] inputs IH]; cbn [learnt_srcs].
  - by intros ?%elem_of_nil.
  - destruct (learns fr) eqn:Hl.
    + intros [-> | Hin]%elem_of_cons.
      * exists q, fr. split_and!; [left | done | done].
      * destruct (IH Hin) as (q' & fr' & ? & ? & ?).
        exists q', fr'. split_and!; [by right | done | done].
    + intros Hin. destruct (IH Hin) as (q' & fr' & ? & ? & ?).
      exists q', fr'. split_and!; [by right | done | done].
Qed.

Lemma lookupTable0_boot : lt_boot_or_wf lookupTable0.
Proof. split; [done | by left]. Qed.

Lemma lookupTable0_slots_from : slots_from [] lookupTable0.
Proof. intros k Hk. simpl in Hk. lia. Qed.

(** C10 (no match on a slot that was never written).  In the state
    reached from start-up by any sequence of frames: [lookup_table_init]
    leaves the all-zero address and the sentinel [IF_NO_INIT] in every
    slot; [search_lookup_table] returns a position only for a slot whose
    port is not the sentinel, and that slot holds the source address of a
    frame of the sequence that was learnt; hence, as long as no learnt
    frame had the all-zero source address, looking that address up
    finds nothing. *)
Theorem lookup_reports_learnt_only inputs lt out :
  handle_frames gifc lookupTable0 inputs = Some (lt, out) →
  (∀ lt0 k e, table (lookup_table_init lt0) !! k = Some e →
              mac e = empty_mac ∧ ifc_num e = IF_NO_INIT)
  ∧ (∀ M f pos found,
       search_lookup_table lt M f = (pos, found) → pos ≠ -1 →
       ifc_num (slot (table lt) (Z.to_nat pos)) ≠ IF_NO_INIT
       ∧ ∃ q frame, (q, frame) ∈ inputs ∧ learns frame = true
                    ∧ mac_match (frame_src frame) M = true)
  ∧ ((∀ q frame, (q, frame) ∈ inputs → learns frame = true →
                 frame_src frame ≠ empty_mac) →
     lookup_mac lt empty_mac = None).
Proof.
  intros Hrun.
  destruct (handle_frames_slots_from inputs _ _ _ []
              lookupTable0_boot lookupTable0_slots_from Hrun) as [Hwf HS].
  rewrite app_nil_l in HS.
  assert (∀ M k, (k < Z.to_nat (nbr_position lt))%nat →
            hit M (slot (table lt) k) = true →
            ∃ q frame, (q, frame) ∈ inputs ∧ learns frame = true
                       ∧ mac_match (frame_src frame) M = true) as Hlearnt.
  { intros M k Hk [Hm Hne]%hit_true.
    destruct (elem_of_learnt_srcs _ _ (HS k Hk Hne)) as (q & fr & ? & ? & Hfr).
    exists q, fr. split_and!; [done | done |].
    apply mac_match_spec. by rewrite <- Hfr. }
  split_and!.
  - apply lookup_table_init_slot.
  - intros M f pos found Hs Hpos. unfold search_lookup_table in Hs.
    destruct (search_loop_spec (table lt) M f
                (Z.to_nat (nbr_position lt)) 0) as [Hmiss | k Hk Hhit _];
      injection Hs as <- <-; [done|].
    rewrite Nat2Z.id. split.
    + by apply hit_true in Hhit as [_ ?].
    + apply (Hlearnt M k); [lia | done].
  - intros Hnz. destruct (lookup_mac lt empty_mac) as [p|] eqn:Hl; [|done].
    apply lookup_mac_Some in Hl as (k & Hk & Hhit & _).
    destruct (Hlearnt _ k Hk Hhit) as (q & fr & Hin & Hlearns & Hm).
    exfalso. apply (Hnz q fr Hin Hlearns).
    apply mac_match_spec in Hm. exact Hm.
Qed.
End EngineFacts.

Lemma lookup_reports_learnt_only_witness :
  handle_frames ports_default lookupTable0 [(1, untagged_A_to_B)]
  = Some (table_A_at_1, [mkEmission 2 untagged_A_to_B])
  ∧ lookup_mac table_A_at_1 empty_mac = None.
Proof.
  assert (handle_frames ports_default lookupTable0 [(1, untagged_A_to_B)]
          = Some (table_A_at_1, [mkEmission 2 untagged_A_to_B])) as Hrun
    by (vm_compute; reflexivity).
  split; [exact Hrun|].
  apply (proj2 (proj2 (lookup_reports_learnt_only ports_default _ _ _ Hrun))).
  intros q frame Hin _.
  apply list_elem_of_singleton in Hin. injection Hin as -> ->. discriminate.
Defined.

Section Buffers.
Implicit Types (buf : list Z) (g : nat → Z).

Lemma cell_at_lookup buf i x : buf !! i = Some x → cell_at buf i = x.
Proof. unfold cell_at. by intros ->. Qed.

Lemma cell_at_lt buf i : (i < length buf)%nat → buf !! i = Some (cell_at buf i).
Proof.
  intros H. destruct (lookup_lt_is_Some_2 buf i H) as [x Hx].
  by rewrite (cell_at_lookup _ _ _ Hx).
Qed.

(** A copy loop [for (i = a; i < a + k; i++) buf[i + c] = g i]. *)
Lemma copy_loop_length g c k : ∀ a buf,
  length (foldl (λ b i, <[(i + c)%nat := g i]> b) buf (seq a k)) = length buf.
Proof.
  induction k as [|k IH]; intros a buf; [done|].
  simpl. by rewrite IH, length_insert.
Qed.

Lemma copy_loop_lookup g c a k : ∀ buf j,
  foldl (λ b i, <[(i + c)%nat := g i]> b) buf (seq a k) !! j =
    if decide ((a + c ≤ j < a + k + c)%nat ∧ (j < length buf)%nat)
    then Some (g (j - c)%nat) else buf !! j.
Proof.
  induction k as [|k IH]; intros buf j.
  - simpl. destruct (decide _); [lia | done].
  - rewrite seq_S, foldl_app. simpl.
    rewrite list_lookup_insert, copy_loop_length, IH.
    repeat destruct (decide _); try lia; try done.
    do 2 f_equal. lia.
Qed.

(** The loop that copies the two addresses of the header. *)
Lemma header_loop_length (d s : MacAddress) buf :
  length (foldl (λ b i, <[(6 + i)%nat := cell_at s i]> (<[i := cell_at d i]> b))
                buf (seq 0 6)) = length buf.
Proof. simpl. by rewrite !length_insert. Qed.

Lemma header_loop_lookup (d s : MacAddress) buf j :
  foldl (λ b i, <[(6 + i)%nat := cell_at s i]> (<[i := cell_at d i]> b))
        buf (seq 0 6) !! j =
    if decide ((j < 12)%nat ∧ (j < length buf)%nat)
    then Some (cell_at (mac_copy d ++ mac_copy s) j) else buf !! j.
Proof.
  simpl. rewrite !list_lookup_insert, !length_insert.
  do 12 (destruct j as [|j]; [repeat destruct (decide _); try lia; done|]).
  repeat destruct (decide _); try lia; done.
Qed.

(** The loop that copies the four bytes of the 802.1Q tag. *)
Lemma tag_loop_length buf :
  length (foldl (λ b i, <[(12 + i)%nat := cell_at Q_tag_bytes i]> b)
                buf (seq 0 4)) = length buf.
Proof. simpl. by rewrite !length_insert. Qed.

Lemma tag_loop_lookup buf j :
  foldl (λ b i, <[(12 + i)%nat := cell_at Q_tag_bytes i]> b)
        buf (seq 0 4) !! j =
    if decide ((12 ≤ j < 16)%nat ∧ (j < length buf)%nat)
    then Some (cell_at Q_tag_bytes (j - 12)) else buf !! j.
Proof.
  simpl. rewrite !list_lookup_insert, !length_insert.
  do 16 (destruct j as [|j]; [repeat destruct (decide _); try lia; done|]).
  repeat destruct (decide _); try lia; done.
Qed.
End Buffers.

(** The blocks of the variable-length arrays. *)
Lemma vla_block_bounds n : (n ≤ vla_block n < n + 16)%nat.
Proof.
  unfold vla_block.
  pose proof (Nat.div_mod (n + 15) 16 ltac:(lia)).
  pose proof (Nat.mod_upper_bound (n + 15) 16 ltac:(lia)). lia.
Qed.

Lemma vla_block_ge_16 n : (0 < n)%nat → (16 ≤ vla_block n)%nat.
Proof.
  intros H. unfold vla_block.
  assert (1 ≤ (n + 15) / 16)%nat; [|lia].
  apply Nat.div_le_lower_bound; lia.
Qed.

(** The sizes of [tag_safe], by the remainder of the declared size. *)
Lemma tag_safe_iff frame_size :
  (12 ≤ frame_size)%nat →
  tag_safe frame_size ↔ (1 ≤ (frame_size - 12) `mod` 16 ≤ 12)%nat.
Proof.
  intros Hn. unfold tag_safe, vla_block.
  set (m := (frame_size - 12)%nat).
  replace frame_size with (m + 12)%nat by (unfold m; lia).
  pose proof (Nat.div_mod m 16 ltac:(lia)) as Hm.
  pose proof (Nat.mod_upper_bound m 16 ltac:(lia)) as Hr.
  set (q := (m / 16)%nat) in *. set (r := (m `mod` 16)%nat) in *.
  destruct (decide (r = 0)%nat) as [Hr0 | Hr0].
  - assert ((m + 15) / 16 = q)%nat as ->; [|lia].
    symmetry. apply (Nat.div_unique _ _ _ 15); lia.
  - assert ((m + 15) / 16 = S q)%nat as ->; [|lia].
    symmetry. apply (Nat.div_unique _ _ _ (r - 1)); lia.
Qed.

(** Frames of 60 bytes (the least size of Ethernet), of 524 bytes (the
    untagged frame of [test-vswitch.c]) and of 1514 bytes (the greatest
    size) are not [tag_safe]; those of 18, 61 and 64 bytes are. *)
Example tag_safe_sizes :
  ¬ tag_safe 60 ∧ ¬ tag_safe 524 ∧ ¬ tag_safe 1514
  ∧ tag_safe 18 ∧ tag_safe 61 ∧ tag_safe 64.
Proof. rewrite !tag_safe_iff by lia. vm_compute. lia. Qed.

Lemma cell_at_ext (b b' : list Z) i j :
  b !! i = b' !! j → cell_at b i = cell_at b' j.
Proof. unfold cell_at. by intros ->. Qed.

(** A copy loop that reads the buffer it stores to, behind the cells it has
    stored so far, reads what the buffer held at the start. *)
Lemma self_copy_loop (c r : nat) (a k : nat) (buf : list Z) :
  (c ≤ r)%nat →
  foldl (λ b i, <[(i + c)%nat := cell_at b (r + i)]> b) buf (seq a k)
  = foldl (λ b i, <[(i + c)%nat := cell_at buf (r + i)]> b) buf (seq a k).
Proof.
  intros Hc. induction k as [|k IH]; [done|].
  rewrite seq_S, !foldl_app, IH. simpl. f_equal.
  apply cell_at_ext.
  rewrite (copy_loop_lookup (λ i, cell_at buf (r + i)) c a k).
  rewrite decide_False by lia. done.
Qed.

(** The memory after the stores of [tagged_frame]: the addresses, the tag,
    then the bytes that [byte_frame] held when the loop began, up to offset
    [frame_size + 4], which lies in [byte_frame] itself. *)
Lemma tagged_frame_lookup header mem frame_size j :
  (14 ≤ frame_size)%nat →
  tagged_frame header mem frame_size !! j =
    if decide (j < length mem)%nat then
      if decide (j < 12)%nat
      then Some (cell_at (mac_copy (dst header) ++ mac_copy (src header)) j)
      else if decide (j < 16)%nat
      then Some (cell_at Q_tag_bytes (j - 12))
      else if decide (j < frame_size + 4)%nat
      then Some (cell_at mem (vla_block (frame_size - 12) + (j - 4)))
      else mem !! j
    else None.
Proof.
  intros Hn. unfold tagged_frame. cbv zeta.
  pose proof (vla_block_ge_16 (frame_size - 12) ltac:(lia)) as HR.
  set (R := vla_block (frame_size - 12)) in *.
  rewrite self_copy_loop by lia.
  rewrite (copy_loop_lookup (λ i, cell_at _ (R + i)) 4 12).
  rewrite tag_loop_length, tag_loop_lookup, header_loop_length,
    header_loop_lookup.
  destruct (decide (j < length mem)%nat) as [Hj | Hj].
  2: { repeat destruct (decide _); try lia. by apply lookup_ge_None_2; lia. }
  destruct (decide (j < 12)%nat).
  { repeat destruct (decide _); try lia. done. }
  destruct (decide (j < 16)%nat).
  { repeat destruct (decide _); try lia. done. }
  destruct (decide (j < frame_size + 4)%nat).
  - rewrite decide_True by lia. f_equal. apply cell_at_ext.
    rewrite tag_loop_lookup, header_loop_lookup.
    repeat destruct (decide _); try lia. done.
  - repeat destruct (decide _); try lia. done.
Qed.

Lemma tagged_frame_length header mem frame_size :
  length (tagged_frame header mem frame_size) = length mem.
Proof.
  unfold tagged_frame. cbv zeta.
  assert (∀ (m : list Z) l (r : nat),
    length (foldl (λ b i, <[(i + 4)%nat := cell_at b (r + i)]> b) m l)
    = length m) as Hf.
  { intros m l r. revert m. induction l as [|i l IH]; intros m; [done|].
    simpl. by rewrite IH, length_insert. }
  by rewrite Hf, tag_loop_length, header_loop_length.
Qed.

(** The extent of the buffers: [untagged_frame] is the array, of
    [frame_size - 4] bytes; the stores of [tagged_frame] keep the extent of
    the memory they go to, in which the block of the array has the
    [frame_size - 12] bytes of the declaration and fewer than sixteen more,
    so that the sixteen bytes stored past the declaration reach
    [byte_frame]. *)
Remark frame_buffers_extent header buf frame_size :
  length (untagged_frame header buf frame_size) = (frame_size - 4)%nat
  ∧ length (tagged_frame header buf frame_size) = length buf
  ∧ (frame_size - 12 ≤ vla_block (frame_size - 12)
                     < frame_size - 12 + 16)%nat.
Proof.
  split_and!.
  - unfold untagged_frame.
    assert (∀ (g : nat → Z) (b : list Z) l,
      length (foldl (λ b i, <[i := g i]> b) b l) = length b) as Hf.
    { intros g b l. revert b. induction l as [|i l IH]; intros b; [done|].
      simpl. by rewrite IH, length_insert. }
    by rewrite Hf, header_loop_length, length_replicate.
  - apply tagged_frame_length.
  - apply vla_block_bounds.
  - apply vla_block_bounds.
Qed.

(** The first twelve bytes of a frame are its two addresses. *)
Lemma header_addresses frame j :
  (j < 12)%nat → (12 ≤ length frame)%nat →
  cell_at (mac_copy frame ++ mac_copy (drop 6 frame)) j = cell_at frame j.
Proof.
  intros Hj Hlen. unfold mac_copy. simpl. unfold cell_at at 13.
  do 12 (destruct j as [|j]; [simpl; unfold cell_at; by rewrite ?lookup_drop|]).
  lia.
Qed.

(** The frame that the strip branch of [parse_tagged_frame] sends. *)
Lemma untagged_frame_eq frame :
  (14 ≤ length frame)%nat →
  untagged_frame (header_of frame) (take (length frame) frame) (length frame)
  = take (length frame - 4) (take 12 frame ++ drop 16 frame).
Proof.
  intros Hlen. rewrite firstn_all. set (n := length frame).
  unfold untagged_frame.
  apply list_eq. intros j.
  assert (∀ (g : nat → Z) (b : list Z) l,
    foldl (λ b i, <[i := g i]> b) b l = foldl (λ b i, <[(i + 0)%nat := g i]> b) b l)
    as Hf.
  { intros g b l. revert b. induction l as [|i l IH]; intros b; [done|].
    simpl. by rewrite Nat.add_0_r, IH. }
  rewrite (Hf (λ i, cell_at frame (i + 4))).
  rewrite copy_loop_lookup, header_loop_length, header_loop_lookup.
  rewrite length_replicate. unfold header_of; cbn [dst src].
  destruct (decide (j < n - 4)%nat) as [Hj | Hj].
  - rewrite lookup_take_lt by done.
    destruct (decide (j < 12)%nat) as [Hj12 | Hj12].
    + rewrite decide_False by lia. rewrite decide_True by lia.
      rewrite lookup_app_l by (rewrite length_take; lia).
      rewrite lookup_take_lt by done.
      rewrite !mac_copy_idemp, header_addresses by lia. symmetry. apply cell_at_lt. lia.
    + rewrite decide_True by lia.
      rewrite lookup_app_r by (rewrite length_take; lia).
      rewrite length_take, lookup_drop.
      replace (16 + (j - 12 `min` length frame))%nat with (j - 0 + 4)%nat by lia.
      symmetry. apply cell_at_lt. lia.
  - rewrite lookup_take_ge by lia.
    rewrite decide_False by lia. rewrite decide_False by lia.
    apply lookup_replicate_None. lia.
Qed.

(** The memory of [parse_untagged_frame] before the loop. *)
Lemma byte_frame_intact_start frame :
  byte_frame_intact
    (replicate (vla_block (length frame - 12)) 0 ++ take (length frame) frame)
    frame.
Proof.
  rewrite firstn_all. split.
  - by rewrite length_app, length_replicate.
  - intros i Hi. unfold cell_at.
    rewrite lookup_app_r by (rewrite length_replicate; lia).
    rewrite length_replicate. do 2 f_equal. lia.
Qed.

(** The frame that the tag branch of [parse_untagged_frame] sends while
    [byte_frame] is intact: the frame with the tag behind its addresses. *)
Lemma tagged_frame_sent frame mem :
  (14 ≤ length frame)%nat → byte_frame_intact mem frame →
  take (length frame + 4) (tagged_frame (header_of frame) mem (length frame))
  = take 12 frame ++ Q_tag_bytes ++ drop 12 frame.
Proof.
  intros Hn [Hlen Hint]. set (n := length frame) in *.
  pose proof (vla_block_ge_16 (n - 12) ltac:(lia)) as HR.
  apply list_eq. intros j.
  destruct (decide (j < n + 4)%nat) as [Hj | Hj].
  - rewrite lookup_take_lt by done.
    rewrite tagged_frame_lookup by done.
    rewrite decide_True by lia.
    unfold header_of; cbn [dst src].
    destruct (decide (j < 12)%nat).
    + rewrite lookup_app_l by (rewrite length_take; lia).
      rewrite lookup_take_lt by done.
      rewrite !mac_copy_idemp, header_addresses by lia.
      symmetry. apply cell_at_lt. lia.
    + rewrite lookup_app_r by (rewrite length_take; lia).
      rewrite length_take. replace (12 `min` length frame)%nat with 12%nat by lia.
      destruct (decide (j < 16)%nat).
      * rewrite lookup_app_l by (simpl; lia).
        symmetry. apply cell_at_lt. simpl. lia.
      * rewrite lookup_app_r by (simpl; lia). simpl length.
        rewrite lookup_drop. rewrite decide_True by done.
        rewrite Hint by lia.
        replace (12 + (j - 12 - 4))%nat with (j - 4)%nat by lia.
        symmetry. apply cell_at_lt. lia.
  - rewrite lookup_take_ge by lia. symmetry. apply lookup_ge_None.
    rewrite !length_app, length_take, length_drop.
    change (length Q_tag_bytes) with 4%nat. unfold n in *. lia.
Qed.

(** For the frame sizes of [tag_safe] the stores leave [byte_frame]
    intact; for the others they overwrite [byte_frame[12]]. *)
Lemma tagged_frame_intact frame mem :
  (14 ≤ length frame)%nat → tag_safe (length frame) →
  byte_frame_intact mem frame →
  byte_frame_intact (tagged_frame (header_of frame) mem (length frame)) frame.
Proof.
  intros Hn Hsafe [Hlen Hint]. unfold tag_safe in Hsafe.
  split; [by rewrite tagged_frame_length|].
  intros i Hi. rewrite <- Hint by done. apply cell_at_ext.
  rewrite tagged_frame_lookup by done.
  repeat destruct (decide _); try lia. done.
Qed.

Lemma tagged_frame_overwrites frame mem :
  (14 ≤ length frame)%nat → ¬ tag_safe (length frame) →
  byte_frame_intact mem frame →
  cell_at (tagged_frame (header_of frame) mem (length frame))
          (vla_block (length frame - 12) + 12)
  = cell_at frame (vla_block (length frame - 12) + 8).
Proof.
  intros Hn Hsafe [Hlen Hint]. unfold tag_safe in Hsafe.
  pose proof (vla_block_ge_16 (length frame - 12) ltac:(lia)) as HR.
  pose proof (vla_block_bounds (length frame - 12)) as HB.
  rewrite <- Hint by lia. apply cell_at_ext.
  rewrite tagged_frame_lookup by done.
  repeat destruct (decide _); try lia.
  symmetry. rewrite (cell_at_lt mem) by lia. do 2 f_equal. lia.
Qed.

(** The emissions of the strip branch and of the tag branch. *)
Lemma strip_length (frame : list Z) :
  (14 ≤ length frame)%nat →
  length (take (length frame - 4) (take 12 frame ++ drop 16 frame))
  = (length frame - 4)%nat.
Proof.
  intros H. rewrite length_take, length_app, length_take, length_drop. lia.
Qed.

Lemma strip_payload (frame : list Z) :
  (14 ≤ length frame)%nat →
  drop 14 (take (length frame - 4) (take 12 frame ++ drop 16 frame))
  = drop 18 frame.
Proof.
  intros H. destruct (decide (16 ≤ length frame)%nat) as [H16 | H16].
  - rewrite take_ge by (rewrite length_app, length_take, length_drop; lia).
    rewrite drop_app_ge by (rewrite length_take; lia).
    rewrite length_take, drop_drop. f_equal. lia.
  - rewrite !drop_ge; [done | lia |].
    rewrite length_take, length_app, length_take, length_drop. lia.
Qed.

Lemma tag_payload (frame : list Z) :
  (14 ≤ length frame)%nat →
  drop 18 (take 12 frame ++ Q_tag_bytes ++ drop 12 frame) = drop 14 frame.
Proof.
  intros H. rewrite drop_app_ge by (rewrite length_take; lia).
  rewrite length_take.
  replace (18 - 12 `min` length frame)%nat with (4 + 2)%nat by lia.
  change (drop (4 + 2) (Q_tag_bytes ++ drop 12 frame))
    with (drop 2 (drop 12 frame)).
  by rewrite drop_drop.
Qed.

Lemma tag_has_qtag (frame rest : list Z) :
  (12 ≤ length frame)%nat →
  has_qtag (take 12 frame ++ Q_tag_bytes ++ rest) = true.
Proof.
  intros H. unfold has_qtag, cell_at.
  rewrite (lookup_app_r _ _ 12), (lookup_app_r _ _ 13)
    by (rewrite length_take; lia).
  rewrite length_take.
  replace (12 - 12 `min` length frame)%nat with 0%nat by lia.
  replace (13 - 12 `min` length frame)%nat with 1%nat by lia.
  reflexivity.
Qed.

(** The emissions of the loop of [parse_untagged_frame], port by port,
    whatever the memory holds: which ports, which branch, how many
    bytes. *)
Lemma elem_of_parse_untagged_frame_loop ifc frame frame_size header l :
  ∀ mem e,
  e ∈ parse_untagged_frame_loop ifc frame frame_size header mem l →
  ∃ g, g ∈ l ∧ em_port e = ifc_num g ∧ ifc_num g ≠ ifc_num ifc
    ∧ ((untagged_vlan g = untagged_vlan ifc
        ∧ em_frame e = take frame_size frame)
       ∨ (untagged_vlan g ≠ untagged_vlan ifc
          ∧ tagged_vlans_0 g = untagged_vlan ifc
          ∧ ∃ mem', em_frame e = take (frame_size + 4) mem')).
Proof.
  induction l as [|g l IH]; intros mem e; [by intros ?%elem_of_nil|].
  cbn [parse_untagged_frame_loop]. unfold parse_untagged_frame_step.
  assert (∀ mem',
    e ∈ parse_untagged_frame_loop ifc frame frame_size header mem' l →
    ∃ g0, g0 ∈ g :: l ∧ em_port e = ifc_num g0 ∧ ifc_num g0 ≠ ifc_num ifc
      ∧ ((untagged_vlan g0 = untagged_vlan ifc
          ∧ em_frame e = take frame_size frame)
         ∨ (untagged_vlan g0 ≠ untagged_vlan ifc
            ∧ tagged_vlans_0 g0 = untagged_vlan ifc
            ∧ ∃ mem', em_frame e = take (frame_size + 4) mem'))) as Hrest.
  { intros mem' (g0 & Hin & H)%IH. exists g0. split; [by right | done]. }
  destruct (Z.eqb_spec (ifc_num g) (ifc_num ifc)); [by apply Hrest|].
  destruct (Z.eqb_spec (untagged_vlan g) (untagged_vlan ifc)); simpl.
  { intros [-> | He]%elem_of_cons; [|by eapply Hrest].
    exists g. split; [left|]. simpl. auto. }
  destruct (Z.eqb_spec (tagged_vlans_0 g) (untagged_vlan ifc)); simpl;
    [|by apply Hrest].
  intros [-> | He]%elem_of_cons; [|by eapply Hrest].
  exists g. split; [left|]. simpl. split_and!; try done. right. eauto.
Qed.

(** The ports of the emissions follow the order of the interfaces, each
    interface at most once. *)
Lemma parse_untagged_frame_loop_ports ifc frame frame_size header l :
  ∀ mem,
  (em_port <$> parse_untagged_frame_loop ifc frame frame_size header mem l)
    `sublist_of` (ifc_num <$> l).
Proof.
  induction l as [|g l IH]; intros mem; [done|].
  cbn [parse_untagged_frame_loop]. unfold parse_untagged_frame_step.
  rewrite fmap_cons.
  repeat (destruct (_ =? _)); simpl;
    first [apply sublist_cons, IH | apply sublist_skip, IH].
Qed.

(** With [byte_frame] intact and a frame size of [tag_safe], every
    iteration that tags sends the frame with the tag behind its addresses
    and leaves [byte_frame] intact. *)
Lemma elem_of_parse_untagged_frame_loop_safe ifc frame l :
  (14 ≤ length frame)%nat → tag_safe (length frame) →
  ∀ mem e,
  byte_frame_intact mem frame →
  e ∈ parse_untagged_frame_loop ifc frame (length frame) (header_of frame)
        mem l →
  em_frame e = frame
  ∨ em_frame e = take 12 frame ++ Q_tag_bytes ++ drop 12 frame.
Proof.
  intros Hn Hsafe.
  induction l as [|g l IH]; intros mem e Hint; [by intros ?%elem_of_nil|].
  cbn [parse_untagged_frame_loop]. unfold parse_untagged_frame_step.
  destruct (_ =? _); [by apply IH|].
  destruct (_ =? _); simpl.
  { intros [-> | He]%elem_of_cons; [|by eapply IH].
    left. simpl. by rewrite firstn_all. }
  destruct (_ =? _); simpl; [|by apply IH].
  intros [-> | He]%elem_of_cons.
  - right. simpl. by apply tagged_frame_sent.
  - eapply IH; [|exact He]. by apply tagged_frame_intact.
Qed.

Section Flood.
Variable gifc : list Interface.

Lemma learns_length frame : learns frame = true → (14 ≤ length frame)%nat.
Proof.
  unfold learns. intros [H _]%andb_true_iff. by apply Nat.leb_le in H.
Qed.

(** The emissions of [parse_tagged_frame], port by port. *)
Lemma elem_of_parse_tagged_frame ifc frame e :
  (14 ≤ length frame)%nat →
  e ∈ parse_tagged_frame gifc ifc frame (length frame) (header_of frame) ↔
  untagged_vlan ifc = NO_VLAN
  ∧ ∃ g, g ∈ gifc ∧ em_port e = ifc_num g ∧ ifc_num g ≠ ifc_num ifc
      ∧ ((tagged_vlans_0 g = tagged_vlans_0 ifc ∧ em_frame e = frame)
         ∨ (tagged_vlans_0 g ≠ tagged_vlans_0 ifc
            ∧ untagged_vlan g = tagged_vlans_0 ifc
            ∧ em_frame e =
                take (length frame - 4) (take 12 frame ++ drop 16 frame))).
Proof.
  intros Hlen. unfold parse_tagged_frame.
  destruct (Z.eqb_spec (untagged_vlan ifc) NO_VLAN) as [Hu | Hu]; simpl.
  2: { split; [by intros ?%elem_of_nil | by intros [? _]]. }
  rewrite list_elem_of_bind. split.
  - intros (g & He & Hg). split; [done|]. exists g. split; [done|].
    unfold parse_tagged_frame_step, forward_to in He.
    rewrite untagged_frame_eq, firstn_all in He by done.
    rewrite take_ge in He by (by rewrite strip_length).
    destruct (Z.eqb_spec (ifc_num g) (ifc_num ifc)); [by apply elem_of_nil in He|].
    destruct (Z.eqb_spec (tagged_vlans_0 g) (tagged_vlans_0 ifc)).
    { apply list_elem_of_singleton in He as ->. simpl. auto. }
    destruct (Z.eqb_spec (untagged_vlan g) (tagged_vlans_0 ifc));
      [|by apply elem_of_nil in He].
    apply list_elem_of_singleton in He as ->. simpl. auto 10.
  - intros (_ & g & Hg & Hport & Hne & Hcase). exists g. split; [|done].
    unfold parse_tagged_frame_step, forward_to.
    rewrite untagged_frame_eq, firstn_all by done.
    rewrite take_ge by (by rewrite strip_length).
    destruct (Z.eqb_spec (ifc_num g) (ifc_num ifc)); [done|].
    destruct e as [p f]. simpl in *. subst p.
    destruct Hcase as [[Ht ->] | (Ht & Hu' & ->)].
    + destruct (Z.eqb_spec (tagged_vlans_0 g) (tagged_vlans_0 ifc)); [|done].
      by apply list_elem_of_singleton.
    + destruct (Z.eqb_spec (tagged_vlans_0 g) (tagged_vlans_0 ifc)); [done|].
      destruct (Z.eqb_spec (untagged_vlan g) (tagged_vlans_0 ifc)); [|done].
      by apply list_elem_of_singleton.
Qed.

(** The emissions of [parse_untagged_frame], port by port: which ports get
    the frame as it is and which get the bytes of the tag branch. *)
Lemma elem_of_parse_untagged_frame ifc frame e :
  e ∈ parse_untagged_frame gifc ifc frame (length frame) (header_of frame) →
  ∃ g, g ∈ gifc ∧ em_port e = ifc_num g ∧ ifc_num g ≠ ifc_num ifc
    ∧ ((untagged_vlan g = untagged_vlan ifc ∧ em_frame e = frame)
       ∨ (untagged_vlan g ≠ untagged_vlan ifc
          ∧ tagged_vlans_0 g = untagged_vlan ifc)).
Proof.
  unfold parse_untagged_frame.
  intros (g & Hg & Hp & Hne & Hcase)%elem_of_parse_untagged_frame_loop.
  exists g. split_and!; try done.
  destruct Hcase as [[Hu Hf] | (Hu & Ht & _)]; [left | by right].
  by rewrite firstn_all in Hf.
Qed.

(** Payload preservation, where the code has it.  Every frame that
    [parse_frame] emits for a frame whose size is [tag_safe] is in one of
    three relations with the frame received: it is that frame, byte for
    byte (a tag kept, or an untagged frame passed on); or the frame
    received carries a tag, the emission is four bytes shorter and its
    bytes after the 14-byte header are the bytes after the header and the
    tag of the frame received (tag stripped); or the frame received
    carries no tag, the emission has the 0x8100 field at offset 12 and its
    bytes after header and tag are the bytes after the header of the frame
    received (tag added).  A frame that carries a tag needs no condition on
    its size. *)
Lemma payload_preserved_tag_safe lt ifc frame e :
  has_qtag frame = true ∨ tag_safe (length frame) →
  e ∈ snd (parse_frame gifc lt ifc frame) →
  em_frame e = frame
  ∨ (has_qtag frame = true
     ∧ length (em_frame e) = (length frame - 4)%nat
     ∧ drop 14 (em_frame e) = drop 18 frame)
  ∨ (has_qtag frame = false
     ∧ has_qtag (em_frame e) = true
     ∧ drop 18 (em_frame e) = drop 14 frame).
Proof.
  intros Hsafe. rewrite parse_frame_eq.
  destruct (learns frame) eqn:Hlearns; simpl; [|by intros ?%elem_of_nil].
  apply learns_length in Hlearns.
  destruct (dst_lookup _ _) as [q|]; simpl.
  { intros ->%list_elem_of_singleton. by left. }
  destruct (has_qtag frame) eqn:Htag; simpl.
  - intros (_ & g & _ & _ & _ & [[_ ->] | (_ & _ & ->)])%elem_of_parse_tagged_frame;
      [by left | right; left | done].
    split_and!; [done | by apply strip_length | by apply strip_payload].
  - destruct Hsafe as [? | Hsafe]; [done|].
    destruct (negb _); simpl; [|by intros ?%elem_of_nil].
    unfold parse_untagged_frame.
    intros [-> | ->]%elem_of_parse_untagged_frame_loop_safe;
      [by left | right; right | done | done | apply byte_frame_intact_start].
    split_and!; [done | apply tag_has_qtag; lia | by apply tag_payload].
Qed.
End Flood.

(** C7 (payload preservation).  The claim fails where an untagged frame is
    flooded to two tagged ports and its size is not [tag_safe].  Ports
    [p1[U:1] p2[T:1] p3[T:1]], empty table, on p1 the 60-byte frame
    [untagged_A_to_B_60]: port 2 gets the frame with the tag behind its
    addresses; port 3 gets the same bytes except for the four behind the
    tag, which are bytes 56..59 of the frame received instead of its bytes
    12..15 (EtherType and the first two payload bytes), so the bytes after
    header and tag are not those of the frame received.  The stores of the
    first tagged copy past the end of [tagged_frame[frame_size - 12]] have
    overwritten [byte_frame[0..15]], from which the second copy is made.
    The same happens to the 524-byte untagged frame of [test-vswitch.c],
    and a frame of 61 bytes goes through unharmed. *)
Theorem second_tagged_copy_is_overwritten :
  let p1 := port 1 "p1[U:1]" in
  let f := untagged_A_to_B_60 in
  let t := test_UTFrame in
  snd (parse_frame ports_U1_T1_T1 lookupTable0 p1 f)
  = [mkEmission 2 (take 12 f ++ Q_tag_bytes ++ drop 12 f);
     mkEmission 3 (take 12 f ++ Q_tag_bytes ++ take 4 (drop 56 f) ++ drop 16 f)]
  ∧ take 4 (drop 56 f) = [43; 44; 45; 46]
  ∧ take 4 (drop 12 f) = [0x08; 0x00; 1; 2]
  ∧ drop 18 (take 12 f ++ Q_tag_bytes ++ take 4 (drop 56 f) ++ drop 16 f)
    ≠ drop 14 f
  ∧ snd (parse_frame ports_U1_T1_T1 lookupTable0 p1 t)
    = [mkEmission 2 (take 12 t ++ Q_tag_bytes ++ drop 12 t);
       mkEmission 3 (take 12 t ++ Q_tag_bytes ++ take 4 (drop 520 t)
                       ++ drop 16 t)]
  ∧ take 4 (drop 520 t) ≠ take 4 (drop 12 t)
  ∧ snd (parse_frame ports_U1_T1_T1 lookupTable0 p1 (f ++ [47]))
    = [mkEmission 2 (take 12 f ++ Q_tag_bytes ++ drop 12 f ++ [47]);
       mkEmission 3 (take 12 f ++ Q_tag_bytes ++ drop 12 f ++ [47])].
Proof. vm_compute. split_and!; try done. Qed.

(** The four transformations on the frames of the tests: tag stripped,
    tag added, tag kept, untagged frame passed on. *)
Example transformations :
  snd (parse_frame ports_T1_U1 lookupTable0 (port 1 "p1[T:1]") (tagged_A_to_B 1))
  = [mkEmission 2 untagged_A_to_B]
  ∧ snd (parse_frame ports_U1_T1 lookupTable0 (port 1 "p1[U:1]") untagged_A_to_B)
    = [mkEmission 2 (tagged_A_to_B 1)]
  ∧ snd (parse_frame ports_T1_T1 lookupTable0 (port 1 "p1[T:1]") (tagged_A_to_B 1))
    = [mkEmission 2 (tagged_A_to_B 1)]
  ∧ snd (parse_frame ports_default lookupTable0 (port 1 "p1") untagged_A_to_B)
    = [mkEmission 2 untagged_A_to_B].
Proof. vm_compute. done. Qed.

(** The three tests of [test-vswitch.c]: the tagged frame sent on the
    tagged interface 1 arrives untagged on interface 2 and nowhere else;
    the untagged frame sent on the untagged interface 1 arrives tagged on
    interface 2 and nowhere else; the tagged frame sent on the untagged
    interface 1 arrives nowhere. *)
Example test_vswitch :
  main [cstr "eth0[T:1]"; cstr "eth1[U:1]"; cstr "eth2[U:2]"; cstr "eth3[U:3]"]
  = inr test_ports_remove
  ∧ snd <$> handle_frames test_ports_remove lookupTable0 [(1, test_TFrame)]
    = Some [mkEmission 2 test_UTFrame]
  ∧ snd <$> handle_frames test_ports_add lookupTable0 [(1, test_UTFrame)]
    = Some [mkEmission 2 test_TFrame]
  ∧ snd <$> handle_frames test_ports_add lookupTable0 [(1, test_TFrame)]
    = Some [].
Proof. vm_compute. done. Qed.

Section Claims.
Variable gifc : list Interface.

Lemma table_ready_lookup_mac lt M :
  lt_boot_or_wf lt → lookup_mac (table_ready lt) M = lookup_mac lt M.
Proof.
  intros [Hlen [H0 | Hwf]].
  - unfold table_ready. rewrite H0. simpl.
    transitivity (@None Z); [|symmetry]; apply lookup_mac_None.
    + intros k Hk. simpl in Hk.
      assert (k < length (table (lookup_table_init lt)))%nat as Hlt.
      { unfold lookup_table_init. simpl. rewrite length_fmap. lia. }
      apply slot_lt in Hlt. apply lookup_table_init_slot in Hlt as [_ Hs].
      unfold hit. rewrite Hs. by rewrite andb_false_r.
    + intros k Hk. rewrite H0 in Hk. simpl in Hk. lia.
  - rewrite table_ready_id; [done|]. destruct Hwf as (_ & -> & _). done.
Qed.

(** A frame that [parse_frame] drops before the learning step leaves the
    table as the lazy initialisation leaves it: untouched once it is
    initialised, and with the same answers in any case. *)
Lemma dropped_before_learning lt ifc frame :
  learns frame = false →
  parse_frame gifc lt ifc frame = (table_ready lt, [])
  ∧ (nbr_position lt ≠ 0 → parse_frame gifc lt ifc frame = (lt, []))
  ∧ (lt_boot_or_wf lt →
     ∀ M, lookup_mac (fst (parse_frame gifc lt ifc frame)) M = lookup_mac lt M).
Proof.
  intros Hl.
  assert (parse_frame gifc lt ifc frame = (table_ready lt, [])) as Heq
    by (by rewrite parse_frame_eq, Hl).
  split_and!; [done | |].
  - intros Hn. by rewrite Heq, table_ready_id.
  - intros Hwf M. rewrite Heq. by apply table_ready_lookup_mac.
Qed.

(** C5 (source drop), as the code has it.  A frame whose source address
    has the multicast bit set makes [parse_frame] emit nothing and learn
    nothing.  On a table that is initialised the result is the very same
    table, slots and cursor.  On the table of start-up ([nbr_position = 0],
    so at the first frame) the result is that table after
    [lookup_table_init], the lazy initialisation at the head of
    [parse_frame], which writes every slot.  In both cases every lookup
    answers as before. *)
Theorem multicast_source_dropped lt ifc frame :
  multicast_bit (frame_src frame) = 1 →
  parse_frame gifc lt ifc frame = (table_ready lt, [])
  ∧ (nbr_position lt ≠ 0 → parse_frame gifc lt ifc frame = (lt, []))
  ∧ (nbr_position lt = 0 →
     parse_frame gifc lt ifc frame = (lookup_table_init lt, []))
  ∧ (lt_boot_or_wf lt →
     ∀ M, lookup_mac (fst (parse_frame gifc lt ifc frame)) M = lookup_mac lt M).
Proof.
  intros Hm.
  assert (learns frame = false) as Hl
    by (unfold learns; rewrite Hm; by rewrite andb_false_r).
  destruct (dropped_before_learning lt ifc frame Hl) as (Heq & Hinit & Hlk).
  split_and!; try done.
  intros H0. rewrite Heq. unfold table_ready. by rewrite H0.
Qed.

(** C8, as the code has it.  A frame shorter than 14 bytes is dropped: no
    emission and no learning (the table is left as by a frame with a
    multicast source).  That is the only length check: from 14 bytes on, a
    frame with a unicast source has its source learned, whatever its field
    at offset 12 and whether or not it has the 18 bytes of a tagged
    header. *)
Theorem short_frame_dropped lt ifc frame :
  ((length frame < 14)%nat →
   parse_frame gifc lt ifc frame = (table_ready lt, [])
   ∧ (nbr_position lt ≠ 0 → parse_frame gifc lt ifc frame = (lt, []))
   ∧ (lt_boot_or_wf lt →
      ∀ M, lookup_mac (fst (parse_frame gifc lt ifc frame)) M
           = lookup_mac lt M))
  ∧ ((14 ≤ length frame)%nat → multicast_bit (frame_src frame) = 0 →
     fst (parse_frame gifc lt ifc frame)
     = learn (table_ready lt) (frame_src frame) (ifc_num ifc)).
Proof.
  split.
  - intros Hlen. apply dropped_before_learning. unfold learns.
    destruct (Nat.leb_spec 14 (length frame)); [lia | done].
  - intros Hlen Hm. rewrite parse_frame_table. unfold learns. rewrite Hm.
    destruct (Nat.leb_spec 14 (length frame)); [done | lia].
Qed.

Lemma bind_port_eq (f f' : Interface → list Emission) (l : list Interface) :
  (∀ g, em_port <$> f g = em_port <$> f' g) →
  em_port <$> (l ≫= f) = em_port <$> (l ≫= f').
Proof.
  intros Hf. induction l as [|g l IH]; [done|].
  by rewrite !bind_cons, !fmap_app, IH, Hf.
Qed.

Lemma tagged_step_port ifc frame frame' g :
  em_port <$> parse_tagged_frame_step ifc frame (length frame)
                (header_of frame) g
  = em_port <$> parse_tagged_frame_step ifc frame' (length frame')
                  (header_of frame') g.
Proof.
  unfold parse_tagged_frame_step.
  destruct (_ =? _); [done|]. destruct (_ =? _); [done|].
  by destruct (_ =? _).
Qed.

(** What [parse_tagged_frame] does with a frame that carries a tag,
    passes the length and source checks and whose destination the table
    does not answer: the frame is dropped when the ingress port has an untagged
    VLAN; on a port without one the frame goes, as it is, to every other
    port whose first tagged VLAN is the first tagged VLAN of the ingress
    port and, stripped of its tag, to every other port whose untagged VLAN
    is that VLAN, and to no other port.  The TCI is not read: two such
    frames go to the same ports whatever their TCI, and only entry 0 of
    [tagged_vlans] counts. *)
Lemma tagged_ingress_by_first_vlan lt ifc frame :
  learns frame = true → has_qtag frame = true →
  dst_lookup (fst (parse_frame gifc lt ifc frame)) frame = None →
  (untagged_vlan ifc ≠ NO_VLAN → snd (parse_frame gifc lt ifc frame) = [])
  ∧ (untagged_vlan ifc = NO_VLAN →
     ∀ e, e ∈ snd (parse_frame gifc lt ifc frame) ↔
          ∃ g, g ∈ gifc ∧ em_port e = ifc_num g ∧ ifc_num g ≠ ifc_num ifc
            ∧ ((tagged_vlans_0 g = tagged_vlans_0 ifc ∧ em_frame e = frame)
               ∨ (tagged_vlans_0 g ≠ tagged_vlans_0 ifc
                  ∧ untagged_vlan g = tagged_vlans_0 ifc
                  ∧ em_frame e =
                      take (length frame - 4)
                           (take 12 frame ++ drop 16 frame))))
  ∧ (∀ frame',
       learns frame' = true → has_qtag frame' = true →
       dst_lookup (fst (parse_frame gifc lt ifc frame')) frame' = None →
       em_port <$> snd (parse_frame gifc lt ifc frame')
       = em_port <$> snd (parse_frame gifc lt ifc frame)).
Proof.
  intros Hlearns Htag Hdst.
  assert (∀ fr, learns fr = true → has_qtag fr = true →
            dst_lookup (fst (parse_frame gifc lt ifc fr)) fr = None →
            snd (parse_frame gifc lt ifc fr) =
              parse_tagged_frame gifc ifc fr (length fr) (header_of fr))
    as Hout.
  { intros fr Hl Ht Hd. rewrite parse_frame_table, Hl in Hd.
    rewrite parse_frame_eq, Hl. simpl. by rewrite Hd, Ht. }
  rewrite Hout by done. split_and!.
  - intros Hu. unfold parse_tagged_frame.
    by destruct (Z.eqb_spec (untagged_vlan ifc) NO_VLAN).
  - intros Hu e. rewrite elem_of_parse_tagged_frame by by apply learns_length.
    tauto.
  - intros frame' Hl' Ht' Hd'. rewrite Hout by done.
    unfold parse_tagged_frame. destruct (negb _); [done|].
    apply bind_port_eq. intros g. apply tagged_step_port.
Qed.
End Claims.

Lemma multicast_source_dropped_witness :
  multicast_bit (frame_src from_multicast) = 1
  ∧ parse_frame ports_default table_A_at_1 (port 1 "p1") from_multicast
    = (table_A_at_1, []).
Proof.
  split; [reflexivity|].
  apply (proj1 (proj2 (multicast_source_dropped ports_default table_A_at_1
                         (port 1 "p1") from_multicast eq_refl))).
  discriminate.
Defined.

(** C5, the counterexample: at start-up the table does not stay as it is.
    The first frame that the switch receives has a multicast source; the
    lazy initialisation writes all eight slots (the port of each becomes
    [IF_NO_INIT]) and sets [nbr_position] to 8. *)
Lemma multicast_source_initialises_table :
  multicast_bit (frame_src from_multicast) = 1
  ∧ fst (parse_frame ports_default lookupTable0 (port 1 "p1") from_multicast)
    ≠ lookupTable0
  ∧ table lookupTable0 = replicate 8 (mkInterface empty_mac 0 [] [] 0)
  ∧ table (fst (parse_frame ports_default lookupTable0 (port 1 "p1")
                  from_multicast))
    = replicate 8 (mkInterface empty_mac IF_NO_INIT [] [] 0)
  ∧ nbr_position lookupTable0 = 0
  ∧ nbr_position (fst (parse_frame ports_default lookupTable0 (port 1 "p1")
                         from_multicast)) = 8.
Proof. vm_compute. split_and!; done. Qed.

Lemma short_frame_dropped_witness :
  (length runt_A_to_B < 14)%nat
  ∧ parse_frame ports_default table_A_at_1 (port 1 "p1") runt_A_to_B
    = (table_A_at_1, []).
Proof.
  assert (length runt_A_to_B < 14)%nat as Hlen by (vm_compute; lia).
  split; [exact Hlen|].
  apply (proj1 (proj2 (proj1 (short_frame_dropped ports_default table_A_at_1
                                (port 1 "p1") runt_A_to_B) Hlen))).
  discriminate.
Defined.

(** C8, the counterexample: a frame of 14 bytes with 0x8100 at offset 12,
    received on a tagged port, is forwarded and its source is learned. *)
Lemma short_tagged_frame_forwarded :
  length short_tagged_A_to_B = 14%nat
  ∧ has_qtag short_tagged_A_to_B = true
  ∧ snd (parse_frame ports_T1_T1 lookupTable0 (port 1 "p1[T:1]")
           short_tagged_A_to_B)
    = [mkEmission 2 short_tagged_A_to_B]
  ∧ lookup_mac (fst (parse_frame ports_T1_T1 lookupTable0 (port 1 "p1[T:1]")
                       short_tagged_A_to_B)) mac_A = Some 1.
Proof. vm_compute. done. Qed.

Lemma tagged_ingress_by_first_vlan_witness :
  learns (tagged_A_to_B 1) = true ∧ has_qtag (tagged_A_to_B 1) = true
  ∧ dst_lookup (fst (parse_frame ports_U1_T1 lookupTable0 (port 1 "p1[U:1]")
                       (tagged_A_to_B 1))) (tagged_A_to_B 1) = None
  ∧ snd (parse_frame ports_U1_T1 lookupTable0 (port 1 "p1[U:1]")
           (tagged_A_to_B 1)) = [].
Proof.
  split; [reflexivity|]. split; [reflexivity|]. split; [reflexivity|].
  apply (proj1 (tagged_ingress_by_first_vlan ports_U1_T1 lookupTable0
                  (port 1 "p1[U:1]") (tagged_A_to_B 1)
                  eq_refl eq_refl eq_refl)).
  discriminate.
Defined.

(** C4, at the failing inputs.  [parse_tagged_frame] never reads the TCI
    and compares entry 0 of [tagged_vlans] only, although the array lists
    the tagged VLANs the interface participates in and [parse_tagged]
    stores them all.  Interface 1 is a tagged member of VLANs 1 and 2: a
    frame tagged with VID 2 that it receives goes to interface 2, which is
    in VLAN 1 only, and to neither of the members of VLAN 2, interfaces 3
    and 4.  Interface 1 is a tagged member of VLAN 1 only: a frame tagged
    with VID 2 is not dropped but forwarded, tag and VID as they came.
    Interface 1 is configured with [T:] and so a member of no VLAN: a
    frame tagged with VID 9 goes to every other interface, to the tagged
    one stripped of its tag. *)
Theorem tagged_ingress_ignores_vid :
  (tagged_member (port 1 "p1[T:1,2]") 2 = true
   ∧ has_qtag (tagged_A_to_B 2) = true
   ∧ tci_vid (tagged_A_to_B 2) = 2
   ∧ egress_set ports_T12_T1_T2_U2 (port 1 "p1[T:1,2]") 2 = [3; 4]
   ∧ snd (parse_frame ports_T12_T1_T2_U2 lookupTable0 (port 1 "p1[T:1,2]")
            (tagged_A_to_B 2))
     = [mkEmission 2 (tagged_A_to_B 2)])
  ∧ (tagged_member (port 1 "p1[T:1]") 2 = false
     ∧ snd (parse_frame ports_T1_T1 lookupTable0 (port 1 "p1[T:1]")
              (tagged_A_to_B 2))
       = [mkEmission 2 (tagged_A_to_B 2)])
  ∧ (vlans_upto_terminator (tagged_vlans (port 1 "p1[T:]")) = []
     ∧ tci_vid (tagged_A_to_B 9) = 9
     ∧ snd (parse_frame ports_T_U1_T1_U0 lookupTable0 (port 1 "p1[T:]")
              (tagged_A_to_B 9))
       = [mkEmission 2 (tagged_A_to_B 9);
          mkEmission 3 untagged_A_to_B;
          mkEmission 4 (tagged_A_to_B 9)]).
Proof. vm_compute. split_and!; done. Qed.

(** C1, at the failing inputs.  Interface 1 is an untagged member of VLAN
    2 and interface 2 a tagged member of it: the untagged frame received
    on 1 is flooded to 2 with a tag whose VID is 1, the constant that
    [parse_untagged_frame] stores, not 2.  And on the path of a learned
    destination nothing is transformed: with interface 1 untagged and
    interface 2 tagged in VLAN 1, once B is learned behind 2, the untagged
    frame for B received on 1 leaves on 2 without a tag, and once A is
    learned behind 1, the tagged frame for A received on 2 leaves on 1
    with its tag. *)
Theorem inserted_tag_is_vlan_1 :
  (untagged_member (port 1 "p1[U:2]") 2 = true
   ∧ tagged_member (port 2 "p2[T:2]") 2 = true
   ∧ has_qtag untagged_A_to_B = false
   ∧ ∃ e, snd (parse_frame ports_U2_T2 lookupTable0 (port 1 "p1[U:2]")
                 untagged_A_to_B) = [e]
        ∧ em_port e = 2
        ∧ has_qtag (em_frame e) = true
        ∧ tci_vid (em_frame e) = 1)
  ∧ (untagged_member (port 1 "p1[U:1]") 1 = true
     ∧ tagged_member (port 2 "p2[T:1]") 1 = true
     ∧ ∃ lt out,
         handle_frames ports_U1_T1 lookupTable0
           [(2, tagged_B_to_A 1); (1, untagged_A_to_B); (2, tagged_B_to_A 1)]
         = Some (lt, out)
         ∧ out = [mkEmission 1 untagged_B_to_A;
                  mkEmission 2 untagged_A_to_B;
                  mkEmission 1 (tagged_B_to_A 1)]
         ∧ has_qtag untagged_A_to_B = false
         ∧ has_qtag (tagged_B_to_A 1) = true).
Proof.
  split.
  - vm_compute. split_and!; try done. eexists. done.
  - split; [reflexivity|]. split; [reflexivity|].
    eexists _, _. vm_compute. done.
Qed.

(** C2, at the failing input.  Interfaces 1 and 2 are untagged members of
    VLANs 1 and 2, so the egress set of VLAN 1 for interface 1 is empty.
    B is learned behind interface 2; the frame for B that interface 1
    then receives is written to interface 2. *)
Theorem learnt_destination_crosses_vlans :
  untagged_vlan (port 1 "p1[U:1]") = 1
  ∧ egress_set ports_U1_U2 (port 1 "p1[U:1]") 1 = []
  ∧ ∃ lt out,
      handle_frames ports_U1_U2 lookupTable0
        [(2, untagged_B_to_A); (1, untagged_A_to_B)] = Some (lt, out)
      ∧ lookup_mac lt (frame_dst untagged_A_to_B) = Some 2
      ∧ out = [mkEmission 2 untagged_A_to_B].
Proof.
  split; [reflexivity|]. split; [reflexivity|].
  eexists _, _. vm_compute. done.
Qed.

(** C3, at the failing inputs.  A frame whose destination is its own
    source is learned at the ingress port and then written back to it;
    so is a frame for an address learned earlier behind the ingress
    port. *)
Theorem learnt_destination_on_ingress_port :
  snd (parse_frame ports_default lookupTable0 (port 1 "p1") untagged_A_to_A)
  = [mkEmission 1 untagged_A_to_A]
  ∧ ∃ lt out,
      handle_frames ports_default lookupTable0
        [(1, untagged_A_to_B); (1, untagged_B_to_A)] = Some (lt, out)
      ∧ out = [mkEmission 2 untagged_A_to_B; mkEmission 1 untagged_B_to_A].
Proof. split; [reflexivity|]. eexists _, _. vm_compute. done. Qed.

(** On the flood paths the ingress port is skipped. *)
Lemma flood_skips_ingress gifc ifc frame e :
  (14 ≤ length frame)%nat →
  e ∈ parse_tagged_frame gifc ifc frame (length frame) (header_of frame)
  ∨ e ∈ parse_untagged_frame gifc ifc frame (length frame) (header_of frame) →
  em_port e ≠ ifc_num ifc.
Proof.
  intros Hlen [He | He].
  - apply elem_of_parse_tagged_frame in He as (_ & g & _ & -> & Hne & _); done.
  - apply elem_of_parse_untagged_frame in He as (g & _ & -> & Hne & _); done.
Qed.

Section Strings.
Implicit Types (s : cstring) (c : ascii).

Lemma strchr_app pre c post :
  c ∉ pre → strchr (pre ++ c :: post) c = Some (length pre).
Proof.
  induction pre as [|x pre IH]; intros Hnotin; simpl.
  - by rewrite decide_True.
  - apply not_elem_of_cons in Hnotin as [Hne Hnotin].
    rewrite decide_False by done. by rewrite IH.
Qed.

Lemma strchr_None s c : c ∉ s → strchr s c = None.
Proof.
  induction s as [|x s IH]; intros Hnotin; [done|]. simpl.
  apply not_elem_of_cons in Hnotin as [Hne Hnotin].
  rewrite decide_False by done. by rewrite IH.
Qed.

(** A string either lacks [c] or splits at its first [c]. *)
Lemma strchr_cases s c :
  c ∉ s ∨ ∃ pre post, s = pre ++ c :: post ∧ c ∉ pre.
Proof.
  induction s as [|x s IH].
  - left. apply not_elem_of_nil.
  - destruct (decide (x = c)) as [-> | Hne].
    + right. exists [], s. split; [done | apply not_elem_of_nil].
    + destruct IH as [Hnotin | (pre & post & -> & Hpre)].
      * left. by apply not_elem_of_cons.
      * right. exists (x :: pre), post. split; [done|].
        by apply not_elem_of_cons.
Qed.
End Strings.

(** The loop of [parse_tagged] returns 1 exactly when it meets a token it
    refuses or a token beyond the [MAX_VLANS] first. *)
Lemma parse_tagged_loop_spec toks : ∀ pos ifc,
  Z.of_nat pos ≤ MAX_VLANS →
  match parse_tagged_loop toks pos ifc with
  | (Some r, _, _) =>
      r = 1 ∧ (Z.of_nat (pos + length toks) > MAX_VLANS
               ∨ ∃ tok, tok ∈ toks ∧ vid_refused tok)
  | (None, _, _) =>
      Z.of_nat (pos + length toks) ≤ MAX_VLANS
      ∧ ∀ tok, tok ∈ toks → ¬ vid_refused tok
  end.
Proof.
  induction toks as [|tok toks IH]; intros pos ifc Hpos; simpl.
  - split; [lia|]. by intros tok ?%elem_of_nil.
  - destruct (Z.eqb_spec (Z.of_nat pos) MAX_VLANS) as [Heq | Hne].
    { split; [done|]. left. lia. }
    destruct (sscanf_u tok) as [v|] eqn:Hv.
    2: { split; [done|]. right. exists tok. split; [left | by left]. }
    destruct (Z.gtb_spec v MAX_VLANS) as [Hbig | Hok].
    { split; [done|]. right. exists tok. split; [left|].
      right. exists v. split; [done | lia]. }
    assert (Z.of_nat (S pos) ≤ MAX_VLANS) as Hpos' by lia.
    specialize (IH (S pos)
                  (set_tagged_vlans (array_store (tagged_vlans ifc) pos v) ifc)
                  Hpos').
    destruct (parse_tagged_loop toks (S pos) _) as [[[r|] pos'] ifc'].
    + destruct IH as [-> [Hmany | (tok' & Hin & Href)]].
      * split; [done|]. left. lia.
      * split; [done|]. right. exists tok'. split; [by right | done].
    + destruct IH as [Hcount Hall]. split; [lia|].
      intros tok' [-> | Hin]%elem_of_cons; [|by apply Hall].
      intros [Hnone | (v' & Hv' & Hbig)]; [congruence|].
      rewrite Hv in Hv'. injection Hv' as <-. lia.
Qed.

Section Parser.
Implicit Types (name body tail : cstring).

Lemma drop_S_app_cons {A} (l k : list A) x : drop (S (length l)) (l ++ x :: k) = k.
Proof.
  rewrite drop_app_ge by lia.
  by replace (S (length l) - length l)%nat with 1%nat by lia.
Qed.

Lemma strndup_app (l k : cstring) : strndup (l ++ k) (length l) = l.
Proof. apply take_app_length. Qed.

Lemma parse_vlan_args_bare arg ifc :
  "["%char ∉ arg →
  parse_vlan_args arg ifc =
    (0, set_untagged_vlan DEFAULT_VLAN (set_ifc_name arg (reset_vlans ifc))).
Proof. intros H. unfold parse_vlan_args. by rewrite strchr_None. Qed.

Lemma parse_vlan_args_unclosed name rest ifc :
  "["%char ∉ name → "]"%char ∉ rest →
  parse_vlan_args (name ++ "["%char :: rest) ifc =
    (1, set_ifc_name name (reset_vlans ifc)).
Proof.
  intros Hname Hrest. unfold parse_vlan_args.
  rewrite strchr_app by done. rewrite drop_S_app_cons.
  rewrite strchr_None by done. unfold strndup. by rewrite take_app_length.
Qed.

Lemma parse_vlan_args_closed name body tail ifc :
  "["%char ∉ name → "]"%char ∉ body →
  parse_vlan_args (name ++ "["%char :: body ++ "]"%char :: tail) ifc =
    let ifc1 := set_ifc_name name (reset_vlans ifc) in
    match body with
    | l :: c :: spec =>
        if decide (l = "T"%char)
        then if decide (c = ":"%char) then tagged_result spec ifc1
             else (1, ifc1)
        else if decide (l = "U"%char)
        then if decide (c = ":"%char) then untagged_result spec ifc1
             else (1, ifc1)
        else (1, ifc1)
    | _ => (1, ifc1)
    end.
Proof.
  intros Hname Hbody. unfold parse_vlan_args.
  rewrite strchr_app by done. rewrite drop_S_app_cons.
  rewrite strchr_app by done. rewrite strndup_app.
  fold (reset_vlans ifc). cbv zeta.
  destruct body as [|l [|c spec]]; simpl.
  - done.
  - unfold parse_tagged, parse_untagged. simpl.
    by repeat destruct (decide _).
  - unfold parse_tagged, parse_untagged. simpl.
    apply not_elem_of_cons in Hbody as [_ [_ Hspec]%not_elem_of_cons].
    change (deref (l :: c :: spec ++ "]"%char :: tail)) with l.
    change (deref (c :: spec ++ "]"%char :: tail)) with c.
    rewrite !drop_0, !Nat.sub_0_r, !strndup_app.
    fold (tagged_result spec (set_ifc_name name (reset_vlans ifc))).
    fold (untagged_result spec (set_ifc_name name (reset_vlans ifc))).
    destruct (decide (c = ":"%char)) as [-> | Hc].
    + rewrite !(decide_False (P := ":"%char ≠ ":"%char))
        by (intros H; by apply H).
      done.
    + rewrite !(decide_True (P := ":"%char ≠ c)) by congruence.
      by repeat destruct (decide _).
Qed.

Lemma tagged_result_refused vids ifc :
  (fst (tagged_result vids ifc) = 0 ∨ fst (tagged_result vids ifc) = 1)
  ∧ (fst (tagged_result vids ifc) = 1 ↔
     Z.of_nat (length (strtok_all ","%char vids [])) > MAX_VLANS
     ∨ ∃ tok, tok ∈ strtok_all ","%char vids [] ∧ vid_refused tok).
Proof.
  unfold tagged_result.
  pose proof (parse_tagged_loop_spec (strtok_all ","%char vids []) 0 ifc) as H.
  destruct (parse_tagged_loop _ _ _) as [[[r|] pos] ifc']; simpl.
  - destruct (H ltac:(done)) as [-> H']. simpl in H'. tauto.
  - destruct (H ltac:(done)) as [Hc Hall]. simpl in Hc. split; [by left|].
    split; [done|]. intros [Hmany | (tok & Hin & Href)]; [lia|].
    by destruct (Hall tok Hin).
Qed.

Lemma untagged_result_refused vid ifc :
  (fst (untagged_result vid ifc) = 0 ∨ fst (untagged_result vid ifc) = 1)
  ∧ (fst (untagged_result vid ifc) = 1 ↔ vid_refused vid).
Proof.
  unfold untagged_result, vid_refused.
  destruct (sscanf_u vid) as [v|]; simpl.
  - destruct (Z.gtb_spec v MAX_VLANS); simpl.
    + split; [by right|]. split; [|done]. intros _. right. exists v.
      split; [done | lia].
    + split; [by left|]. split; [done|].
      intros [? | (v' & [= <-] & ?)]; [done | lia].
  - split; [by right|]. split; [|done]. by left.
Qed.
End Parser.

Lemma parse_vlan_args_code arg ifc :
  fst (parse_vlan_args arg ifc) = 0 ∨ fst (parse_vlan_args arg ifc) = 1.
Proof.
  destruct (strchr_cases arg "["%char) as [Hbare | (name & rest & -> & Hname)].
  { rewrite parse_vlan_args_bare by done. by left. }
  destruct (strchr_cases rest "]"%char) as [Hopen | (body & tail & -> & Hbody)].
  { rewrite parse_vlan_args_unclosed by done. by right. }
  rewrite parse_vlan_args_closed by done. cbv zeta.
  destruct body as [|l [|c spec]]; [by right | by right |].
  repeat destruct (decide _); try (by right).
  - apply tagged_result_refused.
  - apply untagged_result_refused.
Qed.

Lemma parse_vlan_args_refused arg ifc :
  fst (parse_vlan_args arg ifc) = 1 ↔ spec_refused arg.
Proof.
  split.
  - destruct (strchr_cases arg "["%char) as [Hbare | (name & rest & -> & Hname)].
    { by rewrite parse_vlan_args_bare. }
    destruct (strchr_cases rest "]"%char) as [Hopen | (body & tail & -> & Hbody)].
    { intros _. by apply refused_unclosed. }
    rewrite parse_vlan_args_closed by done. cbv zeta.
    destruct body as [|l [|c spec]].
    + intros _. by apply (refused_letter name []).
    + intros _. destruct (decide (l = "T"%char)) as [-> | HT].
      { apply (refused_colon name "T"%char []);
          [done | apply not_elem_of_nil | by left | done]. }
      destruct (decide (l = "U"%char)) as [-> | HU].
      { apply (refused_colon name "U"%char []);
          [done | apply not_elem_of_nil | by right | done]. }
      apply (refused_letter name [l]); [done | done | |]; intros b [=]; done.
    + apply not_elem_of_cons in Hbody as Hbody'.
      destruct Hbody' as [_ Hbody'].
      apply not_elem_of_cons in Hbody' as Hspec. destruct Hspec as [_ Hspec].
      destruct (decide (l = "T"%char)) as [-> | HT].
      { destruct (decide (c = ":"%char)) as [-> | Hc].
        - intros [Hmany | (tok & Hin & Href)]%tagged_result_refused.
          + by apply refused_too_many.
          + by apply (refused_tagged name spec tail tok).
        - intros _. apply (refused_colon name "T"%char (c :: spec));
            [done | done | by left | intros b [=]; done]. }
      destruct (decide (l = "U"%char)) as [-> | HU].
      { destruct (decide (c = ":"%char)) as [-> | Hc].
        - intros Href%untagged_result_refused. by apply refused_untagged.
        - intros _. apply (refused_colon name "U"%char (c :: spec));
            [done | done | by right | intros b [=]; done]. }
      intros _. apply (refused_letter name (l :: c :: spec)); [done | done | |];
        intros b [=]; done.
  - intros H. destruct H as
      [ name rest Hname Hrest
      | name body tail Hname Hbody HT HU
      | name l body tail Hname Hbody Hl Hc
      | name vid tail Hname Hvid Href
      | name vids tail tok Hname Hvids Hin Href
      | name vids tail Hname Hvids Hmany ].
    + by rewrite parse_vlan_args_unclosed.
    + rewrite parse_vlan_args_closed by done. cbv zeta.
      destruct body as [|l [|c spec]]; [done | done |].
      rewrite decide_False by (intros ->; by apply (HT (c :: spec))).
      rewrite decide_False by (intros ->; by apply (HU (c :: spec))). done.
    + change (name ++ "["%char :: l :: body ++ "]"%char :: tail)
        with (name ++ "["%char :: (l :: body) ++ "]"%char :: tail).
      rewrite (parse_vlan_args_closed name (l :: body)).
      2: done.
      2: { apply not_elem_of_cons. split; [|done]. by destruct Hl as [-> | ->]. }
      cbv zeta. destruct body as [|c spec]; [done|].
      rewrite !(decide_False (P := c = ":"%char))
        by (intros ->; by apply (Hc spec)).
      by repeat destruct (decide _).
    + change (name ++ "["%char :: "U"%char :: ":"%char :: vid ++ "]"%char :: tail)
        with (name ++ "["%char :: ("U"%char :: ":"%char :: vid) ++ "]"%char :: tail).
      rewrite (parse_vlan_args_closed name ("U"%char :: ":"%char :: vid)).
      2: done.
      2: { by repeat (apply not_elem_of_cons; split; [done|]). }
      cbv zeta. rewrite decide_False by done. rewrite !decide_True by done.
      by apply untagged_result_refused.
    + change (name ++ "["%char :: "T"%char :: ":"%char :: vids ++ "]"%char :: tail)
        with (name ++ "["%char :: ("T"%char :: ":"%char :: vids) ++ "]"%char :: tail).
      rewrite (parse_vlan_args_closed name ("T"%char :: ":"%char :: vids)).
      2: done.
      2: { by repeat (apply not_elem_of_cons; split; [done|]). }
      cbv zeta. rewrite !decide_True by done.
      apply tagged_result_refused. right. by exists tok.
    + change (name ++ "["%char :: "T"%char :: ":"%char :: vids ++ "]"%char :: tail)
        with (name ++ "["%char :: ("T"%char :: ":"%char :: vids) ++ "]"%char :: tail).
      rewrite (parse_vlan_args_closed name ("T"%char :: ":"%char :: vids)).
      2: done.
      2: { by repeat (apply not_elem_of_cons; split; [done|]). }
      cbv zeta. rewrite !decide_True by done.
      apply tagged_result_refused. by left.
Qed.

Lemma main_ifcs_refused args : ∀ i,
  (main_ifcs args i = inl 1 ↔ ∃ arg, arg ∈ args ∧ spec_refused arg)
  ∧ (∀ r, main_ifcs args i = inl r → r = 1).
Proof.
  induction args as [|arg args IH]; intros i; simpl.
  - split; [|done]. split; [done|]. by intros (arg & ?%elem_of_nil & _).
  - set (ifc := set_ifc_num _ _).
    pose proof (parse_vlan_args_code arg ifc) as Hcode.
    pose proof (parse_vlan_args_refused arg ifc) as Href.
    destruct (parse_vlan_args arg ifc) as [r ifc']. simpl in *.
    destruct Hcode as [-> | ->].
    + destruct (IH (i + 1)) as [IH1 IH2].
      destruct (main_ifcs args (i + 1)) as [r | l].
      * split; [|by intros r' [= <-]; apply IH2].
        rewrite (IH2 r eq_refl) in *. split; [intros _ | done].
        destruct (proj1 IH1 eq_refl) as (a & Hin & Ha).
        exists a. split; [by right | done].
      * split; [|done]. split; [done|].
        intros (a & [-> | Hin]%elem_of_cons & Ha).
        -- by apply Href in Ha.
        -- assert (@inr Z _ l = inl 1) as [=]. apply IH1. by exists a.
    + split; [|by intros r [= <-]]. split; [intros _ | done].
      exists arg. split; [left | by apply Href].
Qed.

(** *** The grammar of the specification and the parser *)

Section Grammar.
Implicit Types (s tok : cstring) (c d : ascii).

Lemma strtok_all_fields d s : ∀ acc,
  strtok_all d s acc =
    filter (λ f, f ≠ [])
      (match fields d s with
       | f :: fs => (reverse acc ++ f) :: fs
       | [] => [reverse acc]
       end).
Proof.
  assert (∀ acc : cstring, reverse acc = [] ↔ acc = []) as Hrev.
  { intros acc. split; [|by intros ->].
    intros H. apply (f_equal reverse) in H. by rewrite reverse_involutive in H. }
  induction s as [|c s IH]; intros acc; simpl.
  - rewrite app_nil_r, filter_cons, filter_nil.
    destruct acc as [|x acc]; [done|].
    rewrite decide_True; [done|]. rewrite Hrev. done.
  - destruct (decide (c = d)) as [-> | Hne].
    + rewrite app_nil_r, filter_cons, (IH []). simpl.
      destruct (fields d s) as [|f fs] eqn:Hf.
      * destruct acc as [|x acc]; [done|].
        rewrite decide_True; [done|]. rewrite Hrev. done.
      * destruct acc as [|x acc]; [done|].
        rewrite decide_True; [done|]. rewrite Hrev. done.
    + rewrite (IH (c :: acc)), reverse_cons.
      destruct (fields d s) as [|f fs]; by rewrite <- ?app_assoc.
Qed.

Lemma strtok_all_subseteq d s tok :
  tok ∈ strtok_all d s [] → tok ∈ fields d s.
Proof.
  rewrite strtok_all_fields.
  intros [Hne Hin]%list_elem_of_filter.
  destruct (fields d s) as [|f fs] eqn:Hf; [|exact Hin].
  by apply list_elem_of_singleton in Hin.
Qed.

Lemma fields_elem d s c :
  c ∈ s → c = d ∨ ∃ f, f ∈ fields d s ∧ c ∈ f.
Proof.
  induction s as [|x s IH]; [by intros ?%elem_of_nil|].
  intros [-> | Hin]%elem_of_cons; simpl.
  - destruct (decide (x = d)) as [-> | Hne]; [by left|]. right.
    destruct (fields d s) as [|f fs]; eexists; (split; [left|left]).
  - destruct (IH Hin) as [-> | (f & Hf & Hc)]; [by left|]. right.
    destruct (decide (x = d)); [exists f; split; [by right | done]|].
    destruct (fields d s) as [|f0 fs]; [by apply elem_of_nil in Hf|].
    apply elem_of_cons in Hf as [-> | Hf].
    + exists (x :: f0). split; [left | by right].
    + exists f. split; [by right | done].
Qed.

Lemma fields_length d s :
  length (fields d s) = S (length (filter (λ c, c = d) s)).
Proof.
  induction s as [|x s IH]; [done|]. rewrite filter_cons. cbn [fields].
  destruct (decide (x = d)); cbn [length]; [by rewrite IH|].
  destruct (fields d s); cbn [length] in *; lia.
Qed.

Lemma strtok_all_length d s :
  (length (strtok_all d s []) ≤ S (length (filter (λ c, c = d) s)))%nat.
Proof.
  rewrite <- fields_length, strtok_all_fields. simpl.
  destruct (fields d s) as [|f fs]; [simpl; lia|].
  apply length_filter.
Qed.

Lemma is_digit_not_space c : is_digit c = true → isspace c = false.
Proof.
  unfold is_digit, digit_of, isspace. intros H%bool_decide_eq_true.
  destruct (Nat.leb_spec 48 (nat_of_ascii c)); [|by destruct H].
  apply orb_false_iff. split.
  - apply Nat.eqb_neq. lia.
  - apply andb_false_iff. right. apply Nat.leb_gt. lia.
Qed.

Lemma scan_digits_digits s : ∀ acc seen,
  forallb is_digit s = true → seen = true ∨ s ≠ [] →
  is_Some (scan_digits s acc seen).
Proof.
  induction s as [|c s IH]; intros acc seen Hall Hne; simpl.
  - destruct Hne as [-> | ?]; [by eexists | done].
  - simpl in Hall. apply andb_true_iff in Hall as [Hc Hall].
    apply bool_decide_eq_true in Hc as [dgt Hc]. rewrite Hc.
    apply IH; [done | by left].
Qed.

Lemma scan_digits_nonneg s : ∀ acc seen v,
  0 ≤ acc → scan_digits s acc seen = Some v → 0 ≤ v.
Proof.
  induction s as [|c s IH]; intros acc seen v Hacc; simpl.
  - destruct seen; [by intros [= <-] | done].
  - destruct (digit_of c) as [dgt|] eqn:Hc.
    + apply IH. unfold digit_of in Hc.
      destruct (Nat.leb_spec 48 (nat_of_ascii c)); [|done]. simpl in Hc.
      destruct (_ <=? _)%nat; [|done]. injection Hc as <-. lia.
    + destruct seen; [by intros [= <-] | done].
Qed.

(** A VID of the grammar is read by [sscanf] as the number it denotes. *)
Lemma spec_VID_sscanf tok :
  spec_VID tok = true → ∃ v, sscanf_u tok = Some v ∧ 0 ≤ v ≤ MAX_VLANS.
Proof.
  unfold spec_VID. destruct tok as [|c tok]; [done|].
  intros [Hall Hle]%andb_true_iff. apply bool_decide_eq_true in Hle.
  change (forallb is_digit (c :: tok) = true) in Hall.
  destruct (scan_digits_digits (c :: tok) 0 false Hall) as [v Hv];
    [by right|].
  rewrite Hv in Hle. simpl in Hle.
  pose proof (scan_digits_nonneg _ _ _ _ (Z.le_refl 0) Hv) as Hv0.
  simpl in Hall. apply andb_true_iff in Hall as [Hc _].
  exists v. split; [|unfold MAX_VLANS; lia].
  unfold sscanf_u. cbn [skip_space].
  rewrite (is_digit_not_space c Hc).
  change (deref (c :: tok)) with c.
  rewrite decide_False by (intros ->; vm_compute in Hc; discriminate).
  rewrite decide_False by (intros ->; vm_compute in Hc; discriminate).
  rewrite Hv. simpl. f_equal.
  destruct (Z.gtb_spec v (2 ^ 64 - 1)); [lia|].
  apply Z.mod_small. lia.
Qed.

Lemma spec_VID_digits tok c : spec_VID tok = true → c ∈ tok → is_digit c = true.
Proof.
  unfold spec_VID. destruct tok as [|x tok]; [done|].
  intros [Hall _]%andb_true_iff Hin.
  change (forallb is_digit (x :: tok) = true) in Hall.
  rewrite forallb_forall in Hall. apply Hall. by apply list_elem_of_In.
Qed.
End Grammar.

Lemma filter_app_length_le (d : ascii) (l k m : list ascii) :
  (length (filter (λ c, c = d) k) ≤ length (filter (λ c, c = d) (l ++ k ++ m)))%nat.
Proof. rewrite !filter_app, !length_app. lia. Qed.

Lemma spec_VID_accepted vid : spec_VID vid = true → ¬ vid_refused vid.
Proof.
  intros (v & Hv & Hle)%spec_VID_sscanf [Hnone | (v' & Hv' & Hbig)];
    [congruence|].
  rewrite Hv in Hv'. injection Hv' as <-. lia.
Qed.

(** Every specification of the grammar that lists at most [MAX_VLANS]
    VLANs is accepted. *)
Lemma grammar_specs_accepted arg ifc :
  spec_PORTSPEC arg = true →
  Z.of_nat (length (filter (λ c, c = ","%char) arg)) < MAX_VLANS →
  fst (parse_vlan_args arg ifc) = 0.
Proof.
  destruct (strchr_cases arg "["%char) as [Hbare | (name & rest & -> & Hname)].
  { intros _ _. by rewrite parse_vlan_args_bare. }
  unfold spec_PORTSPEC. rewrite strchr_app, drop_S_app_cons by done.
  intros [_ Hm]%andb_true_iff Hcount.
  destruct (reverse rest) as [|c m] eqn:Hrev; [done|].
  apply andb_true_iff in Hm as [->%bool_decide_eq_true Hm].
  apply (f_equal reverse) in Hrev.
  rewrite reverse_involutive, reverse_cons in Hrev. subst rest.
  set (mb := reverse m) in *. clearbody mb. clear m.
  destruct mb as [|l [|c spec]]; [done | done |].
  unfold spec_MEMBERSHIP in Hm.
  assert (∀ x, x ∈ spec → is_digit x = true ∨ x = ","%char) as Hchars.
  { intros x Hx.
    destruct (decide (l = "T"%char ∧ c = ":"%char)) as [_ | _].
    - destruct (fields_elem ","%char spec x Hx) as [-> | (f & Hf & Hxf)];
        [by right|]. left.
      rewrite forallb_forall in Hm.
      apply (spec_VID_digits f); [|done]. apply Hm. by apply list_elem_of_In.
    - destruct (decide (l = "U"%char ∧ c = ":"%char)); [|done].
      left. by apply (spec_VID_digits spec). }
  assert ("]"%char ∉ l :: c :: spec) as Hbody.
  { destruct (decide (l = "T"%char ∧ c = ":"%char)) as [[-> ->] | _];
      [|destruct (decide (l = "U"%char ∧ c = ":"%char)) as [[-> ->] | _];
        [|done]].
    all: do 2 (apply not_elem_of_cons; split; [done|]).
    all: intros [Hd | Hd]%Hchars; [vm_compute in Hd; discriminate | done]. }
  change (name ++ "["%char :: (l :: c :: spec) ++ ["]"%char])
    with (name ++ "["%char :: (l :: c :: spec) ++ "]"%char :: []).
  rewrite parse_vlan_args_closed by done. cbv zeta.
  destruct (decide (l = "T"%char ∧ c = ":"%char)) as [[-> ->] | HT].
  - rewrite !decide_True by done.
    destruct (tagged_result_refused spec (set_ifc_name name (reset_vlans ifc)))
      as [[H0 | H1] Hiff]; [done|].
    exfalso. apply Hiff in H1 as [Hmany | (tok & Hin & Href)].
    + pose proof (strtok_all_length ","%char spec) as Hlen.
      pose proof (filter_app_length_le ","%char
                    (name ++ ["["%char; "T"%char; ":"%char]) spec ["]"%char])
        as Hle.
      rewrite <- app_assoc in Hle. simpl in Hle. simpl in Hcount. lia.
    + apply (spec_VID_accepted tok); [|done].
      rewrite forallb_forall in Hm. apply Hm, list_elem_of_In.
      by apply strtok_all_subseteq.
  - destruct (decide (l = "U"%char ∧ c = ":"%char)) as [[-> ->] | HU]; [|done].
    rewrite decide_False by done. rewrite !decide_True by done.
    destruct (untagged_result_refused spec (set_ifc_name name (reset_vlans ifc)))
      as [[H0 | H1] Hiff]; [done|].
    exfalso. apply Hiff in H1. by apply (spec_VID_accepted spec).
Qed.

Section Numbers.
Implicit Types (s tok ds ws rest : cstring) (c : ascii).

Lemma digit_of_value c : is_digit c = true → digit_of c = Some (digit_value c).
Proof.
  unfold is_digit, digit_of, digit_value. intros H%bool_decide_eq_true.
  destruct (_ && _); [done | by destruct H].
Qed.

Lemma digit_of_None c : is_digit c = false → digit_of c = None.
Proof.
  unfold is_digit. intros H%bool_decide_eq_false.
  destruct (digit_of c); [|done]. destruct H. by eexists.
Qed.

Lemma not_digit_first_cons c s : ¬ digit_first (c :: s) → digit_of c = None.
Proof.
  intros H. apply digit_of_None. destruct (is_digit c) eqn:Hc; [|done].
  destruct H. by exists c, s.
Qed.

Lemma scan_digits_app ds : ∀ acc seen rest,
  Forall (λ c, is_digit c = true) ds → ¬ digit_first rest →
  seen = true ∨ ds ≠ [] →
  scan_digits (ds ++ rest) acc seen
  = Some (foldl (λ acc c, acc * 10 + digit_value c) acc ds).
Proof.
  induction ds as [|c ds IH]; intros acc seen rest Hds Hrest Hne; simpl.
  - destruct Hne as [-> | ?]; [|done].
    destruct rest as [|c rest]; [done|]. simpl.
    by rewrite (not_digit_first_cons c rest).
  - apply Forall_cons in Hds as [Hc Hds].
    rewrite (digit_of_value c Hc). apply IH; [done | done | by left].
Qed.

Lemma scan_digits_split s : ∀ acc seen v,
  scan_digits s acc seen = Some v →
  ∃ ds rest, s = ds ++ rest ∧ Forall (λ c, is_digit c = true) ds
    ∧ ¬ digit_first rest
    ∧ v = foldl (λ acc c, acc * 10 + digit_value c) acc ds
    ∧ (seen = false → ds ≠ []).
Proof.
  induction s as [|c s IH]; intros acc seen v; simpl.
  - destruct seen; [|done]. intros [= <-]. exists [], [].
    split_and!; try done. by intros (? & ? & ? & _).
  - destruct (is_digit c) eqn:Hc.
    + rewrite (digit_of_value c Hc).
      intros (ds & rest & -> & Hds & Hrest & -> & _)%IH.
      exists (c :: ds), rest. split_and!; try done. by apply Forall_cons.
    + rewrite (digit_of_None c Hc). destruct seen; [|done]. intros [= <-].
      exists [], (c :: s). split_and!; try done.
      intros (c' & s' & [= <- <-] & Hc'). congruence.
Qed.

Lemma digits_span s :
  ∃ ds rest, s = ds ++ rest ∧ Forall (λ c, is_digit c = true) ds
             ∧ ¬ digit_first rest.
Proof.
  induction s as [|c s (ds & rest & -> & Hds & Hrest)].
  - exists [], []. split_and!; try done. by intros (? & ? & ? & _).
  - destruct (is_digit c) eqn:Hc.
    + exists (c :: ds), rest. split_and!; try done. by apply Forall_cons.
    + exists [], (c :: ds ++ rest). split_and!; try done.
      intros (c' & s' & [= <- <-] & Hc'). congruence.
Qed.

Lemma skip_space_app ws s :
  blank ws → (∀ c s', s = c :: s' → isspace c = false) →
  skip_space (ws ++ s) = s.
Proof.
  intros Hws Hs. induction Hws as [|c ws Hc _ IH]; simpl.
  - destruct s as [|c s']; [done|]. simpl. by rewrite (Hs c s').
  - by rewrite Hc.
Qed.

Lemma skip_space_split s :
  ∃ ws, s = ws ++ skip_space s ∧ blank ws.
Proof.
  induction s as [|c s (ws & Hs & Hws)]; simpl.
  - exists []. split; [done | constructor].
  - destruct (isspace c) eqn:Hc.
    + exists (c :: ws). split; [simpl; by rewrite <- Hs | by apply Forall_cons].
    + exists []. split; [done | constructor].
Qed.

Lemma has_number_vid_number tok :
  has_number tok ↔ ∃ sign ds, vid_number tok sign ds.
Proof.
  split.
  - intros (ws & sign & ds & rest & -> & Hws & Hsign & Hne).
    destruct (digits_span rest) as (ds' & rest' & -> & Hds' & Hrest').
    exists sign, (ds ++ ds'), ws, rest'.
    split; [by rewrite <- !app_assoc|]. do 2 (split; [done|]).
    split; [|done]. destruct Hne as [Hne Hds].
    split; [by destruct ds | by apply Forall_app].
  - intros (sign & ds & ws & rest & -> & Hws & Hsign & Hds & _).
    by exists ws, sign, ds, rest.
Qed.

(** What [sscanf] stores for a text that begins with a number. *)
Lemma sscanf_u_number tok sign ds :
  vid_number tok sign ds →
  sscanf_u tok =
    Some (if decimal ds >? 2 ^ 64 - 1 then 2 ^ 32 - 1
          else (if bool_decide (sign = ["-"%char]) then - decimal ds
                else decimal ds) `mod` 2 ^ 32).
Proof.
  intros (ws & rest & -> & Hws & Hsign & [Hne Hds] & Hrest).
  destruct ds as [|d ds]; [done|]. clear Hne.
  pose proof Hds as [Hd _]%Forall_cons.
  assert (scan_digits ((d :: ds) ++ rest) 0 false = Some (decimal (d :: ds)))
    as Hscan by (apply scan_digits_app; [done | done | by right]).
  unfold sscanf_u. cbv zeta.
  destruct Hsign; cbn [app].
  - rewrite skip_space_app; [|done|].
    2: { intros c s' [= <- <-]. by apply is_digit_not_space. }
    change (deref (d :: ds ++ rest)) with d.
    rewrite decide_False by (intros ->; vm_compute in Hd; discriminate).
    rewrite decide_False by (intros ->; vm_compute in Hd; discriminate).
    change (d :: ds ++ rest) with ((d :: ds) ++ rest). by rewrite Hscan.
  - rewrite skip_space_app; [|done|].
    2: { by intros c s' [= <- <-]. }
    change (deref ("+"%char :: d :: ds ++ rest)) with "+"%char.
    rewrite decide_True by done.
    change (drop 1 ("+"%char :: d :: ds ++ rest)) with ((d :: ds) ++ rest).
    by rewrite Hscan.
  - rewrite skip_space_app; [|done|].
    2: { by intros c s' [= <- <-]. }
    change (deref ("-"%char :: d :: ds ++ rest)) with "-"%char.
    rewrite decide_False by done. rewrite decide_True by done.
    change (drop 1 ("-"%char :: d :: ds ++ rest)) with ((d :: ds) ++ rest).
    by rewrite Hscan.
Qed.

(** A text from which [sscanf] reads a number begins with one. *)
Lemma sscanf_u_Some tok v :
  sscanf_u tok = Some v → ∃ sign ds, vid_number tok sign ds.
Proof.
  unfold sscanf_u. cbv zeta.
  destruct (skip_space_split tok) as (ws & Htok & Hws).
  set (s := skip_space tok) in *. clearbody s. subst tok.
  assert (∀ s' w, scan_digits s' 0 false = Some w →
    ∃ ds rest, s' = ds ++ rest ∧ numeral ds ∧ ¬ digit_first rest) as Hsplit.
  { intros s' w (ds & rest & -> & Hds & Hrest & _ & Hne)%scan_digits_split.
    exists ds, rest. split; [done|]. split; [|done].
    split; [by apply Hne | done]. }
  destruct (decide (deref s = "+"%char)) as [Hp | Hp].
  { destruct s as [|c s]; [done|]. change (c = "+"%char) in Hp. subst c.
    change (drop 1 ("+"%char :: s)) with s.
    destruct (scan_digits s 0 false) as [w|] eqn:Hw; [|done].
    intros _. destruct (Hsplit _ _ Hw) as (ds & rest & -> & Hds & Hrest).
    exists ["+"%char], ds, ws, rest.
    split; [done|]. split; [done|]. split; [constructor | done]. }
  destruct (decide (deref s = "-"%char)) as [Hm | Hm].
  { destruct s as [|c s]; [done|]. change (c = "-"%char) in Hm. subst c.
    change (drop 1 ("-"%char :: s)) with s.
    destruct (scan_digits s 0 false) as [w|] eqn:Hw; [|done].
    intros _. destruct (Hsplit _ _ Hw) as (ds & rest & -> & Hds & Hrest).
    exists ["-"%char], ds, ws, rest.
    split; [done|]. split; [done|]. split; [constructor | done]. }
  destruct (scan_digits s 0 false) as [w|] eqn:Hw; [|done].
  intros _. destruct (Hsplit _ _ Hw) as (ds & rest & -> & Hds & Hrest).
  exists [], ds, ws, rest.
  split; [done|]. split; [done|]. split; [constructor | done].
Qed.

Lemma sscanf_u_None tok : sscanf_u tok = None ↔ ¬ has_number tok.
Proof.
  rewrite has_number_vid_number. split.
  - intros Hn (sign & ds & H%sscanf_u_number). congruence.
  - intros Hn. destruct (sscanf_u tok) as [v|] eqn:Hv; [|done].
    destruct Hn. by apply (sscanf_u_Some tok v).
Qed.



Lemma digit_value_range c : is_digit c = true → 0 ≤ digit_value c ≤ 9.
Proof.
  unfold is_digit, digit_of, digit_value. intros H%bool_decide_eq_true.
  destruct (Nat.leb_spec 48 (nat_of_ascii c)); [|by destruct H].
  destruct (Nat.leb_spec (nat_of_ascii c) 57); [lia | by destruct H].
Qed.

Lemma decimal_nonneg ds : Forall (λ c, is_digit c = true) ds → 0 ≤ decimal ds.
Proof.
  unfold decimal. intros Hds.
  assert (∀ acc, 0 ≤ acc →
    0 ≤ foldl (λ acc c, acc * 10 + digit_value c) acc ds) as H; [|by apply H].
  induction Hds as [|c ds Hc _ IH]; intros acc Hacc; simpl; [done|].
  apply IH. pose proof (digit_value_range c Hc). lia.
Qed.

Lemma vid_cause_refused tok : vid_cause tok → vid_refused tok.
Proof.
  intros [Hn | sign ds Hnum Hsign Hv].
  - left. by apply sscanf_u_None.
  - right. exists (decimal ds). split; [|lia].
    rewrite (sscanf_u_number tok sign ds Hnum).
    rewrite bool_decide_eq_false_2 by done.
    destruct (Z.gtb_spec (decimal ds) (2 ^ 64 - 1)); [lia|].
    f_equal. apply Z.mod_small. unfold MAX_VLANS in Hv. lia.
Qed.

Lemma vid_refused_cause tok : vid_refused tok → vid_cause tok ∨ vid_open tok.
Proof.
  intros [Hn | (v & Hv & Hbig)].
  - left. apply vid_not_a_number. by apply sscanf_u_None.
  - destruct (sscanf_u_Some tok v Hv) as (sign & ds & Hnum).
    destruct (decide (sign = ["-"%char])) as [-> | Hsign].
    { right. exists ["-"%char], ds. auto. }
    destruct (decide (2 ^ 32 ≤ decimal ds)) as [Hlarge | Hsmall].
    { right. exists sign, ds. auto. }
    left. apply (vid_too_large tok sign ds); [done | done |].
    rewrite (sscanf_u_number tok sign ds Hnum) in Hv.
    rewrite bool_decide_eq_false_2 in Hv by done.
    destruct Hnum as (_ & _ & _ & _ & _ & [_ Hds] & _).
    pose proof (decimal_nonneg ds Hds).
    destruct (Z.gtb_spec (decimal ds) (2 ^ 64 - 1)); [lia|].
    rewrite Z.mod_small in Hv by lia. injection Hv as <-. lia.
Qed.
End Numbers.

Lemma strtok_all_vid_fields vids : strtok_all ","%char vids [] = vid_fields vids.
Proof.
  rewrite strtok_all_fields. unfold vid_fields.
  destruct (fields ","%char vids) as [|f fs]; [|done].
  rewrite filter_cons, decide_False by (by intros H; apply H). done.
Qed.

Lemma listed_cause_refused arg : listed_cause arg → spec_refused arg.
Proof.
  intros [ name rest Hname Hrest
         | name body tail Hname Hbody HT HU
         | name l body tail Hname Hbody Hl Hc
         | name vid tail Hname Hvid Hcause
         | name vids tail tok Hname Hvids Hin Hcause
         | name vids tail Hname Hvids Hmany ].
  - by apply refused_unclosed.
  - by apply refused_letter.
  - by apply refused_colon.
  - apply refused_untagged; [done | done | by apply vid_cause_refused].
  - apply (refused_tagged name vids tail tok); [done | done | |].
    + by rewrite strtok_all_vid_fields.
    + by apply vid_cause_refused.
  - apply refused_too_many; [done | done |].
    by rewrite strtok_all_vid_fields.
Qed.

Lemma refused_listed_cause arg :
  spec_refused arg → listed_cause arg ∨ left_open arg.
Proof.
  intros [ name rest Hname Hrest
         | name body tail Hname Hbody HT HU
         | name l body tail Hname Hbody Hl Hc
         | name vid tail Hname Hvid Href
         | name vids tail tok Hname Hvids Hin Href
         | name vids tail Hname Hvids Hmany ].
  - left. by apply cause_unclosed.
  - left. by apply cause_letter.
  - left. by apply cause_colon.
  - destruct (vid_refused_cause vid Href) as [Hc | Ho].
    + left. by apply cause_untagged.
    + right. by apply open_untagged.
  - rewrite strtok_all_vid_fields in Hin.
    destruct (vid_refused_cause tok Href) as [Hc | Ho].
    + left. by apply (cause_tagged name vids tail tok).
    + right. by apply (open_tagged name vids tail tok).
  - left. apply cause_too_many; [done | done |].
    by rewrite <- strtok_all_vid_fields.
Qed.

Lemma first_split_unique {A} (x : A) (l1 : list A) : ∀ l2 r1 r2,
  x ∉ l1 → x ∉ l2 → l1 ++ x :: r1 = l2 ++ x :: r2 → l1 = l2 ∧ r1 = r2.
Proof.
  induction l1 as [|a l1 IH]; intros [|b l2] r1 r2 H1 H2; simpl.
  - by intros [= ->].
  - intros [= <- _]. by apply not_elem_of_cons in H2 as [? _].
  - intros [= -> _]. by apply not_elem_of_cons in H1 as [? _].
  - intros [= <- Heq].
    apply not_elem_of_cons in H1 as [_ H1].
    apply not_elem_of_cons in H2 as [_ H2].
    destruct (IH l2 r1 r2 H1 H2 Heq) as [-> ->]. done.
Qed.

Lemma vid_fields_grammar vids :
  forallb spec_VID (fields ","%char vids) = true →
  vid_fields vids = fields ","%char vids.
Proof.
  unfold vid_fields.
  induction (fields ","%char vids) as [|f fs IH]; [done|]. simpl.
  intros [Hf Hfs]%andb_true_iff.
  rewrite filter_cons_True by (by intros ->). by rewrite IH.
Qed.

(** A specification of the grammar is refused exactly when it lists more
    than [MAX_VLANS] VIDs. *)
Lemma grammar_specs_refused arg ifc :
  spec_PORTSPEC arg = true →
  (fst (parse_vlan_args arg ifc) = 1 ↔
   (∃ name vids,
      ("["%char ∉ name)
      ∧ arg = name ++ "["%char :: "T"%char :: ":"%char :: vids ++ ["]"%char]
      ∧ Z.of_nat (length (fields ","%char vids)) > MAX_VLANS)).
Proof.
  destruct (strchr_cases arg "["%char) as [Hbare | (name & rest & -> & Hname)].
  { intros _. rewrite parse_vlan_args_bare by done. simpl. split; [done|].
    intros (name & vids & _ & -> & _). destruct Hbare.
    apply elem_of_app. right. left. }
  unfold spec_PORTSPEC. rewrite strchr_app, drop_S_app_cons by done.
  intros [_ Hm]%andb_true_iff.
  destruct (reverse rest) as [|c m] eqn:Hrev; [done|].
  apply andb_true_iff in Hm as [->%bool_decide_eq_true Hm].
  apply (f_equal reverse) in Hrev.
  rewrite reverse_involutive, reverse_cons in Hrev. subst rest.
  set (mb := reverse m) in *. clearbody mb. clear m.
  destruct mb as [|l [|c spec]]; [done | done |].
  unfold spec_MEMBERSHIP in Hm.
  assert (∀ x, x ∈ spec → is_digit x = true ∨ x = ","%char) as Hchars.
  { intros x Hx.
    destruct (decide (l = "T"%char ∧ c = ":"%char)) as [_ | _].
    - destruct (fields_elem ","%char spec x Hx) as [-> | (f & Hf & Hxf)];
        [by right|]. left.
      rewrite forallb_forall in Hm.
      apply (spec_VID_digits f); [|done]. apply Hm. by apply list_elem_of_In.
    - destruct (decide (l = "U"%char ∧ c = ":"%char)); [|done].
      left. by apply (spec_VID_digits spec). }
  assert ("]"%char ∉ l :: c :: spec) as Hbody.
  { destruct (decide (l = "T"%char ∧ c = ":"%char)) as [[-> ->] | _];
      [|destruct (decide (l = "U"%char ∧ c = ":"%char)) as [[-> ->] | _];
        [|done]].
    all: do 2 (apply not_elem_of_cons; split; [done|]).
    all: intros [Hd | Hd]%Hchars; [vm_compute in Hd; discriminate | done]. }
  change (name ++ "["%char :: (l :: c :: spec) ++ ["]"%char])
    with (name ++ "["%char :: (l :: c :: spec) ++ "]"%char :: []).
  rewrite parse_vlan_args_closed by done. cbv zeta.
  destruct (decide (l = "T"%char ∧ c = ":"%char)) as [[-> ->] | HT].
  - rewrite !decide_True by done.
    destruct (tagged_result_refused spec (set_ifc_name name (reset_vlans ifc)))
      as [_ ->].
    rewrite strtok_all_vid_fields, (vid_fields_grammar spec Hm).
    split.
    + intros [Hmany | (tok & Hin & Href)].
      * by exists name, spec.
      * destruct (spec_VID_accepted tok); [|done].
        rewrite forallb_forall in Hm. by apply Hm, list_elem_of_In.
    + intros (name' & vids & Hname' & Heq & Hmany). left.
      apply first_split_unique in Heq as [_ Heq]; [|done..].
      injection Heq as Heq. by apply app_inv_tail in Heq as ->.
  - destruct (decide (l = "U"%char ∧ c = ":"%char)) as [[-> ->] | HU]; [|done].
    rewrite decide_False by done. rewrite !decide_True by done.
    destruct (untagged_result_refused spec (set_ifc_name name (reset_vlans ifc)))
      as [_ ->].
    split.
    + intros Href. by destruct (spec_VID_accepted spec).
    + intros (name' & vids & Hname' & Heq & _).
      apply first_split_unique in Heq as [_ Heq]; [|done..]. done.
Qed.

Lemma main_refused args :
  (main args = inl 1 ↔
   ∃ a, a ∈ args ∧ ∀ ifc, fst (parse_vlan_args a ifc) = 1)
  ∧ (∀ r, main args = inl r → r = 1).
Proof.
  destruct (main_ifcs_refused args 1) as [Hiff Hcode]. split; [|done].
  unfold main. rewrite Hiff. split.
  - intros (a & Hin & Href). exists a. split; [done|].
    intros ifc. by apply parse_vlan_args_refused.
  - intros (a & Hin & Href). exists a. split; [done|].
    by apply (parse_vlan_args_refused a zero_Interface).
Qed.

(** C9, as the code has it.  [parse_vlan_args] returns 0 or 1.  It
    returns 1 for each cause of [listed_cause]: a ['['] with no [']']
    behind it; a character other than ['T'] and ['U'] behind the ['['];
    no [':'] behind that letter; a VID text (the text behind ["U:"], or a
    non-empty field between the commas behind ["T:"]) that does not begin
    with a number; a VID text whose number, without a minus sign, is
    greater than 4092 and less than [2^32]; more than 4092 VID texts
    behind ["T:"].  And it returns 1 for nothing else, the VID texts of
    [left_open] apart: those whose number is [2^32] or more or has a minus
    sign, about which nothing is stated.  Whatever follows the number in a
    VID text, and whatever follows the first [']'], is not looked at.  A
    specification without ['['] is accepted, the whole of it being the
    name, as an untagged member of VLAN 0 without tagged VLANs.  A
    specification that the PORTSPEC grammar derives is refused exactly
    when it is a tagged one that lists more than 4092 VIDs.  [main]
    returns 1 exactly when [parse_vlan_args] refuses one of the
    specifications it is given, and it returns no other code before the
    driver loop. *)
Theorem parse_vlan_args_refuses arg ifc :
  (fst (parse_vlan_args arg ifc) = 0 ∨ fst (parse_vlan_args arg ifc) = 1)
  ∧ (listed_cause arg → fst (parse_vlan_args arg ifc) = 1)
  ∧ (fst (parse_vlan_args arg ifc) = 1 → listed_cause arg ∨ left_open arg)
  ∧ ("["%char ∉ arg →
     fst (parse_vlan_args arg ifc) = 0
     ∧ ifc_name (snd (parse_vlan_args arg ifc)) = arg
     ∧ untagged_vlan (snd (parse_vlan_args arg ifc)) = DEFAULT_VLAN
     ∧ vlans_upto_terminator (tagged_vlans (snd (parse_vlan_args arg ifc))) = [])
  ∧ (spec_PORTSPEC arg = true →
     (fst (parse_vlan_args arg ifc) = 1 ↔
      (∃ name vids,
         ("["%char ∉ name)
         ∧ arg = name ++ "["%char :: "T"%char :: ":"%char :: vids ++ ["]"%char]
         ∧ Z.of_nat (length (fields ","%char vids)) > MAX_VLANS)))
  ∧ (∀ args,
       (main args = inl 1 ↔
        ∃ a, a ∈ args ∧ ∀ ifc', fst (parse_vlan_args a ifc') = 1)
       ∧ (∀ r, main args = inl r → r = 1)).
Proof.
  split_and!.
  - apply parse_vlan_args_code.
  - intros H. by apply parse_vlan_args_refused, listed_cause_refused.
  - intros H. by apply refused_listed_cause, (parse_vlan_args_refused arg ifc).
  - intros Hbare. rewrite parse_vlan_args_bare by done. simpl.
    split_and!; try done.
    unfold array_store. destruct (tagged_vlans ifc); done.
  - apply grammar_specs_refused.
  - intros args. apply main_refused.
Qed.

Lemma parse_vlan_args_refuses_witness :
  listed_cause (cstr "eth0[U:4093]")
  ∧ fst (parse_vlan_args (cstr "eth0[U:4093]") zero_Interface) = 1
  ∧ ("["%char ∉ cstr "eth0")
  ∧ parse_vlan_args (cstr "eth0") zero_Interface
    = (0, mkInterface empty_mac 0 (cstr "eth0") [NO_VLAN] DEFAULT_VLAN)
  ∧ spec_PORTSPEC (cstr "eth0[T:1,2]") = true
  ∧ (fst (parse_vlan_args (cstr "eth0[T:1,2]") zero_Interface) = 1 ↔
     (∃ name vids,
        ("["%char ∉ name)
        ∧ cstr "eth0[T:1,2]"
          = name ++ "["%char :: "T"%char :: ":"%char :: vids ++ ["]"%char]
        ∧ Z.of_nat (length (fields ","%char vids)) > MAX_VLANS)).
Proof.
  assert (vid_number (cstr "4093") [] (cstr "4093")) as Hnum.
  { exists [], []. split; [reflexivity|]. split; [constructor|].
    split; [constructor|]. split.
    - split; [discriminate | by repeat constructor].
    - intros (c & s & H & _). discriminate. }
  assert (vid_cause (cstr "4093")) as Hvid.
  { apply (vid_too_large _ [] (cstr "4093") Hnum); [discriminate|].
    vm_compute. split; reflexivity. }
  assert ("["%char ∉ cstr "eth0") as Hname by compute_done.
  assert ("]"%char ∉ cstr "4093") as Hclose by compute_done.
  pose proof (cause_untagged (cstr "eth0") (cstr "4093") [] Hname Hclose Hvid)
    as Hcause.
  split; [exact Hcause|].
  split.
  { exact (proj1 (proj2 (parse_vlan_args_refuses (cstr "eth0[U:4093]")
                           zero_Interface)) Hcause). }
  split; [exact Hname|].
  split; [reflexivity|].
  split; [reflexivity|].
  exact (proj1 (proj2 (proj2 (proj2 (proj2
           (parse_vlan_args_refuses (cstr "eth0[T:1,2]") zero_Interface)))))
           eq_refl).
Defined.

(** Each way of being refused, and specifications that are accepted. *)
Example parse_vlan_args_examples :
  fst (parse_vlan_args (cstr "eth0[T:1") zero_Interface) = 1
  ∧ fst (parse_vlan_args (cstr "eth0[X:1]") zero_Interface) = 1
  ∧ fst (parse_vlan_args (cstr "eth0[T1]") zero_Interface) = 1
  ∧ fst (parse_vlan_args (cstr "eth0[U:]") zero_Interface) = 1
  ∧ fst (parse_vlan_args (cstr "eth0[U:4093]") zero_Interface) = 1
  ∧ fst (parse_vlan_args (cstr "eth0[T:1,x]") zero_Interface) = 1
  ∧ fst (parse_vlan_args (cstr "eth0[T:1,4093]") zero_Interface) = 1
  ∧ fst (parse_vlan_args (spec_with_vlans 4093) zero_Interface) = 1
  ∧ fst (parse_vlan_args (spec_with_vlans 4092) zero_Interface) = 0
  ∧ parse_vlan_args (cstr "eth0[T:1,2,4092]") zero_Interface
    = (0, mkInterface empty_mac 0 (cstr "eth0") [1; 2; 4092; NO_VLAN] NO_VLAN)
  ∧ parse_vlan_args (cstr "eth0[U:7]") zero_Interface
    = (0, mkInterface empty_mac 0 (cstr "eth0") [NO_VLAN] 7)
  ∧ main [cstr "eth0[T:1]"; cstr "eth1[U:1]"; cstr "eth2[U:9999]"] = inl 1.
Proof. vm_compute. done. Qed.

(** C9, the counterexample.  Specifications that the PORTSPEC grammar does
    not derive and that [parse_vlan_args] accepts: text behind the closing
    bracket, text behind the number of a VID, an empty list of VLANs, a
    list where one VLAN is due, an empty name.  And a VID greater than
    4092 that it accepts: 4294967297, which is [2^32 + 1], is stored by
    [sscanf] as 1, and the port becomes an untagged member of VLAN 1. *)
Lemma malformed_spec_accepted :
  spec_PORTSPEC (cstr "eth0[U:1]x") = false
  ∧ ¬ listed_cause (cstr "eth0[U:1]x")
  ∧ fst (parse_vlan_args (cstr "eth0[U:1]x") zero_Interface) = 0
  ∧ spec_PORTSPEC (cstr "eth0[U:1x]") = false
  ∧ fst (parse_vlan_args (cstr "eth0[U:1x]") zero_Interface) = 0
  ∧ spec_PORTSPEC (cstr "eth0[T:]") = false
  ∧ fst (parse_vlan_args (cstr "eth0[T:]") zero_Interface) = 0
  ∧ spec_PORTSPEC (cstr "eth0[U:1,5000]") = false
  ∧ fst (parse_vlan_args (cstr "eth0[U:1,5000]") zero_Interface) = 0
  ∧ spec_PORTSPEC (cstr "[U:1]") = false
  ∧ fst (parse_vlan_args (cstr "[U:1]") zero_Interface) = 0
  ∧ decimal (cstr "4294967297") = 2 ^ 32 + 1
  ∧ MAX_VLANS < decimal (cstr "4294967297")
  ∧ parse_vlan_args (cstr "p[U:4294967297]") zero_Interface
    = (0, mkInterface empty_mac 0 (cstr "p") [NO_VLAN] 1).
Proof.
  split_and!; try (vm_compute; done).
  intros H%listed_cause_refused%(parse_vlan_args_refused _ zero_Interface).
  vm_compute in H. done.
Qed.

Example spec_PORTSPEC_examples :
  spec_PORTSPEC (cstr "eth0") = true
  ∧ spec_PORTSPEC (cstr "eth0[U:1]") = true
  ∧ spec_PORTSPEC (cstr "eth0[T:1,2,4092]") = true
  ∧ spec_PORTSPEC (cstr "eth0[T:1,4093]") = false
  ∧ spec_PORTSPEC (cstr "eth0[X:1]") = false
  ∧ spec_PORTSPEC (cstr "eth0[T:1") = false
  ∧ spec_PORTSPEC (cstr "[U:1]") = false.
Proof. vm_compute. done. Qed.

(** * The learning table: interference, replacement, capacity *)

Import Scenarios.

Lemma hit_match M M' e :
  mac_match M M' = true → hit M' e = hit M e.
Proof.
  intros H%mac_match_spec. unfold hit. f_equal.
  destruct (mac_match (mac e) M) eqn:H1; destruct (mac_match (mac e) M') eqn:H2;
    try done.
  - apply mac_match_spec in H1. rewrite <- not_true_iff_false in H2.
    exfalso. apply H2, mac_match_spec. congruence.
  - apply mac_match_spec in H2. rewrite <- not_true_iff_false in H1.
    exfalso. apply H1, mac_match_spec. congruence.
Qed.

Lemma hit_other M M' e :
  mac_match M M' = false → hit M e = true → hit M' e = false.
Proof.
  intros Hne [Hm _]%hit_true. unfold hit.
  destruct (mac_match (mac e) M') eqn:H2; [|done].
  apply mac_match_spec in H2. rewrite <- not_true_iff_false in Hne.
  exfalso. apply Hne, mac_match_spec. congruence.
Qed.

Lemma hit_written M M' p e :
  mac_match M M' = false →
  hit M' (set_mac (mac_copy M) (set_ifc_num p e)) = false.
Proof.
  intros Hne. unfold hit. simpl.
  destruct (mac_match (mac_copy M) M') eqn:H2; [|done].
  apply mac_match_spec in H2. rewrite mac_copy_idemp in H2.
  rewrite <- not_true_iff_false in Hne. exfalso. by apply Hne, mac_match_spec.
Qed.

(** The position that the search returns is the first hit. *)
Lemma search_first_hit lt M f k :
  (k < Z.to_nat (nbr_position lt))%nat →
  hit M (slot (table lt) k) = true →
  (∀ j, (j < k)%nat → hit M (slot (table lt) j) = false) →
  fst (search_lookup_table lt M f) = Z.of_nat k.
Proof.
  intros Hk Hhit Hfirst. unfold search_lookup_table.
  destruct (search_loop_spec (table lt) M f (Z.to_nat (nbr_position lt)) 0)
    as [Hmiss | k' Hk' Hhit' Hfirst']; simpl.
  - rewrite Hmiss in Hhit by lia. done.
  - destruct (Nat.lt_trichotomy k k') as [Hlt | [-> | Hgt]]; [| done |].
    + rewrite Hfirst' in Hhit by lia. done.
    + rewrite Hfirst in Hhit' by lia. done.
Qed.

Lemma search_miss_pos lt M f :
  lookup_mac lt M = None → fst (search_lookup_table lt M f) = -1.
Proof.
  intros Hn. pose proof (proj1 (lookup_mac_None _ _) Hn) as Hmiss.
  unfold search_lookup_table.
  destruct (search_loop_spec (table lt) M f (Z.to_nat (nbr_position lt)) 0)
    as [_ | k' Hk' Hhit' _]; [done|].
  rewrite Hmiss in Hhit' by lia. done.
Qed.

(** The table after [learn]: which slot changed. *)
Lemma learn_found lt M p k :
  (k < Z.to_nat (nbr_position lt))%nat →
  hit M (slot (table lt) k) = true →
  (∀ j, (j < k)%nat → hit M (slot (table lt) j) = false) →
  learn lt M p =
    if ifc_num (slot (table lt) k) =? p then lt
    else mkLookupTable (<[k := set_ifc_num p (slot (table lt) k)]> (table lt))
                       (nbr_position lt) (current_position lt).
Proof.
  intros Hk Hhit Hfirst. unfold learn.
  rewrite (save_to_table_found _ _ k) by done. simpl. by destruct (_ =? _).
Qed.

Lemma learn_not_found lt M p :
  lookup_mac lt M = None →
  learn lt M p =
    mkLookupTable
      (<[Z.to_nat (current_position lt) :=
           set_mac (mac_copy M)
             (set_ifc_num p (slot (table lt) (Z.to_nat (current_position lt))))]>
         (table lt))
      (nbr_position lt)
      ((current_position lt + 1) `rem` nbr_position lt).
Proof.
  intros Hn. pose proof (proj1 (lookup_mac_None _ _) Hn) as Hmiss.
  unfold learn. by rewrite save_to_table_not_found.
Qed.

Lemma learn_other lt M p M' :
  lt_wf lt → mac_match M M' = false →
  lookup_mac lt M ≠ None
  ∨ fst (search_lookup_table lt M' zero_Interface) ≠ current_position lt →
  lookup_mac (learn lt M p) M' = lookup_mac lt M'.
Proof.
  intros (Hlen & Hnbr & Hcur) Hne Hcase.
  destruct (lookup_mac lt M) as [q|] eqn:HM.
  - apply lookup_mac_Some in HM as (k & Hk & Hhit & Hfirst & Hq).
    rewrite (learn_found _ _ _ k) by done.
    destruct (_ =? _); [done|].
    assert (k < length (table lt))%nat by (rewrite Hnbr in Hk; lia).
    assert (∀ i, hit M' (slot (<[k:=set_ifc_num p (slot (table lt) k)]> (table lt)) i)
                 = hit M' (slot (table lt) i)) as Hsame.
    { intros i. rewrite slot_insert by done.
      destruct (decide (k = i)) as [<- | ?]; [|done].
      rewrite (hit_other M M' _ Hne Hhit). unfold hit. simpl.
      fold (hit M' (slot (table lt) k)).
      pose proof (hit_other M M' _ Hne Hhit) as H0. unfold hit in H0.
      apply andb_false_iff in H0 as [-> | H0]; [done|].
      apply hit_true in Hhit as [_ Hs].
      apply negb_false_iff, Z.eqb_eq in H0. done. }
    destruct (lookup_mac lt M') as [q'|] eqn:HM'.
    + apply lookup_mac_Some in HM' as (k' & Hk' & Hhit' & Hfirst' & Hq').
      apply lookup_mac_Some. exists k'. simpl. rewrite Hsame.
      split_and!; [done | done | by intros j Hj; rewrite Hsame; apply Hfirst' |].
      rewrite slot_insert by done.
      destruct (decide (k = k')) as [<- | ?]; [|done].
      rewrite (hit_other M M' _ Hne Hhit) in Hhit'. done.
    + pose proof (proj1 (lookup_mac_None _ _) HM') as Hmiss.
      apply lookup_mac_None. simpl. intros i Hi. rewrite Hsame. by apply Hmiss.
  - destruct Hcase as [? | Hpos]; [done|].
    rewrite learn_not_found by done.
    set (c := Z.to_nat (current_position lt)) in *.
    assert (c < length (table lt))%nat by (unfold c; lia).
    destruct (lookup_mac lt M') as [q'|] eqn:HM'.
    + apply lookup_mac_Some in HM' as (k' & Hk' & Hhit' & Hfirst' & Hq').
      rewrite (search_first_hit _ _ _ k') in Hpos by done.
      assert (c ≠ k') by (unfold c; lia).
      apply lookup_mac_Some. exists k'. simpl.
      rewrite !slot_insert, decide_False by done.
      split_and!; [done | done | | done].
      intros j Hj. rewrite slot_insert by done.
      destruct (decide (c = j)); [by apply hit_written | by apply Hfirst'].
    + pose proof (proj1 (lookup_mac_None _ _) HM') as Hmiss.
      apply lookup_mac_None. simpl. intros i Hi. rewrite slot_insert by done.
      destruct (decide (c = i)); [by apply hit_written | by apply Hmiss].
Qed.

Lemma learn_evicts lt M p M0 :
  lt_wf lt → slots_unique lt → mac_match M M0 = false →
  lookup_mac lt M = None →
  fst (search_lookup_table lt M0 zero_Interface) = current_position lt →
  lookup_mac (learn lt M p) M0 = None.
Proof.
  intros (Hlen & Hnbr & Hcur) Huniq Hne HM Hpos.
  rewrite learn_not_found by done.
  set (c := Z.to_nat (current_position lt)) in *.
  assert (c < length (table lt))%nat by (unfold c; lia).
  destruct (lookup_mac lt M0) as [q|] eqn:HM0.
  2: { rewrite search_miss_pos in Hpos by done. lia. }
  apply lookup_mac_Some in HM0 as (k & Hk & Hhit & Hfirst & _).
  rewrite (search_first_hit _ _ _ k) in Hpos by done.
  assert (k = c) as -> by (unfold c; lia).
  apply lookup_mac_None. simpl. intros i Hi. rewrite slot_insert by done.
  destruct (decide (c = i)) as [<- | Hci]; [by apply hit_written|].
  destruct (hit M0 (slot (table lt) i)) eqn:Hi0; [|done].
  exfalso. apply Hci. by apply (Huniq M0).
Qed.

Lemma learn_unique lt M p :
  lt_wf lt → slots_unique lt → slots_unique (learn lt M p).
Proof.
  intros (Hlen & Hnbr & Hcur) Huniq.
  destruct (lookup_mac lt M) as [q|] eqn:HM.
  - apply lookup_mac_Some in HM as (k & Hk & Hhit & Hfirst & Hq).
    rewrite (learn_found _ _ _ k) by done.
    destruct (_ =? _); [done|].
    assert (k < length (table lt))%nat by (rewrite Hnbr in Hk; lia).
    assert (∀ M' i, hit M' (slot (<[k:=set_ifc_num p (slot (table lt) k)]> (table lt)) i) = true
                    → hit M' (slot (table lt) i) = true) as Hold.
    { intros M' i. rewrite slot_insert by done.
      destruct (decide (k = i)) as [<- | ?]; [|done].
      intros [Hm _]%hit_true. simpl in Hm. apply hit_true. split; [done|].
      by apply hit_true in Hhit as [_ ?]. }
    intros M' i j Hi Hj Hhi Hhj. simpl in *. eauto.
  - rewrite learn_not_found by done.
    pose proof (proj1 (lookup_mac_None _ _) HM) as Hmiss.
    set (c := Z.to_nat (current_position lt)) in *.
    assert (c < length (table lt))%nat by (unfold c; lia).
    intros M' i j Hi Hj. simpl in *. rewrite !slot_insert by done.
    destruct (decide (c = i)) as [<- | Hci]; destruct (decide (c = j)) as [<- | Hcj];
      try done.
    + intros [Hm _]%hit_true Hhj. simpl in Hm. rewrite mac_copy_idemp in Hm.
      rewrite (hit_match M M') in Hhj by by apply mac_match_spec.
      rewrite Hmiss in Hhj by done. done.
    + intros Hhi [Hm _]%hit_true. simpl in Hm. rewrite mac_copy_idemp in Hm.
      rewrite (hit_match M M') in Hhi by by apply mac_match_spec.
      rewrite Hmiss in Hhi by done. done.
    + by apply Huniq.
Qed.

Lemma table_ready_unique lt :
  lt_boot_or_wf lt → slots_unique lt → slots_unique (table_ready lt).
Proof.
  intros [Hlen [H0 | Hwf]] HS; unfold table_ready.
  - rewrite H0. simpl. intros M i j Hi _ Hhit _. exfalso. simpl in Hi.
    assert (i < length (table (lookup_table_init lt)))%nat as Hlt.
    { unfold lookup_table_init. simpl. rewrite length_fmap. lia. }
    apply slot_lt in Hlt. apply lookup_table_init_slot in Hlt as [_ Hs].
    by apply hit_true in Hhit as [_ ?].
  - destruct Hwf as (? & Hn & ?). rewrite Hn. done.
Qed.


Section Runs.
Variable gifc : list Interface.

(** An invariant of the table that the lazy initialisation and [learn]
    keep is kept by every run of the switch. *)
Lemma handle_frames_invariant (I : LookupTable → Prop) :
  (∀ lt, lt_boot_or_wf lt → I lt → I (table_ready lt)) →
  (∀ lt M p, lt_wf lt → I lt → I (learn lt M p)) →
  ∀ inputs lt lt' out,
    lt_boot_or_wf lt → I lt →
    handle_frames gifc lt inputs = Some (lt', out) →
    lt_boot_or_wf lt' ∧ I lt'.
Proof.
  intros Hready Hlearn.
  induction inputs as [|[q fr] inputs IH]; intros lt lt' out Hwf HI.
  - by intros [= <- <-].
  - cbn [handle_frames]. unfold handle_frame. destruct (_ || _); [done|].
    set (ifc := slot gifc _).
    pose proof (parse_frame_table gifc lt ifc fr) as Ht.
    pose proof (parse_frame_boot_or_wf gifc lt ifc fr Hwf) as Hwf1.
    destruct (parse_frame gifc lt ifc fr) as [lt1 out1].
    destruct (handle_frames gifc lt1 inputs) as [[lt2 out2]|] eqn:Hrest;
      [|done].
    intros [= <- <-]. cbn [fst] in *.
    eapply IH; [by apply lt_wf_boot_or_wf | | exact Hrest].
    rewrite Ht. destruct (learns fr); [|by apply Hready].
    apply Hlearn; [by apply table_ready_wf | by apply Hready].
Qed.

Lemma lookupTable0_unique : slots_unique lookupTable0.
Proof. intros M i j Hi. simpl in Hi. lia. Qed.

Lemma handle_frames_unique inputs lt out :
  handle_frames gifc lookupTable0 inputs = Some (lt, out) →
  lt_boot_or_wf lt ∧ slots_unique lt.
Proof.
  apply (handle_frames_invariant slots_unique).
  - apply table_ready_unique.
  - intros. by apply learn_unique.
  - apply lookupTable0_boot.
  - apply lookupTable0_unique.
Qed.

Lemma learn_fresh a lt M p :
  lt_wf lt → slots_unique lt → slots_fresh a lt →
  slots_fresh (λ M', if mac_match M M' then Some p else a M') (learn lt M p).
Proof.
  intros (Hlen & Hnbr & Hcur) Huniq Hfresh.
  destruct (lookup_mac lt M) as [q|] eqn:HM.
  - apply lookup_mac_Some in HM as (k & Hk & Hhit & Hfirst & Hq).
    rewrite (learn_found _ _ _ k) by done.
    assert (k < length (table lt))%nat by (rewrite Hnbr in Hk; lia).
    assert (∀ i, (i < Z.to_nat (nbr_position lt))%nat → i ≠ k →
              ifc_num (slot (table lt) i) ≠ IF_NO_INIT →
              mac_match M (mac (slot (table lt) i)) = false) as Hothers.
    { intros i Hi Hik Hocc.
      destruct (mac_match M (mac (slot (table lt) i))) eqn:Hm; [|done].
      exfalso. apply Hik. apply (Huniq M); try done.
      apply hit_true. split; [|done].
      apply mac_match_spec in Hm. by rewrite mac_copy_idemp || congruence. }
    assert (mac_match M (mac (slot (table lt) k)) = true) as Hmk.
    { apply hit_true in Hhit as [Hm _]. by apply mac_match_spec. }
    destruct (Z.eqb_spec (ifc_num (slot (table lt) k)) p) as [Heq | Hne].
    + intros i Hi Hocc. destruct (decide (i = k)) as [-> | Hik].
      * by rewrite Hmk, Heq.
      * rewrite Hothers by done. by apply Hfresh.
    + intros i Hi. simpl in *. rewrite slot_insert by done.
      destruct (decide (k = i)) as [<- | Hik]; simpl.
      * intros _. by rewrite Hmk.
      * intros Hocc. rewrite Hothers by done. by apply Hfresh.
  - rewrite learn_not_found by done.
    pose proof (proj1 (lookup_mac_None _ _) HM) as Hmiss.
    set (c := Z.to_nat (current_position lt)) in *.
    assert (c < length (table lt))%nat by (unfold c; lia).
    intros i Hi. simpl in *. rewrite slot_insert by done.
    destruct (decide (c = i)) as [<- | Hci]; simpl.
    + intros _.
      assert (mac_match M (mac_copy M) = true) as ->; [|done].
      apply mac_match_spec. by rewrite mac_copy_idemp.
    + intros Hocc.
      destruct (mac_match M (mac (slot (table lt) i))) eqn:Hm;
        [|by apply Hfresh].
      exfalso. specialize (Hmiss i Hi).
      assert (hit M (slot (table lt) i) = true); [|congruence].
      apply hit_true. split; [|done]. apply mac_match_spec in Hm. done.
Qed.

Lemma table_ready_fresh a lt :
  lt_boot_or_wf lt → slots_fresh a lt → slots_fresh a (table_ready lt).
Proof.
  intros [Hlen [H0 | Hwf]] HS; unfold table_ready.
  - rewrite H0. simpl. intros k Hk Hne. exfalso. apply Hne. simpl in Hk.
    assert (k < length (table (lookup_table_init lt)))%nat as Hlt.
    { unfold lookup_table_init. simpl. rewrite length_fmap. lia. }
    apply slot_lt in Hlt. by apply lookup_table_init_slot in Hlt as [_ ?].
  - destruct Hwf as (? & Hn & ?). rewrite Hn. done.
Qed.

Lemma handle_frames_fresh inputs : ∀ a lt lt' out,
  lt_boot_or_wf lt → slots_unique lt → slots_fresh a lt →
  handle_frames gifc lt inputs = Some (lt', out) →
  slots_fresh (λ M, last_seen gifc inputs M (a M)) lt'.
Proof.
  induction inputs as [|[q fr] inputs IH]; intros a lt lt' out Hwf Hu Hf.
  - by intros [= <- <-].
  - cbn [handle_frames last_seen]. unfold handle_frame.
    destruct (_ || _); [done|].
    set (ifc := slot gifc _).
    pose proof (parse_frame_table gifc lt ifc fr) as Ht.
    pose proof (parse_frame_boot_or_wf gifc lt ifc fr Hwf) as Hwf1.
    destruct (parse_frame gifc lt ifc fr) as [lt1 out1].
    destruct (handle_frames gifc lt1 inputs) as [[lt2 out2]|] eqn:Hrest;
      [|done].
    intros [= <- <-]. cbn [fst] in *.
    apply (IH (λ M, if learns fr && mac_match (frame_src fr) M
                    then Some (ifc_num ifc) else a M) lt1 lt2 out2);
      [by apply lt_wf_boot_or_wf | | | done].
    + rewrite Ht. destruct (learns fr); [|by apply table_ready_unique].
      apply learn_unique; [by apply table_ready_wf | by apply table_ready_unique].
    + rewrite Ht. destruct (learns fr); simpl; [|by apply table_ready_fresh].
      apply learn_fresh;
        [by apply table_ready_wf | by apply table_ready_unique
        | by apply table_ready_fresh].
Qed.
End Runs.


Lemma mac_match_congr X M M' :
  mac_match M M' = true → mac_match X M' = mac_match X M.
Proof.
  intros H%mac_match_spec.
  destruct (mac_match X M) eqn:H1; destruct (mac_match X M') eqn:H2; try done.
  - apply mac_match_spec in H1. rewrite <- not_true_iff_false in H2.
    exfalso. apply H2, mac_match_spec. congruence.
  - apply mac_match_spec in H2. rewrite <- not_true_iff_false in H1.
    exfalso. apply H1, mac_match_spec. congruence.
Qed.

Lemma search_loop_match tbl M M' f n : ∀ i,
  mac_match M M' = true →
  search_loop tbl M' f i n = search_loop tbl M f i n.
Proof.
  induction n as [|n IH]; intros i H; [done|]. simpl.
  rewrite (mac_match_congr _ M M') by done. rewrite IH by done. done.
Qed.

Lemma lookup_mac_match lt M M' :
  mac_match M M' = true → lookup_mac lt M' = lookup_mac lt M.
Proof.
  intros H. unfold lookup_mac, search_lookup_table.
  by rewrite (search_loop_match _ M M').
Qed.

(** X1 (insert, then lookup).  On an initialised table, after
    [learn (M, p)] with a port [p] other than the sentinel [IF_NO_INIT],
    the table answers [p] for [M] and for every address that has the same
    first six bytes. *)
Theorem learn_then_lookup lt M p M' :
  lt_wf lt → p ≠ IF_NO_INIT → mac_match M M' = true →
  lookup_mac (learn lt M p) M' = Some p.
Proof.
  intros Hwf Hp HM. rewrite (lookup_mac_match _ M M') by done.
  by apply lookup_mac_learn.
Qed.

Lemma learn_then_lookup_witness :
  lookup_mac (learn (table_ready lookupTable0) mac_A 3) (mac_A ++ [7; 7])
  = Some 3.
Proof.
  apply learn_then_lookup.
  - split; [reflexivity|]. split; [reflexivity|]. vm_compute.
    split; [discriminate | reflexivity].
  - discriminate.
  - reflexivity.
Defined.

(** X2 (learning leaves the other addresses alone).  [learn (M, p)] on an
    initialised table does not change the answer for an address [M'] that
    differs from [M], as long as [M] is already in the table or the slot
    that answers for [M'] is not the one under the cursor. *)
Theorem learn_keeps_other_addresses lt M p M' :
  lt_wf lt → mac_match M M' = false →
  lookup_mac lt M ≠ None
  ∨ fst (search_lookup_table lt M' zero_Interface) ≠ current_position lt →
  lookup_mac (learn lt M p) M' = lookup_mac lt M'.
Proof. apply learn_other. Qed.

Lemma learn_keeps_other_addresses_witness :
  lookup_mac (learn table_A_at_1 mac_B 2) mac_A = lookup_mac table_A_at_1 mac_A.
Proof.
  apply learn_keeps_other_addresses.
  - split; [reflexivity|]. split; [reflexivity|]. vm_compute.
    split; [discriminate | reflexivity].
  - reflexivity.
  - right. vm_compute. discriminate.
Defined.

(** X3 (replacement under the cursor).  On an initialised table in which
    no address is reported by two slots, learning a new address [M] removes
    the address [M0] that the slot under the cursor answers for: the table
    has no answer for [M0] afterwards. *)
Theorem learn_evicts_slot_under_cursor lt M p M0 :
  lt_wf lt → slots_unique lt → mac_match M M0 = false →
  lookup_mac lt M = None →
  fst (search_lookup_table lt M0 zero_Interface) = current_position lt →
  lookup_mac (learn lt M p) M0 = None.
Proof. apply learn_evicts. Qed.



Lemma last_seen_match gifc inputs M M' : ∀ acc,
  mac_match M M' = true →
  last_seen gifc inputs M' acc = last_seen gifc inputs M acc.
Proof.
  induction inputs as [|[q fr] inputs IH]; intros acc H; [done|]. simpl.
  rewrite (mac_match_congr _ M M') by done. by apply IH.
Qed.

Section RunTheorems.
Variable gifc : list Interface.

(** X5 (invariants of a run).  In every state that the switch reaches
    from start-up without aborting, the table has its eight slots and is
    untouched or initialised ([nbr_position = NBR_ENTRIES], the cursor
    within [0 .. NBR_ENTRIES - 1]); it is initialised as soon as one frame
    was handled; and no address is reported by two slots. *)
Theorem run_keeps_table_consistent inputs lt out :
  handle_frames gifc lookupTable0 inputs = Some (lt, out) →
  lt_boot_or_wf lt ∧ (inputs ≠ [] → lt_wf lt) ∧ slots_unique lt.
Proof.
  intros Hrun.
  destruct (handle_frames_unique gifc _ _ _ Hrun) as [Hb Hu].
  split_and!; [done | | done].
  destruct inputs as [|[q fr] rest]; [done|]. intros _.
  cbn [handle_frames] in Hrun. unfold handle_frame in Hrun.
  destruct (_ || _); [done|].
  set (ifc := slot gifc _) in Hrun.
  pose proof (parse_frame_boot_or_wf gifc lookupTable0 ifc fr lookupTable0_boot)
    as Hwf1.
  destruct (parse_frame gifc lookupTable0 ifc fr) as [lt1 out1].
  destruct (handle_frames gifc lt1 rest) as [[lt2 out2]|] eqn:Hrest; [|done].
  injection Hrun as <- <-. simpl in Hwf1.
  apply (handle_frames_invariant gifc lt_wf) in Hrest as [_ ?]; try done.
  - intros lt' Hb' _. by apply table_ready_wf.
  - intros lt' M p Hwf' _. by apply save_to_table_wf.
  - by apply lt_wf_boot_or_wf.
Qed.

(** X6 (no stale port).  In every state reached from start-up, if the
    table answers [p] for [M], then [p] is the number of the interface on
    which the most recent learnt frame with source [M] arrived. *)
Theorem lookup_is_last_seen inputs lt out M p :
  handle_frames gifc lookupTable0 inputs = Some (lt, out) →
  lookup_mac lt M = Some p →
  last_seen gifc inputs M None = Some p.
Proof.
  intros Hrun (k & Hk & Hhit & _ & Hp)%lookup_mac_Some.
  pose proof (handle_frames_fresh gifc inputs (λ _, None) lookupTable0 lt out
                lookupTable0_boot lookupTable0_unique) as Hfresh.
  assert (slots_fresh (λ _ : MacAddress, None) lookupTable0) as H0.
  { intros i Hi. simpl in Hi. lia. }
  specialize (Hfresh H0 Hrun k Hk). simpl in Hfresh.
  apply hit_true in Hhit as [Hm Hocc]. rewrite Hp in *.
  rewrite <- (Hfresh Hocc). apply last_seen_match. by apply mac_match_spec.
Qed.
End RunTheorems.

Lemma lookup_is_last_seen_witness :
  ∃ lt out,
    handle_frames ports_default lookupTable0
      [(1, untagged_A_to_B); (2, untagged_A_to_B)] = Some (lt, out)
    ∧ lookup_mac lt mac_A = Some 2
    ∧ last_seen ports_default [(1, untagged_A_to_B); (2, untagged_A_to_B)]
        mac_A None = Some 2.
Proof.
  eexists _, _. split; [reflexivity|]. split; [reflexivity|].
  eapply lookup_is_last_seen; reflexivity.
Defined.

(** X7 (the return code of [save_to_table]).  On an initialised table
    [save_to_table] returns -1 exactly when the table already answers the
    port of the new entry for its address, and 0 in every other case.
    (On the table of start-up, where [nbr_position = 0], the source
    divides by zero when it stores an address as new; [parse_frame] never
    calls it there.) *)
Theorem save_to_table_code lt new_if :
  lt_wf lt →
  fst (save_to_table lt new_if) =
    if decide (lookup_mac lt (mac new_if) = Some (ifc_num new_if))
    then -1 else 0.
Proof.
  intros _.
  destruct (lookup_mac lt (mac new_if)) as [q|] eqn:Hl.
  - apply lookup_mac_Some in Hl as (k & Hk & Hhit & Hfirst & Hq).
    rewrite (save_to_table_found _ _ k) by done. rewrite Hq.
    destruct (Z.eqb_spec q (ifc_num new_if)) as [-> | Hne]; simpl.
    + by rewrite decide_True.
    + rewrite decide_False; [done|]. by intros [= ?].
  - pose proof (proj1 (lookup_mac_None _ _) Hl) as Hmiss.
    rewrite save_to_table_not_found by done. done.
Qed.

Lemma save_to_table_code_witness :
  lt_wf table_A_at_1
  ∧ fst (save_to_table table_A_at_1 (mkInterface mac_A 1 [] [] 0)) = -1
  ∧ fst (save_to_table table_A_at_1 (mkInterface mac_A 2 [] [] 0)) = 0
  ∧ fst (save_to_table table_A_at_1 (mkInterface mac_B 1 [] [] 0)) = 0.
Proof.
  split; [exact table_A_at_1_wf|].
  split; [|split].
  - exact (save_to_table_code table_A_at_1 (mkInterface mac_A 1 [] [] 0)
             table_A_at_1_wf).
  - exact (save_to_table_code table_A_at_1 (mkInterface mac_A 2 [] [] 0)
             table_A_at_1_wf).
  - exact (save_to_table_code table_A_at_1 (mkInterface mac_B 1 [] [] 0)
             table_A_at_1_wf).
Defined.

(** X8 (an initialised table is empty).  After [lookup_table_init] the
    table has no answer for any address, the all-zero address that the
    slots are initialised with included. *)
Theorem initialised_table_is_empty lt M :
  length (table lt) = Z.to_nat NBR_ENTRIES →
  lookup_mac (lookup_table_init lt) M = None.
Proof.
  intros Hlen. apply lookup_mac_None. intros k Hk.
  assert (k < length (table (lookup_table_init lt)))%nat as Hlt.
  { unfold lookup_table_init in *. simpl in *. rewrite length_fmap. lia. }
  apply slot_lt, lookup_table_init_slot in Hlt as [_ Hs].
  unfold hit. rewrite Hs. by rewrite andb_false_r.
Qed.

Lemma initialised_table_is_empty_witness :
  lookup_mac (lookup_table_init lookupTable0) empty_mac = None.
Proof. apply initialised_table_is_empty. reflexivity. Defined.


(** * The forwarding engine: replies, flooding, tags *)





Lemma bind_ports_sublist (f : Interface → list Emission) (l : list Interface) :
  (∀ g, f g = [] ∨ ∃ e, f g = [e] ∧ em_port e = ifc_num g) →
  (em_port <$> (l ≫= f)) `sublist_of` (ifc_num <$> l).
Proof.
  intros Hf. induction l as [|g l IH]; [done|].
  rewrite bind_cons, !fmap_cons.
  destruct (Hf g) as [-> | (e & -> & <-)]; simpl.
  - by apply sublist_cons.
  - by apply sublist_skip.
Qed.

Lemma tag_then_strip (frame : list Z) :
  (14 ≤ length frame)%nat →
  let t := take 12 frame ++ Q_tag_bytes ++ drop 12 frame in
  take (length t - 4) (take 12 t ++ drop 16 t) = frame.
Proof.
  intros Hlen t.
  assert (length t = (length frame + 4)%nat) as Hl.
  { unfold t. rewrite !length_app, length_take, length_drop.
    change (length Q_tag_bytes) with 4%nat. lia. }
  assert (take 12 t = take 12 frame) as ->.
  { unfold t. rewrite take_app_le by (rewrite length_take; lia).
    rewrite take_take. f_equal. }
  assert (drop 16 t = drop 12 frame) as ->.
  { unfold t. rewrite drop_app_ge by (rewrite length_take; lia).
    rewrite length_take.
    replace (16 - 12 `min` length frame)%nat with 4%nat by lia. done. }
  rewrite take_drop. apply take_ge. lia.
Qed.

Section EngineTheorems.
Variable gifc : list Interface.


(** On the flood paths the ports of the emissions follow the order of
    [gifc], each interface at most once. *)
Lemma flood_ports_sublist lt ifc frame :
  dst_lookup (fst (parse_frame gifc lt ifc frame)) frame = None →
  (em_port <$> snd (parse_frame gifc lt ifc frame))
    `sublist_of` (ifc_num <$> gifc).
Proof.
  rewrite parse_frame_table, parse_frame_eq.
  destruct (learns frame) eqn:Hl; simpl; [|intros _; apply sublist_nil_l].
  intros ->.
  destruct (has_qtag frame); [|destruct (negb _)]; simpl.
  - unfold parse_tagged_frame. destruct (negb _); [apply sublist_nil_l|].
    apply bind_ports_sublist. intros g. unfold parse_tagged_frame_step.
    repeat (destruct (_ =? _)); eauto.
  - apply parse_untagged_frame_loop_ports.
  - apply sublist_nil_l.
Qed.

(** X10 (flooding).  When the table has no answer for the destination
    after the source is learnt (or the destination is a group address),
    the ports of the emissions follow the order of [gifc] with at most one
    emission per interface, and no emission is on the number of the
    ingress interface. *)
Theorem flood_once_per_port_not_ingress lt ifc frame :
  dst_lookup (fst (parse_frame gifc lt ifc frame)) frame = None →
  (em_port <$> snd (parse_frame gifc lt ifc frame))
    `sublist_of` (ifc_num <$> gifc)
  ∧ ifc_num ifc ∉ em_port <$> snd (parse_frame gifc lt ifc frame).
Proof.
  intros Hnone. split; [by apply flood_ports_sublist|].
  revert Hnone. rewrite parse_frame_table, parse_frame_eq.
  destruct (learns frame) eqn:Hl; simpl; [|by intros _ ?%elem_of_nil].
  intros ->. pose proof (learns_length frame Hl) as Hlen.
  intros (e & Heq & He)%list_elem_of_fmap.
  apply (flood_skips_ingress gifc ifc frame e Hlen); [|done].
  destruct (has_qtag frame); [by left|].
  destruct (negb _); [by right | by apply elem_of_nil in He].
Qed.

(** X11 (group destinations).  For a frame whose destination has the
    multicast bit set, the emissions do not depend on the learning
    table. *)
Theorem group_destination_ignores_table lt lt' ifc frame :
  multicast_bit (frame_dst frame) ≠ 0 →
  snd (parse_frame gifc lt ifc frame) = snd (parse_frame gifc lt' ifc frame).
Proof.
  intros Hm. rewrite !parse_frame_eq. unfold dst_lookup.
  destruct (Z.eqb_spec (multicast_bit (frame_dst frame)) 0); [done|].
  destruct (learns frame); simpl; [|done].
  destruct (has_qtag frame); [done|]. by destruct (negb _).
Qed.
End EngineTheorems.

(** X12 (tag, then strip).  If a switch changes a frame without tag on
    its way (it can only insert a tag) and a second switch changes the
    result again, what the second switch sends is the original frame, byte
    for byte.  This is stated for the frame sizes of [tag_safe]: for the
    others the first switch sends, from its second tagged port on, bytes
    that are not the frame with a tag inserted. *)
Theorem tagged_then_stripped_is_original gifc lt ifc gifc' lt' ifc' frame e e' :
  has_qtag frame = false →
  tag_safe (length frame) →
  e ∈ snd (parse_frame gifc lt ifc frame) →
  e' ∈ snd (parse_frame gifc' lt' ifc' (em_frame e)) →
  em_frame e = frame ∨ em_frame e' = em_frame e ∨ em_frame e' = frame.
Proof.
  intros Hq Hsafe He He'.
  rewrite parse_frame_eq in He.
  destruct (learns frame) eqn:Hl; simpl in He; [|by apply elem_of_nil in He].
  pose proof (learns_length frame Hl) as Hlen.
  destruct (dst_lookup _ _) as [q|]; simpl in He.
  { apply list_elem_of_singleton in He as ->. by left. }
  rewrite Hq in He. destruct (negb _); simpl in He; [|by apply elem_of_nil in He].
  unfold parse_untagged_frame in He.
  apply elem_of_parse_untagged_frame_loop_safe in He as [Hf | Hf];
    [by left | | done | done | apply byte_frame_intact_start].
  right. rewrite Hf in *.
  set (t := take 12 frame ++ Q_tag_bytes ++ drop 12 frame) in *.
  rewrite parse_frame_eq in He'.
  destruct (learns t) eqn:Hlt; simpl in He'; [|by apply elem_of_nil in He'].
  pose proof (learns_length t Hlt) as Hlent.
  destruct (dst_lookup _ _) as [q|]; simpl in He'.
  { apply list_elem_of_singleton in He' as ->. by left. }
  assert (has_qtag t = true) as Hqt by (apply tag_has_qtag; lia).
  rewrite Hqt in He'.
  apply elem_of_parse_tagged_frame in He'
    as (_ & g' & _ & _ & _ & [[_ Hf'] | (_ & _ & Hf')]); [by left | | done].
  right. rewrite Hf'. by apply tag_then_strip.
Qed.


(** * What the parser configures *)

Lemma sscanf_u_range s v : sscanf_u s = Some v → 0 ≤ v < 2 ^ 32.
Proof.
  unfold sscanf_u. cbv zeta.
  assert (∀ (neg : bool) w,
    0 ≤ (if w >? 2 ^ 64 - 1 then 2 ^ 32 - 1
         else (if neg then - w else w) `mod` 2 ^ 32) < 2 ^ 32) as Hs.
  { intros neg w. destruct (w >? 2 ^ 64 - 1); [lia|].
    apply Z.mod_pos_bound. lia. }
  repeat destruct (decide _);
    destruct (scan_digits _ _ _); simpl; intros [= <-];
    first [apply (Hs false) | apply (Hs true)].
Qed.

Lemma array_store_length arr i v :
  length (array_store arr i v) = (length arr `max` S i)%nat.
Proof.
  unfold array_store. destruct (Nat.ltb_spec i (length arr)).
  - rewrite length_insert. lia.
  - rewrite !length_app, length_replicate. simpl. lia.
Qed.

Lemma array_store_take arr i v :
  (i ≤ length arr)%nat → take (S i) (array_store arr i v) = take i arr ++ [v].
Proof.
  intros Hi. unfold array_store. destruct (Nat.ltb_spec i (length arr)).
  - rewrite (take_S_r _ _ v) by (rewrite list_lookup_insert_eq by lia; done).
    by rewrite take_insert_ge by lia.
  - assert (i = length arr) as -> by lia.
    rewrite Nat.sub_diag. simpl.
    rewrite take_ge by (rewrite length_app; simpl; lia).
    by rewrite firstn_all.
Qed.

Lemma vlans_upto_terminator_app tags rest :
  Forall (λ v, 0 ≤ v) tags →
  vlans_upto_terminator (tags ++ NO_VLAN :: rest) = tags.
Proof.
  induction 1 as [|v tags Hv _ IH]; simpl; [done|].
  destruct (Z.eqb_spec v NO_VLAN) as [E | _]; [unfold NO_VLAN in E; lia|].
  by rewrite IH.
Qed.

Lemma parse_tagged_loop_vlans toks : ∀ pos ifc,
  (pos ≤ length (tagged_vlans ifc))%nat →
  Z.of_nat pos ≤ MAX_VLANS →
  match parse_tagged_loop toks pos ifc with
  | (None, pos', ifc') =>
      ∃ tags, mapM sscanf_u toks = Some tags
        ∧ Forall (λ v, 0 ≤ v ≤ MAX_VLANS) tags
        ∧ pos' = (pos + length toks)%nat
        ∧ Z.of_nat pos' ≤ MAX_VLANS
        ∧ take pos' (tagged_vlans ifc') = take pos (tagged_vlans ifc) ++ tags
        ∧ (pos' ≤ length (tagged_vlans ifc'))%nat
        ∧ (length (tagged_vlans ifc')
           ≤ length (tagged_vlans ifc) `max` pos')%nat
        ∧ untagged_vlan ifc' = untagged_vlan ifc
        ∧ ifc_name ifc' = ifc_name ifc
        ∧ same_port ifc' ifc
  | (Some _, _, ifc') =>
      (length (tagged_vlans ifc')
       ≤ length (tagged_vlans ifc) `max` Z.to_nat MAX_VLANS)%nat
      ∧ same_port ifc' ifc
  end.
Proof.
  induction toks as [|tok toks IH]; intros pos ifc Hpos Hmax; simpl.
  - exists []. rewrite app_nil_r, Nat.add_0_r. split_and!; try done; lia.
  - destruct (Z.eqb_spec (Z.of_nat pos) MAX_VLANS) as [Heq | Hne].
    { split; [lia | done]. }
    destruct (sscanf_u tok) as [v|] eqn:Hv; [|split; [lia | done]].
    destruct (Z.gtb_spec v MAX_VLANS) as [Hbig | Hok]; [split; [lia | done]|].
    set (ifc1 := set_tagged_vlans (array_store (tagged_vlans ifc) pos v) ifc).
    assert (length (tagged_vlans ifc1)
            = (length (tagged_vlans ifc) `max` S pos)%nat) as Hl1
      by apply array_store_length.
    specialize (IH (S pos) ifc1 ltac:(lia) ltac:(lia)).
    destruct (parse_tagged_loop toks (S pos) ifc1) as [[[r|] pos'] ifc'].
    + destruct IH as [IH1 IH2]. split; [|done].
      unfold MAX_VLANS in *. lia.
    + destruct IH as (tags & Hm & Hall & -> & Hle & Htake & Hp & Hlen & Hu & Hn
                      & Hs).
      exists (v :: tags). rewrite Hm. simpl.
      split_and!; try done; try lia.
      * constructor; [|done]. apply sscanf_u_range in Hv. lia.
      * change (S (pos + length toks)) with (S pos + length toks)%nat.
        rewrite Htake. unfold ifc1. simpl.
        rewrite array_store_take by done. by rewrite <- app_assoc.
Qed.

Lemma tagged_result_vlans vids ifc ifc' :
  tagged_result vids (reset_vlans ifc) = (0, ifc') →
  ∃ tags rest, mapM sscanf_u (strtok_all ","%char vids []) = Some tags
    ∧ Forall (λ v, 0 ≤ v ≤ MAX_VLANS) tags
    ∧ Z.of_nat (length tags) ≤ MAX_VLANS
    ∧ tagged_vlans ifc' = tags ++ NO_VLAN :: rest
    ∧ vlans_upto_terminator (tagged_vlans ifc') = tags
    ∧ untagged_vlan ifc' = NO_VLAN
    ∧ ifc_name ifc' = ifc_name ifc.
Proof.
  unfold tagged_result.
  pose proof (parse_tagged_loop_vlans (strtok_all ","%char vids []) 0
                (reset_vlans ifc)) as H.
  pose proof (parse_tagged_loop_spec (strtok_all ","%char vids []) 0
                (reset_vlans ifc) ltac:(done)) as Hspec.
  destruct (parse_tagged_loop _ _ _) as [[[r|] pos] ifc1].
  { destruct Hspec as [-> _]. done. }
  intros [= <-]. simpl.
  destruct H as (tags & Hm & Hall & -> & Hle & Htake & Hp & Hlen & Hu & Hn & Hs);
    [simpl; lia | done |].
  simpl in *.
  set (arr := tagged_vlans ifc1) in *.
  set (n := length (strtok_all ","%char vids [])) in *.
  assert (array_store arr n NO_VLAN
          = tags ++ NO_VLAN :: drop (S n) (array_store arr n NO_VLAN)) as Harr.
  { rewrite <- (take_drop (S n) (array_store arr n NO_VLAN)) at 1.
    rewrite array_store_take by done. by rewrite Htake, <- app_assoc. }
  exists tags, (drop (S n) (array_store arr n NO_VLAN)).
  split_and!; try done.
  - apply length_mapM in Hm. fold n in Hm. lia.
  - rewrite Harr. apply vlans_upto_terminator_app.
    eapply Forall_impl; [exact Hall|]. simpl. lia.
Qed.

Lemma vlans_upto_terminator_reset arr :
  vlans_upto_terminator (array_store arr 0 NO_VLAN) = [].
Proof. unfold array_store. by destruct arr. Qed.

Lemma untagged_result_vlan vid ifc ifc' :
  untagged_result vid ifc = (0, ifc') →
  sscanf_u vid = Some (untagged_vlan ifc')
  ∧ 0 ≤ untagged_vlan ifc' ≤ MAX_VLANS
  ∧ tagged_vlans ifc' = tagged_vlans ifc.
Proof.
  unfold untagged_result. destruct (sscanf_u vid) as [v|] eqn:Hv; [|done].
  destruct (Z.gtb_spec v MAX_VLANS); [done|]. intros [= <-]. simpl.
  apply sscanf_u_range in Hv. split_and!; [done | lia | lia | done].
Qed.

(** X13 (what an accepted specification configures).  When
    [parse_vlan_args] returns 0, the interface has no untagged VLAN, or it
    has one within [0 .. MAX_VLANS] and its tagged list is empty; the
    tagged VLANs up to the terminator are within [0 .. MAX_VLANS], and
    there are at most [MAX_VLANS] of them. *)
Theorem parse_vlan_args_membership arg ifc ifc' :
  parse_vlan_args arg ifc = (0, ifc') →
  (untagged_vlan ifc' = NO_VLAN
   ∨ (0 ≤ untagged_vlan ifc' ≤ MAX_VLANS
      ∧ vlans_upto_terminator (tagged_vlans ifc') = []))
  ∧ Forall (λ v, 0 ≤ v ≤ MAX_VLANS) (vlans_upto_terminator (tagged_vlans ifc'))
  ∧ Z.of_nat (length (vlans_upto_terminator (tagged_vlans ifc'))) ≤ MAX_VLANS.
Proof.
  destruct (strchr_cases arg "["%char) as [Hbare | (name & rest & -> & Hname)].
  { rewrite parse_vlan_args_bare by done. intros [= <-]. simpl.
    rewrite vlans_upto_terminator_reset. split_and!; [|done|done].
    right. done. }
  destruct (strchr_cases rest "]"%char) as [Hopen | (body & tail & -> & Hbody)].
  { by rewrite parse_vlan_args_unclosed by done. }
  rewrite parse_vlan_args_closed by done. cbv zeta.
  destruct body as [|l [|c spec]]; [done | done |].
  repeat destruct (decide _); try done.
  - change (set_ifc_name name (reset_vlans ifc))
      with (reset_vlans (set_ifc_name name ifc)).
    intros (tags & rest' & _ & Hall & Hlen & _ & -> & Hu & _)%tagged_result_vlans.
    split_and!; [by left | done | done].
  - intros (_ & Hr & Ht)%untagged_result_vlan. rewrite Ht. simpl.
    rewrite vlans_upto_terminator_reset. split_and!; [by right | done | done].
Qed.

Lemma tagged_vlans_0_head arr :
  arr ≠ [] →
  cell_at arr 0 = default NO_VLAN (head (vlans_upto_terminator arr)).
Proof.
  destruct arr as [|v arr]; [done|]. intros _. simpl.
  by destruct (Z.eqb_spec v NO_VLAN) as [-> | ?].
Qed.

(** X14 (the tagged list).  For an accepted specification
    [name[T:vids]], the tagged VLANs of the interface up to the terminator
    are the numbers that [sscanf] reads from the comma-separated tokens of
    [vids], in order; [tagged_vlans[0]] is the first of them, or [NO_VLAN]
    when there is none; the interface has no untagged VLAN; and its name is
    the text before the bracket. *)
Theorem tagged_spec_vlans name vids tail ifc ifc' :
  "["%char ∉ name → "]"%char ∉ vids →
  parse_vlan_args (name ++ cstr "[T:" ++ vids ++ "]"%char :: tail) ifc
  = (0, ifc') →
  mapM sscanf_u (strtok_all ","%char vids [])
  = Some (vlans_upto_terminator (tagged_vlans ifc'))
  ∧ tagged_vlans_0 ifc'
    = default NO_VLAN (head (vlans_upto_terminator (tagged_vlans ifc')))
  ∧ untagged_vlan ifc' = NO_VLAN
  ∧ ifc_name ifc' = name.
Proof.
  intros Hname Hvids.
  change (name ++ cstr "[T:" ++ vids ++ "]"%char :: tail)
    with (name ++ "["%char :: ("T"%char :: ":"%char :: vids) ++ "]"%char :: tail).
  rewrite parse_vlan_args_closed; [|done|].
  2: { intros [? | [? | ?]%elem_of_cons]%elem_of_cons; done. }
  cbv zeta. rewrite !decide_True by done.
  change (set_ifc_name name (reset_vlans ifc))
    with (reset_vlans (set_ifc_name name ifc)).
  intros (tags & rest & Hm & _ & _ & Harr & Ht & Hu & Hn)%tagged_result_vlans.
  rewrite Ht. split_and!; try done.
  unfold tagged_vlans_0. rewrite <- Ht. apply tagged_vlans_0_head.
  rewrite Harr. by destruct tags.
Qed.

(** The parser stores to [ifc_name], [tagged_vlans] and [untagged_vlan]
    only, and its stores to [tagged_vlans] stay inside the array. *)
Lemma parse_vlan_args_frame arg ifc :
  same_port (snd (parse_vlan_args arg ifc)) ifc
  ∧ ((length (tagged_vlans ifc) ≤ Z.to_nat MAX_VLANS + 1)%nat →
     (length (tagged_vlans (snd (parse_vlan_args arg ifc)))
      ≤ Z.to_nat MAX_VLANS + 1)%nat).
Proof.
  unfold parse_vlan_args. fold (reset_vlans ifc). cbv zeta.
  assert (length (tagged_vlans (reset_vlans ifc))
          = (length (tagged_vlans ifc) `max` 1)%nat) as Hr
    by apply array_store_length.
  assert (same_port (reset_vlans ifc) ifc) as Hs by done.
  generalize dependent (reset_vlans ifc). intros r Hr [Hs1 Hs2].
  assert (∀ start end_ i,
    same_port i ifc →
    length (tagged_vlans i) = (length (tagged_vlans ifc) `max` 1)%nat →
    same_port (snd (parse_tagged start end_ i)) ifc
    ∧ ((length (tagged_vlans ifc) ≤ Z.to_nat MAX_VLANS + 1)%nat →
       (length (tagged_vlans (snd (parse_tagged start end_ i)))
        ≤ Z.to_nat MAX_VLANS + 1)%nat)) as Ht.
  { intros start end_ i [Hi1 Hi2] Hl. unfold parse_tagged.
    destruct (decide _); simpl; [split; [done | unfold MAX_VLANS in *; lia]|].
    pose proof (parse_tagged_loop_vlans
                  (strtok_all ","%char (strndup (drop 1 start) (end_ - 1)) [])
                  0 i ltac:(lia) ltac:(done)) as H.
    destruct (parse_tagged_loop _ _ _) as [[[c|] pos] ifc1]; simpl.
    - destruct H as [Hlen [? ?]]. split; [split; congruence|].
      unfold MAX_VLANS in *. lia.
    - destruct H as (tags & _ & _ & _ & Hle & _ & _ & Hlen & _ & _ & [? ?]).
      split; [split; simpl; congruence|].
      rewrite array_store_length. unfold MAX_VLANS in *. lia. }
  assert (∀ i : Interface,
    same_port i ifc →
    length (tagged_vlans i) = (length (tagged_vlans ifc) `max` 1)%nat →
    same_port i ifc
    ∧ ((length (tagged_vlans ifc) ≤ Z.to_nat MAX_VLANS + 1)%nat →
       (length (tagged_vlans i) ≤ Z.to_nat MAX_VLANS + 1)%nat)) as Hi.
  { intros i ? Hl. split; [done|]. unfold MAX_VLANS in *. lia. }
  destruct (strchr arg "["%char) as [k|]; cbn [snd];
    [|apply Hi; [by split | exact Hr]].
  destruct (strchr _ _) as [c|]; cbn [snd];
    [|apply Hi; [by split | exact Hr]].
  destruct (decide _); [apply Ht; [by split | exact Hr]|].
  destruct (decide _); cbn [snd]; [|apply Hi; [by split | exact Hr]].
  unfold parse_untagged.
  destruct (decide _); cbn [snd]; [apply Hi; [by split | exact Hr]|].
  destruct (sscanf_u _); cbn [snd]; [destruct (_ >? _); cbn [snd]|];
    (apply Hi; [by split | exact Hr]).
Qed.

Lemma main_ifcs_numbers args : ∀ i gifc,
  main_ifcs args i = inr gifc →
  length gifc = length args
  ∧ ∀ k, (k < length args)%nat →
         ifc_num (slot gifc k) = (i + Z.of_nat k) `mod` 65536.
Proof.
  induction args as [|arg args IH]; intros i gifc; simpl.
  { intros [= <-]. split; [done|]. intros k Hk. simpl in Hk. lia. }
  pose proof (proj1 (parse_vlan_args_frame arg
                       (set_ifc_num (i `mod` 65536) zero_Interface))) as [_ Hn].
  destruct (parse_vlan_args arg _) as [r ifc]. simpl in Hn.
  destruct r as [|r|r]; try done.
  destruct (main_ifcs args (i + 1)) as [r|l] eqn:Hrest; [done|].
  intros [= <-]. destruct (IH _ _ Hrest) as [Hlen Hnum]. simpl.
  split; [by rewrite Hlen|].
  intros [|k] Hk; simpl.
  - unfold slot. simpl. rewrite Hn. f_equal. lia.
  - change (slot (ifc :: l) (S k)) with (slot l k).
    rewrite Hnum by lia. f_equal. lia.
Qed.

(** X15 (interface numbers).  When [main] accepts every specification,
    there is one interface per argument, and the interface that
    [handle_frame] selects for the interface number [n], [gifc[n - 1]],
    carries [ifc_num = n] (modulo 2^16, the width of the field). *)
Theorem main_numbers_interfaces args gifc :
  main args = inr gifc →
  length gifc = length args
  ∧ ∀ interface, 0 < interface ≤ Z.of_nat (length args) →
      ifc_num (slot gifc (Z.to_nat (interface - 1))) = interface `mod` 65536.
Proof.
  intros [Hlen Hnum]%main_ifcs_numbers. split; [done|].
  intros n Hn. rewrite Hnum by lia. f_equal. lia.
Qed.

(** X16 (the stores of the parser).  Whatever the specification and the
    result, [parse_vlan_args] stores no VLAN beyond index [MAX_VLANS] of
    [tagged_vlans], and it leaves [mac] and [ifc_num] as they are. *)
Theorem parse_vlan_args_stores_in_bounds arg ifc :
  (length (tagged_vlans ifc) ≤ Z.to_nat MAX_VLANS + 1)%nat →
  (length (tagged_vlans (snd (parse_vlan_args arg ifc)))
   ≤ Z.to_nat MAX_VLANS + 1)%nat
  ∧ mac (snd (parse_vlan_args arg ifc)) = mac ifc
  ∧ ifc_num (snd (parse_vlan_args arg ifc)) = ifc_num ifc.
Proof.
  intros H. destruct (parse_vlan_args_frame arg ifc) as [[? ?] Hl]. auto.
Qed.


(** * The driver loop *)

Lemma header_field_range buf i : 0 ≤ header_field buf i < 65536.
Proof.
  unfold header_field. change 65535 with (Z.ones 16).
  rewrite Z.land_ones by lia. apply Z.mod_pos_bound. lia.
Qed.

Lemma ntohs_htons v :
  Z.land (ntohs (cell_at (htons v) 0, cell_at (htons v) 1)) 0xFFFF
  = v `mod` 65536.
Proof.
  unfold htons, ntohs, cell_at. simpl.
  change 65535 with (Z.ones 16). rewrite Z.land_ones by lia.
  assert (Z.lor ((v `mod` 65536 / 256) ≪ 8) (v `mod` 256) = v `mod` 65536)
    as ->; [|apply Z.mod_mod; lia].
  rewrite <- Z.lxor_lor, <- Z.add_nocarry_lxor.
  - rewrite Z.shiftl_mul_pow2 by lia.
    change (2 ^ 8) with 256.
    replace (v `mod` 256) with ((v `mod` 65536) `mod` 256).
    + pose proof (Z.div_mod (v `mod` 65536) 256). lia.
    + rewrite (Z.mod_eq v 65536) by lia.
      replace (v - 65536 * (v / 65536))
        with (v + (- 256 * (v / 65536)) * 256) by lia.
      apply Z_mod_plus_full.
  - apply Z.bits_inj'. intros n Hn. rewrite Z.land_spec, Z.bits_0.
    destruct (Z.ltb_spec n 8).
    + by rewrite Z.shiftl_spec_low.
    + change 256 with (2 ^ 8) at 2.
      rewrite Z.mod_pow2_bits_high by lia. apply andb_false_r.
  - apply Z.bits_inj'. intros n Hn. rewrite Z.land_spec, Z.bits_0.
    destruct (Z.ltb_spec n 8).
    + by rewrite Z.shiftl_spec_low.
    + change 256 with (2 ^ 8) at 2.
      rewrite Z.mod_pow2_bits_high by lia. apply andb_false_r.
Qed.

(** Fuel beyond the length of the buffer changes nothing. *)
Lemma drain_fuel fuel : ∀ fuel' st buf,
  (length buf ≤ fuel)%nat → (length buf ≤ fuel')%nat →
  drain fuel st buf = drain fuel' st buf.
Proof.
  induction fuel as [|fuel IH]; intros fuel' st buf Hf Hf'.
  - destruct buf; [|simpl in Hf; lia]. by destruct fuel'.
  - destruct fuel' as [|fuel'].
    { destruct buf; [done | simpl in Hf'; lia]. }
    simpl. destruct (Nat.leb_spec (length buf) 4); [done|].
    destruct (Nat.ltb_spec (length buf) (Z.to_nat (header_field buf 0)));
      [done|].
    destruct (Nat.ltb_spec (Z.to_nat (header_field buf 0)) 4); [done|].
    destruct (dispatch _ _ _) as [[st' out]|]; [|done].
    rewrite (IH fuel'); [done | |]; rewrite length_drop; lia.
Qed.

Lemma drain_all_eq st buf :
  drain_all st buf =
    if (length buf <=? 4)%nat then Some (st, buf, [])
    else
      let size := Z.to_nat (header_field buf 0) in
      if (length buf <? size)%nat then Some (st, buf, [])
      else if (size <? 4)%nat then None
      else
        match dispatch st (header_field buf 2)
                (take (size - 4) (drop 4 buf)) with
        | None => None
        | Some (st', out) =>
            match drain_all st' (drop size buf) with
            | None => None
            | Some (st'', buf', out') => Some (st'', buf', out ++ out')
            end
        end.
Proof.
  unfold drain_all. destruct buf as [|b buf]; [done|].
  set (l := b :: buf). change (length l) with (S (length buf)) at 1.
  cbn [drain]. destruct (Nat.leb_spec (length l) 4); [done|]. cbv zeta.
  destruct (Nat.ltb_spec (length l) (Z.to_nat (header_field l 0))); [done|].
  destruct (Nat.ltb_spec (Z.to_nat (header_field l 0)) 4); [done|].
  destruct (dispatch _ _ _) as [[st' out]|]; [|done].
  rewrite (drain_fuel (length buf) (length (drop (Z.to_nat (header_field l 0)) l)));
    [done | | done].
  rewrite length_drop. change (length l) with (S (length buf)) in *. lia.
Qed.

Lemma drain_all_waiting st buf : waiting buf → drain_all st buf = Some (st, buf, []).
Proof.
  intros [H | H]; rewrite drain_all_eq.
  - by destruct (Nat.leb_spec (length buf) 4); [|lia].
  - destruct (Nat.leb_spec (length buf) 4); [done|]. cbv zeta.
    by destruct (Nat.ltb_spec (length buf) (Z.to_nat (header_field buf 0)));
      [|lia].
Qed.

(** What the inner loop leaves in the buffer holds no complete message. *)
Lemma drain_all_leaves_waiting n : ∀ st buf st' buf' out,
  (length buf ≤ n)%nat →
  drain_all st buf = Some (st', buf', out) →
  waiting buf' ∧ ∃ k, buf' = drop k buf.
Proof.
  induction n as [|n IH]; intros st buf st' buf' out Hn; rewrite drain_all_eq.
  - destruct (Nat.leb_spec (length buf) 4); [|lia].
    intros [= <- <- <-]. split; [by left | by exists 0%nat].
  - destruct (Nat.leb_spec (length buf) 4).
    { intros [= <- <- <-]. split; [by left | by exists 0%nat]. }
    cbv zeta.
    destruct (Nat.ltb_spec (length buf) (Z.to_nat (header_field buf 0))).
    { intros [= <- <- <-]. split; [by right | by exists 0%nat]. }
    destruct (Nat.ltb_spec (Z.to_nat (header_field buf 0)) 4); [done|].
    destruct (dispatch _ _ _) as [[st1 out1]|]; [|done].
    destruct (drain_all st1 _) as [[[st2 buf2] out2]|] eqn:Hrest; [|done].
    intros [= <- <- <-].
    apply IH in Hrest as [Hw [k ->]]; [|rewrite length_drop; lia].
    split; [done|]. rewrite drop_drop. eauto.
Qed.

Lemma header_field_app buf rest i :
  (S i < length buf)%nat → header_field (buf ++ rest) i = header_field buf i.
Proof.
  intros H. unfold header_field, cell_at.
  by rewrite !lookup_app_l by lia.
Qed.

(** Bytes that arrive later do not change what the inner loop does with
    the bytes it has. *)
Lemma drain_all_app n : ∀ st buf more,
  (length buf ≤ n)%nat →
  drain_all st (buf ++ more) =
    match drain_all st buf with
    | None => None
    | Some (st', buf', out) =>
        match drain_all st' (buf' ++ more) with
        | None => None
        | Some (st'', buf'', out') => Some (st'', buf'', out ++ out')
        end
    end.
Proof.
  assert (∀ (x : option (LoopState * list Z * list Emission)),
    x = match x with
        | None => None
        | Some (st'', buf'', out') => Some (st'', buf'', [] ++ out')
        end) as Hid by (by intros [[[??]?]|]).
  induction n as [|n IH]; intros st buf more Hn;
    rewrite (drain_all_eq st buf).
  - destruct (Nat.leb_spec (length buf) 4); [|lia]. apply Hid.
  - destruct (Nat.leb_spec (length buf) 4); [apply Hid|]. cbv zeta.
    destruct (Nat.ltb_spec (length buf) (Z.to_nat (header_field buf 0)));
      [apply Hid|].
    rewrite (drain_all_eq st (buf ++ more)).
    rewrite length_app, !header_field_app by lia.
    destruct (Nat.leb_spec (length buf + length more) 4); [lia|]. cbv zeta.
    destruct (Nat.ltb_spec (length buf + length more)
                (Z.to_nat (header_field buf 0))); [lia|].
    destruct (Nat.ltb_spec (Z.to_nat (header_field buf 0)) 4); [done|].
    rewrite drop_app_le, take_app_le by (rewrite ?length_drop; lia).
    destruct (dispatch _ _ _) as [[st1 out1]|]; [|done].
    rewrite drop_app_le by lia.
    rewrite IH by (rewrite length_drop; lia).
    destruct (drain_all st1 (drop _ buf)) as [[[st2 buf2] out2]|]; [|done].
    destruct (drain_all st2 (buf2 ++ more)) as [[[st3 buf3] out3]|]; [|done].
    by rewrite app_assoc.
Qed.


Lemma waiting_lt buf : waiting buf → (length buf < Z.to_nat UINT16_MAX)%nat.
Proof.
  pose proof (header_field_range buf 0).
  unfold UINT16_MAX. intros [? | ?]; lia.
Qed.

Lemma loop_from_drain sched : ∀ st buf input,
  Forall (λ k, 0 < k)%nat sched →
  (length input ≤ length sched)%nat →
  waiting buf →
  loop_from sched st buf input =
    match drain_all st (buf ++ input) with
    | None => None
    | Some (st', _, out) => Some (st', out)
    end.
Proof.
  induction sched as [|k sched IH]; intros st buf input Hpos Hlen Hw.
  { destruct input; [|simpl in Hlen; lia].
    rewrite app_nil_r, drain_all_waiting by done. done. }
  apply Forall_cons in Hpos as [Hk Hpos].
  pose proof (waiting_lt buf Hw) as Hb.
  cbn [loop_from]. cbv zeta.
  set (ret := (k `min` ((Z.to_nat UINT16_MAX - length buf) `min` length input))%nat).
  destruct (Nat.eqb_spec ret 0) as [H0 | H0].
  { assert (input = []) as -> by (destruct input; [done | simpl in *; lia]).
    rewrite app_nil_r, drain_all_waiting by done. done. }
  replace (buf ++ input) with ((buf ++ take ret input) ++ drop ret input)
    by (by rewrite <- app_assoc, take_drop).
  rewrite (drain_all_app (length (buf ++ take ret input)) st
             (buf ++ take ret input) (drop ret input)) by lia.
  destruct (drain_all st (buf ++ take ret input))
    as [[[st1 buf1] out1]|] eqn:H1; [|done].
  apply (drain_all_leaves_waiting (length (buf ++ take ret input))) in H1
    as [Hw1 _]; [|lia].
  rewrite IH; [|done | rewrite length_drop; simpl in Hlen; lia | done].
  by destruct (drain_all st1 _) as [[[??]?]|].
Qed.

Lemma htons_length v : length (htons v) = 2%nat.
Proof. done. Qed.

Lemma header_field_wire e rest :
  header_field (wire e ++ rest) 0
  = Z.of_nat (length (em_frame e) + 4) `mod` 65536
  ∧ header_field (wire e ++ rest) 2 = em_port e `mod` 65536.
Proof.
  unfold wire. split.
  - unfold header_field. rewrite <- ntohs_htons. done.
  - unfold header_field. rewrite <- ntohs_htons. done.
Qed.

Lemma drain_all_wire es : ∀ st,
  Forall deliverable es →
  drain_all st (es ≫= wire) =
    match handle_frames (ls_gifc st) (ls_table st) (received <$> es) with
    | None => None
    | Some (lt', out) =>
        Some (mkLoopState (ls_gifc st) lt' (have_mac st), [], out)
    end.
Proof.
  induction es as [|e es IH]; intros st Hall.
  { by destruct st. }
  apply Forall_cons in Hall as [(Hp & Hne & Hlen) Hall].
  rewrite bind_cons, fmap_cons. cbn [handle_frames received].
  rewrite drain_all_eq.
  destruct (header_field_wire e (es ≫= wire)) as [-> ->].
  unfold UINT16_MAX in *.
  rewrite !Z.mod_small by lia.
  assert (length (wire e) = (length (em_frame e) + 4)%nat) as Hl.
  { unfold wire. rewrite !length_app, !htons_length. lia. }
  assert (0 < length (em_frame e))%nat by (destruct (em_frame e); simpl; done || lia).
  rewrite length_app, Hl, Nat2Z.id.
  destruct (Nat.leb_spec (length (em_frame e) + 4 + length (es ≫= wire)) 4);
    [lia|].
  cbv zeta.
  destruct (Nat.ltb_spec (length (em_frame e) + 4 + length (es ≫= wire))
              (length (em_frame e) + 4)); [lia|].
  destruct (Nat.ltb_spec (length (em_frame e) + 4) 4); [lia|].
  assert (drop 4 (wire e ++ es ≫= wire) = em_frame e ++ es ≫= wire) as ->.
  { unfold wire. by rewrite <- !app_assoc. }
  replace (length (em_frame e) + 4 - 4)%nat with (length (em_frame e)) by lia.
  rewrite take_app_length.
  rewrite <- Hl, drop_app_length.
  unfold dispatch. destruct (Z.eqb_spec (em_port e) 0); [lia|].
  destruct (handle_frame _ _ _ _) as [[lt1 out1]|]; [|done].
  rewrite IH by done. simpl.
  by destruct (handle_frames _ _ _) as [[lt2 out2]|].
Qed.

(** X17 (read sizes).  What [loop] does (the final state and the
    emissions, or the abort) does not depend on how [read] splits the
    input: two runs in which every call of [read] finds at least one byte,
    with enough calls to read the whole input, agree. *)
Theorem loop_independent_of_read_sizes gifc sched sched' input :
  Forall (λ k, 0 < k)%nat sched → Forall (λ k, 0 < k)%nat sched' →
  (length input ≤ length sched)%nat → (length input ≤ length sched')%nat →
  loop gifc sched input = loop gifc sched' input.
Proof.
  intros H1 H2 Hl1 Hl2. unfold loop.
  rewrite !loop_from_drain; try done; left; simpl; lia.
Qed.

(** X18 ([loop] reads what [forward_to] writes).  On the concatenated
    envelopes of frames, each non-empty, at most 65531 bytes long and for
    an interface number in 1..65535, [loop] hands these frames to
    [handle_frame] in order: the final table and the emissions are those of
    [handle_frames], and it aborts in the same cases. *)
Theorem loop_decodes_forwarded_frames sched st es :
  Forall (λ k, 0 < k)%nat sched →
  (length (es ≫= wire) ≤ length sched)%nat →
  Forall deliverable es →
  loop_from sched st [] (es ≫= wire) =
    match handle_frames (ls_gifc st) (ls_table st) (received <$> es) with
    | None => None
    | Some (lt', out) =>
        Some (mkLoopState (ls_gifc st) lt' (have_mac st), out)
    end.
Proof.
  intros Hs Hl He.
  rewrite loop_from_drain; [|done | done | left; simpl; lia].
  rewrite app_nil_l, drain_all_wire by done.
  by destruct (handle_frames _ _ _) as [[??]|].
Qed.


(** * [write_all] and control messages *)

Lemma write_all_prefix rets cbuf : ∀ off,
  fst (write_all rets cbuf off) `prefix_of` drop off cbuf
  ∧ (snd (write_all rets cbuf off) = Written →
     fst (write_all rets cbuf off) = drop off cbuf).
Proof.
  induction rets as [|r rets IH]; intros off; simpl.
  - destruct (Nat.ltb_spec off (length cbuf)); simpl.
    + split; [apply prefix_nil | done].
    + rewrite drop_ge by lia. done.
  - destruct (Nat.ltb_spec off (length cbuf)); simpl.
    2: { rewrite drop_ge by lia. done. }
    destruct (Z.leb_spec (Z.min r (Z.of_nat (length cbuf - off))) 0); simpl.
    { split; [apply prefix_nil | done]. }
    set (n := Z.to_nat (Z.min r (Z.of_nat (length cbuf - off)))).
    destruct (IH (off + n)%nat) as [Hp Hw].
    destruct (write_all rets cbuf (off + n)) as [written e]. simpl in *.
    rewrite <- (take_drop n (drop off cbuf)) at 2 4.
    rewrite drop_drop. split.
    + by apply prefix_app.
    + intros ->. by rewrite Hw.
Qed.

Lemma write_all_complete rets cbuf : ∀ off,
  Forall (λ r, 0 < r) rets →
  (length cbuf - off ≤ length rets)%nat →
  write_all rets cbuf off = (drop off cbuf, Written).
Proof.
  induction rets as [|r rets IH]; intros off Hpos Hlen; simpl.
  - destruct (Nat.ltb_spec off (length cbuf)); [simpl in Hlen; lia|].
    by rewrite drop_ge by lia.
  - destruct (Nat.ltb_spec off (length cbuf)).
    2: { by rewrite drop_ge by lia. }
    apply Forall_cons in Hpos as [Hr Hpos].
    destruct (Z.leb_spec (Z.min r (Z.of_nat (length cbuf - off))) 0); [lia|].
    set (n := Z.to_nat (Z.min r (Z.of_nat (length cbuf - off)))).
    rewrite IH; [|done | simpl in Hlen; lia].
    rewrite <- drop_drop, take_drop. done.
Qed.

(** X19 ([write_all] under partial writes).  If every call of [write]
    returns a positive count, [write_all] writes the whole buffer, byte for
    byte, and returns, however the counts split the buffer. *)
Theorem write_all_writes_everything rets cbuf :
  Forall (λ r, 0 < r) rets → (length cbuf ≤ length rets)%nat →
  write_all rets cbuf 0 = (cbuf, Written).
Proof.
  intros Hpos Hlen. rewrite write_all_complete; [done | done | lia].
Qed.

Lemma write_all_exited rets cbuf : ∀ off,
  snd (write_all rets cbuf off) = Exited → ∃ r, r ∈ rets ∧ r ≤ 0.
Proof.
  induction rets as [|r rets IH]; intros off; simpl.
  - by destruct (_ <? _)%nat.
  - destruct (Nat.ltb_spec off (length cbuf)); [|done].
    destruct (Z.leb_spec (Z.min r (Z.of_nat (length cbuf - off))) 0); simpl.
    + intros _. exists r. split; [left | lia].
    + specialize (IH (off + Z.to_nat (Z.min r (Z.of_nat (length cbuf - off))))%nat).
      destruct (write_all rets cbuf _) as [w e]. simpl in *.
      intros (r' & ? & ?)%IH. exists r'. split; [by right | done].
Qed.

(** X20 ([write_all] writes a prefix).  Whatever [write] returns, the
    bytes written are a prefix of the buffer; they are the whole buffer
    when [write_all] returns; and [exit] is reached only after a call of
    [write] that returned 0 or less. *)
Theorem write_all_writes_a_prefix rets cbuf :
  fst (write_all rets cbuf 0) `prefix_of` cbuf
  ∧ (snd (write_all rets cbuf 0) = Written → fst (write_all rets cbuf 0) = cbuf)
  ∧ (snd (write_all rets cbuf 0) = Exited → ∃ r, r ∈ rets ∧ r ≤ 0).
Proof.
  destruct (write_all_prefix rets cbuf 0) as [Hp Hw]. rewrite drop_0 in *.
  split_and!; [done | done | apply write_all_exited].
Qed.

Lemma same_vlans_slot gifc gifc' k :
  Forall2 same_vlans gifc gifc' → same_vlans (slot gifc k) (slot gifc' k).
Proof.
  intros H. unfold slot.
  destruct (gifc !! k) as [g|] eqn:Hg.
  - destruct (Forall2_lookup_l _ _ _ _ _ H Hg) as (g' & -> & ?). done.
  - apply lookup_ge_None in Hg.
    rewrite (proj2 (lookup_ge_None gifc' k)); [done|].
    by rewrite <- (Forall2_length _ _ _ H).
Qed.

Lemma parse_frame_same_vlans gifc gifc' lt ifc ifc' frame :
  Forall2 same_vlans gifc gifc' → same_vlans ifc ifc' →
  parse_frame gifc' lt ifc' frame = parse_frame gifc lt ifc frame.
Proof.
  intros Hg (Hn & Ht & Hu). rewrite !parse_frame_eq.
  destruct (learns frame); [|done]. simpl. rewrite Hn.
  destruct (dst_lookup _ _); [done|].
  assert (tagged_vlans_0 ifc' = tagged_vlans_0 ifc) as Ht0
    by (unfold tagged_vlans_0; by rewrite Ht).
  assert (∀ f f' : Interface → list Emission,
    (∀ g g', same_vlans g g' → f' g' = f g) →
    gifc' ≫= f' = gifc ≫= f) as Hbind.
  { intros f f' Hf. induction Hg as [|g g' l l' Hgg _ IH]; [done|].
    rewrite !bind_cons, IH. f_equal. by apply Hf. }
  destruct (has_qtag frame).
  - f_equal. unfold parse_tagged_frame. rewrite Hu.
    destruct (negb _); [done|]. apply Hbind.
    intros g g' (Hn' & Ht' & Hu'). unfold parse_tagged_frame_step, forward_to,
      tagged_vlans_0 in *. by rewrite Hn, Hn', Ht', Hu', Ht0.
  - rewrite Hu. destruct (negb _); [|done]. f_equal.
    unfold parse_untagged_frame.
    generalize (replicate (vla_block (length frame - 12)) 0
                  ++ take (length frame) frame).
    clear Hbind.
    induction Hg as [|g g' l l' (Hn' & Ht' & Hu') _ IH]; intros mem; [done|].
    cbn [parse_untagged_frame_loop].
    unfold parse_untagged_frame_step, forward_to, tagged_vlans_0 in *.
    rewrite Hn, Hn', Ht', Hu', Hu.
    repeat (destruct (_ =? _)); simpl; by rewrite IH.
Qed.

Lemma handle_frames_same_vlans gifc gifc' inputs : ∀ lt,
  Forall2 same_vlans gifc gifc' →
  handle_frames gifc' lt inputs = handle_frames gifc lt inputs.
Proof.
  intros lt Hg. revert lt.
  induction inputs as [|[q fr] inputs IH]; intros lt; [done|].
  cbn [handle_frames]. unfold handle_frame.
  rewrite <- (Forall2_length _ _ _ Hg).
  destruct (_ || _); [done|].
  rewrite (parse_frame_same_vlans gifc gifc' lt
             (slot gifc (Z.to_nat (q - 1)))) by (done || by apply same_vlans_slot).
  destruct (parse_frame _ _ _ _) as [lt1 out1]. by rewrite IH.
Qed.

Lemma handle_mac_same_vlans gifc0 gifc n m gifc' :
  Forall2 same_vlans gifc0 gifc →
  handle_mac gifc n m = Some gifc' → Forall2 same_vlans gifc0 gifc'.
Proof.
  intros H. unfold handle_mac. destruct (_ >? _); [done|]. intros [= <-].
  set (k := Z.to_nat (n - 1)).
  destruct (decide (k < length gifc)%nat) as [Hk | Hk].
  - rewrite <- (list_insert_id gifc0 k (slot gifc0 k))
      by (apply slot_lt; by rewrite (Forall2_length _ _ _ H)).
    apply Forall2_insert; [done|].
    pose proof (same_vlans_slot _ _ k H) as (? & ? & ?). done.
  - by rewrite list_insert_ge by lia.
Qed.

Lemma handle_macs_same_vlans payload n : ∀ gifc0 gifc i gifc',
  Forall2 same_vlans gifc0 gifc →
  handle_macs gifc payload i n = Some gifc' → Forall2 same_vlans gifc0 gifc'.
Proof.
  induction n as [|n IH]; intros gifc0 gifc i gifc' H; simpl.
  - by intros [= <-].
  - destruct (handle_mac gifc _ _) as [gifc1|] eqn:H1; [|done].
    apply IH. by eapply handle_mac_same_vlans.
Qed.

Lemma handle_macs_abort payload n : ∀ gifc i,
  (i ≤ length gifc)%nat →
  handle_macs gifc payload i n = None ↔ (length gifc < i + n)%nat.
Proof.
  induction n as [|n IH]; intros gifc i Hi; simpl.
  - split; [done | lia].
  - unfold handle_mac.
    destruct (Z.gtb_spec (Z.of_nat i + 1) (Z.of_nat (length gifc))).
    + split; [lia | done].
    + rewrite IH by (rewrite length_insert; lia). rewrite length_insert. lia.
Qed.

(** X21 (control messages).  A message of type 0 that does not abort
    causes no emission and leaves the learning table alone; [have_mac] is
    set afterwards, [gifc] keeps its length, and no later forwarding
    depends on the MAC addresses that the first such message stores in
    [gifc]. *)
Theorem control_messages_keep_forwarding st payload st' out :
  dispatch st 0 payload = Some (st', out) →
  out = [] ∧ ls_table st' = ls_table st ∧ have_mac st' = true
  ∧ length (ls_gifc st') = length (ls_gifc st)
  ∧ ∀ lt inputs,
      handle_frames (ls_gifc st') lt inputs
      = handle_frames (ls_gifc st) lt inputs.
Proof.
  unfold dispatch. rewrite Z.eqb_refl. destruct (have_mac st) eqn:Hm.
  - intros [= <- <-]. done.
  - destruct (handle_macs _ _ _ _) as [gifc'|] eqn:H; [|done].
    intros [= <- <-]. simpl.
    assert (Forall2 same_vlans (ls_gifc st) gifc') as HF.
    { eapply handle_macs_same_vlans; [|exact H].
      apply Forall_Forall2_diag, Forall_forall. done. }
    split_and!; try done.
    + symmetry. by eapply Forall2_length.
    + intros lt inputs. by apply handle_frames_same_vlans.
Qed.

(** X22 (abort on a control message).  A message of type 0 aborts
    exactly when it is the first one and carries more MAC addresses, six
    bytes each, than there are interfaces. *)
Theorem control_message_abort st payload :
  dispatch st 0 payload = None ↔
  have_mac st = false ∧ (length (ls_gifc st) < length payload / 6)%nat.
Proof.
  unfold dispatch. rewrite Z.eqb_refl. destruct (have_mac st).
  - split; [done | by intros [? _]].
  - pose proof (handle_macs_abort payload (length payload / 6) (ls_gifc st) 0
                  ltac:(lia)) as H.
    destruct (handle_macs _ _ _ _).
    + split; [done|]. intros [_ Hlt]. by apply H in Hlt.
    + split; [|done]. intros _. split; [done|]. by apply H.
Qed.


(** * Buffers, envelopes and ports *)

(** X23 (the buffer of [loop]).  What the inner loop leaves in [buf] is a
    suffix of what it found, holds no complete message and is shorter than
    the buffer: the next [read] is asked for at least one byte. *)
Theorem loop_buffer_never_full st buf st' buf' out :
  drain_all st buf = Some (st', buf', out) →
  waiting buf' ∧ Z.of_nat (length buf') < UINT16_MAX ∧ buf' `suffix_of` buf.
Proof.
  intros H.
  apply (drain_all_leaves_waiting (length buf)) in H as [Hw [k ->]]; [|done].
  split; [done|]. split.
  - apply waiting_lt in Hw. lia.
  - apply suffix_drop.
Qed.

(** X24 (the envelope).  For a frame of at most 65531 bytes and an
    interface number below 2^16, the size field of the header that
    [forward_to] writes is the number of bytes it writes, the type field is
    the interface number, and the frame follows the four header bytes. *)
Theorem forward_to_iob_header dst frame frame_size :
  (frame_size ≤ length frame)%nat →
  Z.of_nat frame_size + 4 ≤ UINT16_MAX →
  0 ≤ ifc_num dst < 65536 →
  forward_to_iob dst frame frame_size = wire (forward_to dst frame frame_size)
  ∧ header_field (forward_to_iob dst frame frame_size) 0
    = Z.of_nat (length (forward_to_iob dst frame frame_size))
  ∧ header_field (forward_to_iob dst frame frame_size) 2 = ifc_num dst
  ∧ drop 4 (forward_to_iob dst frame frame_size) = take frame_size frame.
Proof.
  intros Hlen Hmax Hport. unfold UINT16_MAX in *.
  assert (forward_to_iob dst frame frame_size
          = wire (forward_to dst frame frame_size)) as Hw.
  { unfold forward_to_iob, wire, forward_to. simpl.
    by rewrite length_take, Nat.min_l by done. }
  split; [done|]. rewrite Hw.
  destruct (header_field_wire (forward_to dst frame frame_size) []) as [H0 H2].
  rewrite app_nil_r in *. rewrite H0, H2. unfold wire, forward_to. simpl.
  rewrite length_take, Nat.min_l by done.
  rewrite !Z.mod_small by lia. split_and!; [lia | done | done].
Qed.

Section Ports.
Variable gifc : list Interface.

Lemma slot_elem_of (q : Z) :
  0 < q ≤ Z.of_nat (length gifc) →
  ifc_num (slot gifc (Z.to_nat (q - 1))) ∈ ifc_num <$> gifc.
Proof.
  intros Hq. apply list_elem_of_fmap. eexists. split; [done|].
  apply list_elem_of_lookup. exists (Z.to_nat (q - 1)). apply slot_lt. lia.
Qed.

Lemma learn_slots_ports lt M p :
  lt_wf lt → p ∈ ifc_num <$> gifc → slots_ports gifc lt →
  slots_ports gifc (learn lt M p).
Proof.
  intros (Hlen & Hnbr & Hcur) Hp HS.
  destruct (lookup_mac lt M) as [q|] eqn:HM.
  - apply lookup_mac_Some in HM as (k & Hk & Hhit & Hfirst & Hq).
    rewrite (learn_found _ _ _ k) by done.
    destruct (_ =? _); [done|].
    intros i Hi. simpl in *.
    rewrite slot_insert by (rewrite Hnbr in Hk; unfold NBR_ENTRIES in *; lia).
    destruct (decide (k = i)); simpl; [done | by apply HS].
  - rewrite learn_not_found by done.
    intros i Hi. simpl in *.
    rewrite slot_insert by (unfold NBR_ENTRIES in *; lia).
    destruct (decide (_ = i)); simpl; [done | by apply HS].
Qed.

Lemma table_ready_slots_ports lt :
  lt_boot_or_wf lt → slots_ports gifc lt → slots_ports gifc (table_ready lt).
Proof.
  intros [Hlen [H0 | Hwf]] HS; unfold table_ready.
  - rewrite H0. simpl. intros k Hk Hne. exfalso. apply Hne. simpl in Hk.
    assert (k < length (table (lookup_table_init lt)))%nat as Hlt.
    { unfold lookup_table_init. simpl. rewrite length_fmap. lia. }
    apply slot_lt in Hlt. by apply lookup_table_init_slot in Hlt as [_ ?].
  - destruct Hwf as (? & Hn & ?). rewrite Hn. done.
Qed.

Lemma parse_frame_ports lt ifc frame :
  lt_boot_or_wf lt → slots_ports gifc lt → ifc_num ifc ∈ ifc_num <$> gifc →
  slots_ports gifc (fst (parse_frame gifc lt ifc frame))
  ∧ ∀ e, e ∈ snd (parse_frame gifc lt ifc frame) →
         em_port e ∈ ifc_num <$> gifc.
Proof.
  intros Hb HS Hp.
  pose proof (table_ready_wf _ Hb) as Hwf.
  pose proof (table_ready_slots_ports _ Hb HS) as HS'.
  split.
  { rewrite parse_frame_table. destruct (learns frame); [|done].
    by apply learn_slots_ports. }
  destruct (decide (dst_lookup (fst (parse_frame gifc lt ifc frame)) frame = None))
    as [Hnone | Hsome].
  { intros e He.
    pose proof (flood_ports_sublist gifc lt ifc frame Hnone) as Hs.
    eapply elem_of_sublist; [|exact Hs]. apply list_elem_of_fmap. eauto. }
  rewrite parse_frame_table in Hsome. rewrite parse_frame_eq.
  destruct (learns frame); [|by intros e ?%elem_of_nil]. simpl.
  pose proof (learn_slots_ports _ (frame_src frame) _ Hwf Hp HS') as HS1.
  destruct (dst_lookup _ _) as [q|] eqn:Hq; [|done]. simpl.
  intros e ->%list_elem_of_singleton. simpl.
  unfold dst_lookup in Hq. destruct (_ =? 0); [|done].
  apply lookup_mac_Some in Hq as (k & Hk & [_ Hocc]%hit_true & _ & <-).
  by apply HS1.
Qed.

Lemma handle_frames_ports inputs : ∀ lt lt' out,
  lt_boot_or_wf lt → slots_ports gifc lt →
  handle_frames gifc lt inputs = Some (lt', out) →
  ∀ e, e ∈ out → em_port e ∈ ifc_num <$> gifc.
Proof.
  induction inputs as [|[q fr] inputs IH]; intros lt lt' out Hb HS.
  { intros [= <- <-] e ?%elem_of_nil. done. }
  cbn [handle_frames]. unfold handle_frame.
  destruct (Z.gtb_spec q (Z.of_nat (length gifc))); [done|].
  destruct (Z.leb_spec q 0); [done|]. simpl.
  set (ifc := slot gifc _).
  destruct (parse_frame_ports lt ifc fr Hb HS) as [HS1 Hout1].
  { apply slot_elem_of. lia. }
  pose proof (parse_frame_boot_or_wf gifc lt ifc fr Hb) as Hwf1.
  destruct (parse_frame gifc lt ifc fr) as [lt1 out1].
  destruct (handle_frames gifc lt1 inputs) as [[lt2 out2]|] eqn:Hrest; [|done].
  intros [= <- <-] e [He | He]%elem_of_app; [by apply Hout1|].
  eapply IH; [| |exact Hrest|exact He]; [by apply lt_wf_boot_or_wf | done].
Qed.

(** X25 (ports of the emissions).  Every emission of a run from start-up
    is on the number of a configured interface. *)
Theorem run_emits_on_configured_ports inputs lt out e :
  handle_frames gifc lookupTable0 inputs = Some (lt, out) →
  e ∈ out → em_port e ∈ ifc_num <$> gifc.
Proof.
  intros Hrun. eapply handle_frames_ports; [| |exact Hrun].
  - apply lookupTable0_boot.
  - intros k Hk. simpl in Hk. lia.
Qed.
End Ports.

(** * Instances *)

Lemma learn_all_wf_unique l : ∀ lt,
  lt_wf lt → slots_unique lt →
  lt_wf (learn_all lt l) ∧ slots_unique (learn_all lt l).
Proof.
  induction l as [|[M p] l IH]; intros lt Hwf Hu; [done|].
  apply IH; [by apply save_to_table_wf | by apply learn_unique].
Qed.

Lemma table_ready_lookupTable0_wf : lt_wf (table_ready lookupTable0).
Proof. apply table_ready_wf, lookupTable0_boot. Qed.

Lemma learn_evicts_slot_under_cursor_witness :
  lookup_mac full_table (station 1) = Some 1
  ∧ lookup_mac (learn full_table mac_A 2) (station 1) = None.
Proof.
  split; [reflexivity|].
  destruct (learn_all_wf_unique eight_stations (table_ready lookupTable0))
    as [Hwf Hu].
  - apply table_ready_lookupTable0_wf.
  - apply table_ready_unique; [apply lookupTable0_boot|].
    apply lookupTable0_unique.
  - apply learn_evicts_slot_under_cursor;
      [exact Hwf | exact Hu | reflexivity | reflexivity | reflexivity].
Defined.


Lemma run_keeps_table_consistent_witness :
  handle_frames ports_default lookupTable0 [(1, untagged_A_to_B)]
  = Some (table_A_at_1, [mkEmission 2 untagged_A_to_B])
  ∧ lt_wf table_A_at_1 ∧ slots_unique table_A_at_1.
Proof.
  assert (handle_frames ports_default lookupTable0 [(1, untagged_A_to_B)]
          = Some (table_A_at_1, [mkEmission 2 untagged_A_to_B])) as Hrun
    by (vm_compute; reflexivity).
  split; [exact Hrun|].
  destruct (run_keeps_table_consistent ports_default _ _ _ Hrun)
    as (_ & Hwf & Hu).
  split; [apply Hwf; discriminate | exact Hu].
Defined.


Lemma flood_once_per_port_not_ingress_witness :
  dst_lookup (fst (parse_frame ports_default lookupTable0 (port 1 "p1")
                     untagged_A_to_B)) untagged_A_to_B = None
  ∧ ifc_num (port 1 "p1")
    ∉ em_port <$> snd (parse_frame ports_default lookupTable0 (port 1 "p1")
                         untagged_A_to_B).
Proof.
  split; [reflexivity|].
  apply (flood_once_per_port_not_ingress ports_default lookupTable0
           (port 1 "p1") untagged_A_to_B).
  reflexivity.
Defined.

Lemma group_destination_ignores_table_witness :
  multicast_bit (frame_dst broadcast_from_A) ≠ 0
  ∧ snd (parse_frame ports_default lookupTable0 (port 1 "p1") broadcast_from_A)
    = snd (parse_frame ports_default full_table (port 1 "p1") broadcast_from_A).
Proof.
  assert (multicast_bit (frame_dst broadcast_from_A) ≠ 0) as H
    by (vm_compute; discriminate).
  split; [exact H|]. by apply group_destination_ignores_table.
Defined.

Lemma tagged_then_stripped_is_original_witness :
  tag_safe (length untagged_A_to_B)
  ∧ mkEmission 3 (tagged_A_to_B 1)
      ∈ snd (parse_frame ports_U1_T1_T1 lookupTable0 (port 1 "p1[U:1]")
               untagged_A_to_B)
  ∧ mkEmission 2 untagged_A_to_B
      ∈ snd (parse_frame ports_T1_U1 lookupTable0 (port 1 "p1[T:1]")
               (tagged_A_to_B 1))
  ∧ (tagged_A_to_B 1 = untagged_A_to_B
     ∨ untagged_A_to_B = tagged_A_to_B 1
     ∨ untagged_A_to_B = untagged_A_to_B).
Proof.
  assert (tag_safe (length untagged_A_to_B)) as Hs by (vm_compute; lia).
  assert (mkEmission 3 (tagged_A_to_B 1)
            ∈ snd (parse_frame ports_U1_T1_T1 lookupTable0 (port 1 "p1[U:1]")
                     untagged_A_to_B)) as H1 by (vm_compute; right; left).
  assert (mkEmission 2 untagged_A_to_B
            ∈ snd (parse_frame ports_T1_U1 lookupTable0 (port 1 "p1[T:1]")
                     (tagged_A_to_B 1))) as H2 by (vm_compute; left).
  split; [exact Hs|]. split; [exact H1|]. split; [exact H2|].
  exact (tagged_then_stripped_is_original
           ports_U1_T1_T1 lookupTable0 (port 1 "p1[U:1]")
           ports_T1_U1 lookupTable0 (port 1 "p1[T:1]")
           untagged_A_to_B (mkEmission 3 (tagged_A_to_B 1))
           (mkEmission 2 untagged_A_to_B) eq_refl Hs H1 H2).
Defined.

Lemma parse_vlan_args_membership_witness :
  fst (parse_vlan_args (cstr "eth1[T:3,5]") zero_Interface) = 0
  ∧ Forall (λ v, 0 ≤ v ≤ MAX_VLANS)
      (vlans_upto_terminator
         (tagged_vlans (snd (parse_vlan_args (cstr "eth1[T:3,5]")
                               zero_Interface)))).
Proof.
  split; [reflexivity|].
  apply (parse_vlan_args_membership (cstr "eth1[T:3,5]") zero_Interface).
  reflexivity.
Defined.

Lemma tagged_spec_vlans_witness :
  parse_vlan_args (cstr "eth1" ++ cstr "[T:" ++ cstr "3,5" ++ ["]"%char])
    zero_Interface
  = (0, port 0 "eth1[T:3,5]")
  ∧ vlans_upto_terminator (tagged_vlans (port 0 "eth1[T:3,5]")) = [3; 5]
  ∧ tagged_vlans_0 (port 0 "eth1[T:3,5]") = 3.
Proof.
  assert (parse_vlan_args (cstr "eth1" ++ cstr "[T:" ++ cstr "3,5" ++ ["]"%char])
            zero_Interface = (0, port 0 "eth1[T:3,5]")) as H by reflexivity.
  split; [exact H|].
  destruct (tagged_spec_vlans (cstr "eth1") (cstr "3,5") [] zero_Interface
              (port 0 "eth1[T:3,5]")) as (Hm & H0 & _ & _).
  - compute_done.
  - compute_done.
  - exact H.
  - rewrite H0. split; reflexivity.
Defined.

Lemma main_numbers_interfaces_witness :
  main [cstr "p1"; cstr "p2"] = inr ports_default
  ∧ ifc_num (slot ports_default (Z.to_nat (2 - 1))) = 2 `mod` 65536.
Proof.
  assert (main [cstr "p1"; cstr "p2"] = inr ports_default) as H by reflexivity.
  split; [exact H|].
  apply (proj2 (main_numbers_interfaces _ _ H)). simpl. lia.
Defined.

Lemma parse_vlan_args_stores_in_bounds_witness :
  (length (tagged_vlans
             (snd (parse_vlan_args (spec_with_vlans 5000) zero_Interface)))
   ≤ Z.to_nat MAX_VLANS + 1)%nat.
Proof.
  apply (parse_vlan_args_stores_in_bounds (spec_with_vlans 5000) zero_Interface).
  simpl. lia.
Defined.

Lemma loop_independent_of_read_sizes_witness :
  loop ports_default (replicate 22 1%nat) (wire A_to_B_on_1)
  = loop ports_default (replicate 22 64%nat) (wire A_to_B_on_1).
Proof.
  apply loop_independent_of_read_sizes.
  - apply Forall_replicate. lia.
  - apply Forall_replicate. lia.
  - vm_compute. lia.
  - vm_compute. lia.
Defined.

Lemma loop_decodes_forwarded_frames_witness :
  loop_from (replicate 22 5%nat) loop_start [] ([A_to_B_on_1] ≫= wire)
  = Some (mkLoopState ports_default table_A_at_1 false,
          [mkEmission 2 untagged_A_to_B]).
Proof.
  rewrite loop_decodes_forwarded_frames.
  - reflexivity.
  - apply Forall_replicate. lia.
  - vm_compute. lia.
  - repeat constructor; done.
Defined.

Lemma control_messages_keep_forwarding_witness :
  dispatch loop_start 0 (mac_A ++ mac_B)
  = Some (mkLoopState [set_mac mac_A (port 1 "p1"); set_mac mac_B (port 2 "p2")]
            lookupTable0 true, [])
  ∧ handle_frames [set_mac mac_A (port 1 "p1"); set_mac mac_B (port 2 "p2")]
      lookupTable0 [(1, untagged_A_to_B)]
    = handle_frames ports_default lookupTable0 [(1, untagged_A_to_B)].
Proof.
  assert (dispatch loop_start 0 (mac_A ++ mac_B)
          = Some (mkLoopState
                    [set_mac mac_A (port 1 "p1"); set_mac mac_B (port 2 "p2")]
                    lookupTable0 true, [])) as H by reflexivity.
  split; [exact H|].
  apply (control_messages_keep_forwarding _ _ _ _ H).
Defined.

Lemma write_all_writes_everything_witness :
  write_all [2; 1; 5] [10; 20; 30] 0 = ([10; 20; 30], Written).
Proof.
  apply write_all_writes_everything.
  - repeat constructor.
  - simpl. lia.
Defined.

Lemma loop_buffer_never_full_witness :
  drain_all loop_start (wire A_to_B_on_1 ++ [0; 9])
  = Some (mkLoopState ports_default table_A_at_1 false, [0; 9],
          [mkEmission 2 untagged_A_to_B])
  ∧ waiting [0; 9].
Proof.
  assert (drain_all loop_start (wire A_to_B_on_1 ++ [0; 9])
          = Some (mkLoopState ports_default table_A_at_1 false, [0; 9],
                  [mkEmission 2 untagged_A_to_B])) as H by reflexivity.
  split; [exact H|].
  apply (loop_buffer_never_full _ _ _ _ _ H).
Defined.

Lemma forward_to_iob_header_witness :
  header_field (forward_to_iob (port 2 "p2") untagged_A_to_B 18) 0 = 22
  ∧ header_field (forward_to_iob (port 2 "p2") untagged_A_to_B 18) 2 = 2.
Proof.
  destruct (forward_to_iob_header (port 2 "p2") untagged_A_to_B 18)
    as (_ & H0 & H2 & _).
  - simpl. lia.
  - vm_compute. discriminate.
  - vm_compute. split; [discriminate | reflexivity].
  - split; [exact H0 | exact H2].
Defined.

Lemma run_emits_on_configured_ports_witness :
  mkEmission 2 untagged_A_to_B ∈ [mkEmission 2 untagged_A_to_B]
  ∧ 2 ∈ ifc_num <$> ports_default.
Proof.
  assert (handle_frames ports_default lookupTable0 [(1, untagged_A_to_B)]
          = Some (table_A_at_1, [mkEmission 2 untagged_A_to_B])) as Hrun
    by (vm_compute; reflexivity).
  assert (mkEmission 2 untagged_A_to_B ∈ [mkEmission 2 untagged_A_to_B])
    as Hin by left.
  split; [exact Hin|].
  exact (run_emits_on_configured_ports ports_default _ _ _ _ Hrun Hin).
Defined.

